(** * Hierarchical Risk Parity: a shallow embedding of [modfin/PortOptm/hrp.py]

    The development follows the class [HierarchicalRiskParity]:
    construction ([__init__]), the quasi-diagonalisation of the linkage
    matrix ([_getQuasiDiag]), the inverse-variance proxy ([_getIVP],
    [_getClusterVar]), the recursive bisection ([_getRecBipart]), the
    orchestration and the post-processing ([optimize]) and [plot].

    Numbers.  The program computes on binary floating point; here every
    number is an exact rational in canonical form ([Qc]), so equalities
    are equalities of real values and rounding error is not modelled.
    A division by zero, which numpy answers with [inf] or [nan], leaves
    the rational model: it is the outcome [NonFinite].

    Collaborators.  pandas, numpy, scipy and the sibling modules
    [modfin.Analysis] and [modfin.utils] are not part of the file that is
    embedded; what [optimize] asks of them is a parameter of the
    embedding (record [collaborators]). *)

From Stdlib Require Import String Ascii.
From stdpp Require Import gmap strings.
From Stdlib Require Import List ZArith QArith Qcanon Qround Lia Lqa Bool.
From Stdlib Require Import Permutation.
Import ListNotations.

Local Open Scope string_scope.
Local Open Scope list_scope.
Local Open Scope nat_scope.

(** ** Outcomes of a Python call *)

Inductive exn : Type :=
  | ValueError (msg : string)
  | AttributeError (attr : string)
  | IndexError
  | KeyError (key : string)
  | UnboundLocalError (var : string)
  | CollaboratorError (who : string).

Inductive outcome (A : Type) : Type :=
  | Ok (a : A)          (* the call returns [a] *)
  | Raise (e : exn)     (* the call raises [e] *)
  | NonFinite           (* a float became inf or nan (division by zero) *)
  | OutOfFuel.          (* the recursion or loop was cut by the fuel *)

Arguments Ok {A} a.
Arguments Raise {A} e.
Arguments NonFinite {A}.
Arguments OutOfFuel {A}.

Definition bind {A B : Type} (m : outcome A) (k : A -> outcome B) : outcome B :=
  match m with
  | Ok a => k a
  | Raise e => Raise e
  | NonFinite => NonFinite
  | OutOfFuel => OutOfFuel
  end.

Notation "'do' x <- m ; k" := (bind m (fun x => k))
  (at level 10, x name, m at level 100, k at level 200).

Fixpoint mapM {A B : Type} (f : A -> outcome B) (l : list A) : outcome (list B) :=
  match l with
  | [] => Ok []
  | x :: l' => do y <- f x; do ys <- mapM f l'; Ok (y :: ys)
  end.

Definition is_ok {A : Type} (m : outcome A) : Prop := exists a, m = Ok a.

(** ** Construction: [__init__] *)

(** [str.lower] on the ASCII letters, the alphabet of every accepted name. *)
Definition lower_ascii (c : ascii) : ascii :=
  let n := nat_of_ascii c in
  if (65 <=? n) && (n <=? 90) then ascii_of_nat (n + 32) else c.

Fixpoint lower (s : string) : string :=
  match s with
  | EmptyString => EmptyString
  | String c s' => String (lower_ascii c) (lower s')
  end.

(** Python's [x in list] on strings. *)
Fixpoint str_in (s : string) (l : list string) : bool :=
  match l with
  | [] => false
  | x :: l' => if String.eqb s x then true else str_in s l'
  end.

Definition risk_metric_names : list string :=
  ["variance"; "semivariance"; "shrinkage"; "letoidwolf"; "oas"].

Definition method_names : list string :=
  ["ward"; "single"; "average"; "complete"; "median"; "weighted"; "centroid"].

Definition risk_metrics_msg : string :=
  "RiskMetrics must be one of the following: 'Variance', 'Semivariance', 'Shrinkage', 'LetoidWolf' or 'OAS'".

Definition method_msg : string :=
  "Method must be one of the following: 'Ward', 'Single', 'Average', 'Complete', 'Median', 'Weighted' or 'Centroid'".

(** One row of the linkage matrix: the two merged node ids and the merge
    distance (the fourth column, the cluster size, is never read). *)
Record merge : Type := Merge {
  left_child : nat;
  right_child : nat;
  merge_distance : Qc
}.

(** Values held by the attributes of an instance. *)
Inductive pyval : Type :=
  | PyNone
  | PyStr (s : string)
  | PyLinkage (rows : list merge)
  | PyNames (names : list string).

(** An instance is its attribute dictionary. *)
Abbreviation instance := (gmap string pyval).

Definition __init__ (RiskMetrics Method : string) : outcome instance :=
  let self : instance := <["clusters" := PyNone]> ∅ in
  if negb (str_in (lower RiskMetrics) risk_metric_names)
  then Raise (ValueError risk_metrics_msg)
  else
    let self := <["_RiskMetrics" := PyStr (lower RiskMetrics)]> self in
    if negb (str_in (lower Method) method_names)
    then Raise (ValueError method_msg)
    else Ok (<["_Method" := PyStr (lower Method)]> self).

(** Reading an attribute: a missing one raises [AttributeError]. *)
Definition getattr (self : instance) (name : string) : outcome pyval :=
  match self !! name with
  | Some v => Ok v
  | None => Raise (AttributeError name)
  end.

(** ** Quasi-diagonalisation: [_getQuasiDiag] *)

(** The recursion of the source follows the child ids stored in the
    linkage matrix, so it is cut by [fuel]; [cluster[i, 0]] with [i] past
    the last row raises [IndexError]. *)
Fixpoint _getQuasiDiag (fuel : nat) (cluster : list merge)
    (num_assets curr_index : nat) : outcome (list nat) :=
  match fuel with
  | 0 => OutOfFuel
  | S fuel' =>
      if curr_index <? num_assets then Ok [curr_index]
      else
        match cluster !! (curr_index - num_assets) with
        | None => Raise IndexError
        | Some row =>
            do l <- _getQuasiDiag fuel' cluster num_assets (left_child row);
            do r <- _getQuasiDiag fuel' cluster num_assets (right_child row);
            Ok (l ++ r)
        end
  end.

(** ** Rational arithmetic of the allocation *)

Abbreviation matrix := (list (list Qc)).

Definition Qc_of_nat (n : nat) : Qc := Q2Qc (inject_Z (Z.of_nat n)).

(** Division as numpy performs it on floats: a zero divisor gives no
    exception but [inf] or [nan]. *)
Definition qdiv (x y : Qc) : outcome Qc :=
  if Qc_eq_bool y 0%Qc then NonFinite else Ok (x / y)%Qc.

Definition qsum (l : list Qc) : Qc := fold_right Qcplus 0%Qc l.

Definition dot (u v : list Qc) : Qc :=
  qsum (map (fun p : Qc * Qc => (fst p * snd p)%Qc) (combine u v)).

(** [frame.iloc[rows, cols]]: positional selection, [IndexError] past the
    end. *)
Definition iloc (m : matrix) (rows cols : list nat) : outcome matrix :=
  mapM (fun i =>
          match m !! i with
          | None => Raise IndexError
          | Some r =>
              mapM (fun j => match r !! j with
                             | None => Raise IndexError
                             | Some x => Ok x
                             end) cols
          end) rows.

(** [np.diag] of a two-dimensional array: the main diagonal. *)
Fixpoint np_diag_from (i : nat) (m : matrix) : list Qc :=
  match m with
  | [] => []
  | r :: m' =>
      match r !! i with
      | Some x => x :: np_diag_from (S i) m'
      | None => []
      end
  end.

Definition np_diag (m : matrix) : list Qc := np_diag_from 0 m.

Definition _getIVP (cov : matrix) : outcome (list Qc) :=
  do ivp <- mapM (qdiv 1%Qc) (np_diag cov);
  do inv_total <- qdiv 1%Qc (qsum ivp);
  Ok (map (fun x => (x * inv_total)%Qc) ivp).

(** Modelled from the spec: [PortfolioMetrics.ExpectedVariance] lives in
    [modfin.utils], which is not among the embedded sources; the spec
    gives it as the quadratic form [w^T . Sigma . w]. *)
Definition quadratic_form (cov : matrix) (w : list Qc) : outcome Qc :=
  Ok (dot w (map (fun row => dot row w) cov)).

(** ** Tables *)

(** A pandas Series of floats: labels and values, in order. *)
Definition series (L : Type) : Type := list (L * Qc).

(** A cell of the returned one-row table.  After the assignment of the
    string ['nan'] the Series holds Python objects: floats and strings. *)
Inductive cell : Type :=
  | CellNum (q : Qc)
  | CellNaN
  | CellStr (s : string).

(** [pandas.isna] on one object: only the float [nan] (and [None]) are
    missing; a string, whatever it spells, is a value. *)
Definition isna (c : cell) : bool :=
  match c with
  | CellNaN => true
  | CellNum _ | CellStr _ => false
  end.

Definition table : Type := list (string * cell).

(** What Python hands to [optimize] as [AssetPrices]. *)
Inductive pyarg (F : Type) : Type :=
  | ArgNone
  | ArgOther
  | ArgDataFrame (datetime_index : bool) (df : F).

Arguments ArgNone {F}.
Arguments ArgOther {F}.
Arguments ArgDataFrame {F} datetime_index df.

(** ** Collaborators of [optimize] *)

Record collaborators : Type := {
  frame : Type;                              (* pandas.DataFrame of floats *)
  pct_change : frame -> frame;
  dropna_all_rows_then_columns : frame -> frame;
  columns : frame -> list string;
  CovMatrix_Sample : frame -> outcome matrix;
  CovMatrix_SampleSemi : frame -> outcome matrix;
  CovMatrix_BasicShrinkage : frame -> outcome matrix;
  CovMatrix_LedoitWolf : frame -> outcome matrix;
  CovMatrix_Oracle : frame -> outcome matrix;
  Resampler_Cov2Corr : matrix -> outcome matrix;
  np_sqrt : Qc -> outcome Qc;
  (* [scipy_linkage(squareform(distance), method)] *)
  scipy_linkage : matrix -> string -> outcome (list merge);
  PortfolioMetrics_ExpectedVariance : matrix -> list Qc -> outcome Qc
}.

(** ** Rounding *)

(** [numpy.rint]: the nearest integer, a tie going to the even one. *)
Definition rint (q : Qc) : Z :=
  let f := Qfloor q in
  let d := (q - Q2Qc (inject_Z f))%Qc in
  match (d ?= Q2Qc (1 # 2))%Qc with
  | Lt => f
  | Gt => (f + 1)%Z
  | Eq => if Z.even f then f else (f + 1)%Z
  end.

Definition pow10 (n : nat) : Qc := Q2Qc (inject_Z (10 ^ Z.of_nat n)).

(** [Series.round(n)]. *)
Definition round_dec (n : nat) (q : Qc) : Qc :=
  (Q2Qc (inject_Z (rint (q * pow10 n))) / pow10 n)%Qc.

(** ** Recursive bisection: [_getClusterVar], [_getRecBipart] *)

Fixpoint foldM {A B : Type} (f : B -> A -> outcome B) (l : list A) (b : B)
    : outcome B :=
  match l with
  | [] => Ok b
  | x :: l' => do b' <- f b x; foldM f l' b'
  end.

(** [cluster[start:end]] for [0 <= start <= end]. *)
Definition slice {A : Type} (l : list A) (start end_ : nat) : list A :=
  firstn (end_ - start) (skipn start l).

(** The list comprehension of the bisection. *)
Definition bisect (clustered_alphas : list (list nat)) : list (list nat) :=
  flat_map
    (fun cluster =>
       flat_map
         (fun se : nat * nat =>
            if 1 <? length cluster then [slice cluster (fst se) (snd se)] else [])
         [(0, length cluster / 2); (length cluster / 2, length cluster)])
    clustered_alphas.

(** [range(0, n, 2)]. *)
Definition range_step2 (n : nat) : list nat :=
  map (fun i => 2 * i) (seq 0 (Nat.div2 (n + 1))).

(** [weights[cluster] *= factor] on a Series whose labels are distinct. *)
Definition scale (weights : series nat) (cluster : list nat) (factor : Qc)
    : series nat :=
  map (fun kv : nat * Qc =>
         if existsb (Nat.eqb (fst kv)) cluster
         then (fst kv, (snd kv * factor)%Qc)
         else kv)
      weights.

Definition alloc_factor (left_cluster_variance right_cluster_variance : Qc)
    : outcome Qc :=
  do q <- qdiv left_cluster_variance
               (left_cluster_variance + right_cluster_variance)%Qc;
  Ok (1 - q)%Qc.

Section Allocation.

Context (ext : collaborators).

(** The weights go to [ExpectedVariance] as [_getIVP] returns them.
    When they are not finite (a variance of zero), the source still makes
    the call, with nan among the weights; the model has no nan to pass
    and ends in [NonFinite], which is the answer of an
    [ExpectedVariance] that computes with its weights, as the quadratic
    form does.  Nothing is said here about an [ExpectedVariance] that
    would ignore a nan weight. *)
Definition _getClusterVar (covariance : matrix) (cluster_indices : list nat)
    : outcome Qc :=
  do cluster_covariance <- iloc covariance cluster_indices cluster_indices;
  do parity_w <- _getIVP cluster_covariance;
  PortfolioMetrics_ExpectedVariance ext cluster_covariance parity_w.

(** The body of [for subcluster in range(0, len(clustered_alphas), 2)]. *)
Definition pair_body (covariance_matrix : matrix)
    (clustered_alphas : list (list nat)) (weights : series nat)
    (subcluster : nat) : outcome (series nat) :=
  match clustered_alphas !! subcluster with
  | None => Raise IndexError
  | Some left_cluster =>
      match clustered_alphas !! (subcluster + 1) with
      | None => Raise IndexError
      | Some right_cluster =>
          do lv <- _getClusterVar covariance_matrix left_cluster;
          do rv <- _getClusterVar covariance_matrix right_cluster;
          do a <- alloc_factor lv rv;
          Ok (scale (scale weights left_cluster a) right_cluster (1 - a)%Qc)
      end
  end.

Definition pair_loop (covariance_matrix : matrix)
    (clustered_alphas : list (list nat)) (weights : series nat)
    : outcome (series nat) :=
  foldM (pair_body covariance_matrix clustered_alphas)
        (range_step2 (length clustered_alphas)) weights.

(** [while clustered_alphas: ...], one unit of fuel per iteration. *)
Fixpoint bipart_loop (fuel : nat) (covariance_matrix : matrix)
    (clustered_alphas : list (list nat)) (weights : series nat)
    : outcome (series nat) :=
  match fuel with
  | 0 => OutOfFuel
  | S fuel' =>
      match clustered_alphas with
      | [] => Ok weights
      | _ :: _ =>
          let clustered_alphas := bisect clustered_alphas in
          do weights <- pair_loop covariance_matrix clustered_alphas weights;
          bipart_loop fuel' covariance_matrix clustered_alphas weights
      end
  end.

Definition _getRecBipart (fuel : nat) (covariance_matrix : matrix)
    (assets : list string) (ordered_indices : list nat)
    : outcome (series string) :=
  let weights := map (fun i => (i, 1%Qc)) ordered_indices in
  let clustered_alphas := [ordered_indices] in
  do weights <- bipart_loop fuel covariance_matrix clustered_alphas weights;
  do labels <- mapM (fun i => match assets !! i with
                              | Some a => Ok a
                              | None => Raise IndexError
                              end) ordered_indices;
  Ok (combine labels (map snd weights)).

End Allocation.

(** ** Orchestration: [optimize] *)

Definition not_a_frame_msg : string :=
  "Asset Prices must be a Pandas DataFrame!".

Definition not_datetime_msg : string :=
  "Asset Prices must be a Pandas DataFrame index by datetime!".

(** The validation block at the head of [optimize]. *)
Definition check_asset_prices {F : Type} (AssetPrices : pyarg F) : outcome unit :=
  match AssetPrices with
  | ArgNone => Ok tt
  | ArgOther => Raise (ValueError not_a_frame_msg)
  | ArgDataFrame false _ => Raise (ValueError not_datetime_msg)
  | ArgDataFrame true _ => Ok tt
  end.

Fixpoint assoc {V : Type} (key : string) (l : list (string * V)) : option V :=
  match l with
  | [] => None
  | (k, v) :: l' => if String.eqb key k then Some v else assoc key l'
  end.

(** The last six statements of [optimize]: [round(8)], the division by
    the sum, the assignment of the string ['nan'] where the weight is
    zero (the right-hand side is a [str], so the entries become Python
    objects), the selection of the columns [asset_names] of the one-row
    frame, and [dropna(axis="columns")], which drops the columns that
    hold a missing value. *)
Definition post_process (asset_names : list string) (Portifolio : series string)
    : outcome table :=
  let rounded := map (fun kv => (fst kv, round_dec 8 (snd kv))) Portifolio in
  let total := qsum (map snd rounded) in
  do normal <- mapM (fun kv : string * Qc =>
                       do q <- qdiv (snd kv) total; Ok (fst kv, q)) rounded;
  let marked :=
    map (fun kv : string * Qc =>
           (fst kv,
            if Qc_eq_bool (snd kv) 0%Qc then CellStr "nan" else CellNum (snd kv)))
        normal in
  do row <- mapM (fun name => match assoc name marked with
                              | Some c => Ok (name, c)
                              | None => Raise (KeyError name)
                              end) asset_names;
  Ok (filter (fun kc : string * cell => negb (isna (snd kc))) row).

Section Orchestration.

Context (ext : collaborators).

(** The [if]/[elif] chain on [self._RiskMetrics]; when no branch is
    taken the name [risk_matrix] is unbound at its first use. *)
Definition risk_matrix_of (metric : pyval) (asset_returns : frame ext)
    : outcome matrix :=
  match metric with
  | PyStr name =>
      if String.eqb name "variance" then CovMatrix_Sample ext asset_returns
      else if String.eqb name "semivariance"
      then CovMatrix_SampleSemi ext asset_returns
      else if String.eqb name "shrinkage"
      then CovMatrix_BasicShrinkage ext asset_returns
      else if String.eqb name "letoidwolf"
      then CovMatrix_LedoitWolf ext asset_returns
      else if String.eqb name "oas" then CovMatrix_Oracle ext asset_returns
      else Raise (UnboundLocalError "risk_matrix")
  | _ => Raise (UnboundLocalError "risk_matrix")
  end.

(** [np.sqrt((1 - correlation_matrix).round(10) / 2)]. *)
Definition distance_of (correlation_matrix : matrix) : outcome matrix :=
  mapM (mapM (fun c => np_sqrt ext
                         (round_dec 10 (1 - c)%Qc / Q2Qc (inject_Z 2))%Qc))
       correlation_matrix.

(** From the returns to the linkage matrix: everything [optimize] does
    before it assigns [self.clusters]. *)
Definition estimate_and_cluster (self : instance) (asset_returns : frame ext)
    : outcome (matrix * list merge) :=
  do metric <- getattr self "_RiskMetrics";
  do risk_matrix <- risk_matrix_of metric asset_returns;
  do correlation_matrix <- Resampler_Cov2Corr ext risk_matrix;
  do distance_matrix <- distance_of correlation_matrix;
  do method <- getattr self "_Method";
  do clusters <- scipy_linkage ext distance_matrix
                   (match method with PyStr m => m | _ => "" end);
  Ok (risk_matrix, clusters).

(** From the linkage matrix to the returned table.  Node ids are natural
    numbers: with at least one asset the root id [2 * num_assets - 2] is
    one. *)
Definition allocate (fuel : nat) (asset_names : list string)
    (risk_matrix : matrix) (clusters : list merge) : outcome table :=
  let num_assets := length asset_names in
  do ordered_indices <-
     _getQuasiDiag fuel clusters num_assets (2 * num_assets - 2);
  do Portifolio <- _getRecBipart ext fuel risk_matrix asset_names ordered_indices;
  post_process asset_names Portifolio.

(** [optimize] returns the instance as the call leaves it, together with
    the outcome of the call. *)
Definition optimize (fuel : nat) (self : instance)
    (AssetPrices : pyarg (frame ext)) : instance * outcome table :=
  match check_asset_prices AssetPrices with
  | Ok _ =>
      match AssetPrices with
      | ArgDataFrame _ prices =>
          let asset_returns :=
            dropna_all_rows_then_columns ext (pct_change ext prices) in
          let asset_names := columns ext asset_returns in
          match estimate_and_cluster self asset_returns with
          | Ok (risk_matrix, clusters) =>
              let self := <["clusters" := PyLinkage clusters]> self in
              (self, allocate fuel asset_names risk_matrix clusters)
          | Raise e => (self, Raise e)
          | NonFinite => (self, NonFinite)
          | OutOfFuel => (self, OutOfFuel)
          end
      | _ => (self, Raise (AttributeError "pct_change"))
      end
  | Raise e => (self, Raise e)
  | NonFinite => (self, NonFinite)
  | OutOfFuel => (self, OutOfFuel)
  end.

End Orchestration.

(** ** [plot] *)

(** The calls [plot] makes into matplotlib and scipy, in order. *)
Inductive plot_event : Type :=
  | EvFigure
  | EvAddSubplot
  | EvSetTitle
  | EvDendrogram (rows : list merge) (labels : pyval)
  | EvGrid
  | EvTightLayout
  | EvShow.

Definition not_optimized_msg : string :=
  "You must run the Optimize method before plotting".

(** [plot] returns the calls it has made and how it ended.  The
    arguments of [dendrogram] are evaluated left to right, before the
    call. *)
Definition plot (self : instance) : list plot_event * outcome unit :=
  match getattr self "clusters" with
  | Ok PyNone => ([], Raise (ValueError not_optimized_msg))
  | Ok _ =>
      let drawn := [EvFigure; EvAddSubplot; EvSetTitle] in
      match getattr self "clusters" with
      | Ok clusters =>
          match getattr self "asset_names" with
          | Ok labels =>
              (drawn ++
               [EvDendrogram (match clusters with
                              | PyLinkage rows => rows
                              | _ => []
                              end) labels;
                EvGrid; EvTightLayout; EvShow],
               Ok tt)
          | Raise e => (drawn, Raise e)
          | NonFinite => (drawn, NonFinite)
          | OutOfFuel => (drawn, OutOfFuel)
          end
      | Raise e => (drawn, Raise e)
      | NonFinite => (drawn, NonFinite)
      | OutOfFuel => (drawn, OutOfFuel)
      end
  | Raise e => ([], Raise e)
  | NonFinite => ([], NonFinite)
  | OutOfFuel => ([], OutOfFuel)
  end.

(** What a caller can do with an instance: the two public methods. *)
Inductive call (ext : collaborators) : instance -> instance -> Prop :=
  | call_optimize fuel self AssetPrices :
      call ext self (fst (optimize ext fuel self AssetPrices))
  | call_plot self :
      call ext self self.

(** Any number of calls, one after the other. *)
Inductive calls (ext : collaborators) : instance -> instance -> Prop :=
  | calls_nil self : calls ext self self
  | calls_step self mid self' :
      calls ext self mid -> call ext mid self' -> calls ext self self'.

(** ** Test doubles for the collaborators

    A frame of the test double carries its column labels together with
    the risk matrix an estimator would compute from it; the clustering
    primitive answers [tree] whatever it is given. *)
Record stub_frame : Type := StubFrame {
  stub_columns : list string;
  stub_risk : matrix
}.

Definition stub (tree : outcome (list merge)) : collaborators := {|
  frame := stub_frame;
  pct_change := fun f => f;
  dropna_all_rows_then_columns := fun f => f;
  columns := stub_columns;
  CovMatrix_Sample := fun f => Ok (stub_risk f);
  CovMatrix_SampleSemi := fun f => Ok (stub_risk f);
  CovMatrix_BasicShrinkage := fun f => Ok (stub_risk f);
  CovMatrix_LedoitWolf := fun f => Ok (stub_risk f);
  CovMatrix_Oracle := fun f => Ok (stub_risk f);
  Resampler_Cov2Corr := fun m => Ok m;
  np_sqrt := fun q => Ok q;
  scipy_linkage := fun _ _ => tree;
  PortfolioMetrics_ExpectedVariance := quadratic_form
|}.

(** ** Merge trees *)

(** Every node id that some row of the linkage matrix merges. *)
Definition children (cluster : list merge) : list nat :=
  flat_map (fun row => [left_child row; right_child row]) cluster.

(** A merge tree over [num_assets] leaves: one row per internal node,
    row [i] being node [num_assets + i]; a row merges two nodes that
    exist before it; and, the rows forming a tree, no node is merged
    twice. *)
Definition well_formed_tree (num_assets : nat) (cluster : list merge) : Prop :=
  length cluster = num_assets - 1 /\
  (forall i row, cluster !! i = Some row ->
     left_child row < num_assets + i /\ right_child row < num_assets + i) /\
  NoDup (children cluster).

(** The leaves below a node, as [_getQuasiDiag] lists them when the fuel
    reaches the leaves. *)
Definition expand (cluster : list merge) (num_assets k : nat) : list nat :=
  match _getQuasiDiag (S k) cluster num_assets k with
  | Ok l => l
  | _ => []
  end.

(** [expands cluster num_assets k l]: with any fuel above [k] the call
    on node [k] returns [l]. *)
Definition expands (cluster : list merge) (num_assets k : nat) (l : list nat)
    : Prop :=
  forall fuel, k < fuel -> _getQuasiDiag fuel cluster num_assets k = Ok l.

(** The roots of the forest built by the first [i] rows: the nodes that
    exist by then and that no row has merged yet. *)
Definition is_root (cluster : list merge) (num_assets i k : nat) : Prop :=
  k < num_assets + i /\ ~ In k (children (take i cluster)).

(** ** The bisection as the specification words it

    These definitions follow the text of the specification, not the
    source: they are what [bisect] and [pair_loop] are compared with. *)

(** The members of a cluster before its midpoint, [[0, len // 2)]. *)
Definition left_half (cluster : list nat) : list nat :=
  firstn (length cluster / 2) cluster.

(** The members of a cluster from its midpoint on, [[len // 2, len)]. *)
Definition right_half (cluster : list nat) : list nat :=
  skipn (length cluster / 2) cluster.

(** The clusters that are split: those with more than one member. *)
Definition splittable (clusters : list (list nat)) : list (list nat) :=
  filter (fun cluster => 1 <? length cluster) clusters.

(** Every weight of a member of [members] is multiplied by [factor]. *)
Definition multiply_members (weights : series nat) (members : list nat)
    (factor : Qc) : series nat :=
  map (fun kv : nat * Qc =>
         (fst kv,
          if in_dec Nat.eq_dec (fst kv) members
          then (snd kv * factor)%Qc else snd kv))
      weights.

(** One parent cluster: its two halves, their cluster variances, the
    factor [a = 1 - var_left / (var_left + var_right)], the left half
    multiplied by [a] and the right half by [1 - a]. *)
Definition split_and_allocate (ext : collaborators) (covariance : matrix)
    (weights : series nat) (parent : list nat) : outcome (series nat) :=
  do var_left <- _getClusterVar ext covariance (left_half parent);
  do var_right <- _getClusterVar ext covariance (right_half parent);
  do ratio <- qdiv var_left (var_left + var_right)%Qc;
  let a := (1 - ratio)%Qc in
  Ok (multiply_members (multiply_members weights (left_half parent) a)
                       (right_half parent) (1 - a)%Qc).

(** ** Uncorrelated assets of equal variance *)

(** The covariance of asset [i] with asset [j]: [v] with itself, none
    with another. *)
Definition delta (v : Qc) (i j : nat) : Qc := if i =? j then v else 0%Qc.

(** The risk matrix [v * I] of [n] uncorrelated assets of variance [v]. *)
Definition equal_variance_matrix (n : nat) (v : Qc) : matrix :=
  map (fun i => map (delta v i) (seq 0 n)) (seq 0 n).

(** The collaborator [ExpectedVariance] is the quadratic form of the spec. *)
Definition uses_quadratic_form (ext : collaborators) : Prop :=
  forall cov w, PortfolioMetrics_ExpectedVariance ext cov w = quadratic_form cov w.

(** The Series whose labels are [labels] and whose values are given by [f]. *)
Definition series_of (labels : list nat) (f : nat -> Qc) : series nat :=
  map (fun k => (k, f k)) labels.

(** [share k total] is the rational [k / total]. *)
Definition share (k total : nat) : Qc := (Qc_of_nat k / Qc_of_nat total)%Qc.

(** The weights after the split of [parent] in proportion to the sizes of
    its halves: the left half by [a = |left| / |parent|], the right half
    by [1 - a]. *)
Definition after_split (parent : list nat) (f : nat -> Qc) (k : nat) : Qc :=
  let a := share (length (left_half parent)) (length parent) in
  let g := fun k => if in_dec Nat.eq_dec k (left_half parent)
                    then (f k * a)%Qc else f k in
  if in_dec Nat.eq_dec k (right_half parent) then (g k * (1 - a))%Qc else g k.

(** The invariant of one level on equal variances, with the clusters
    [done] already split and the clusters [todo] still to split: a member
    of a cluster of size [s] weighs [s / N], an asset in no cluster [1 / N]. *)
Definition level_inv (ordered : list nat) (done todo : list (list nat))
    (g : nat -> Qc) : Prop :=
  (forall c k, In c todo -> In k c -> g k = share (length c) (length ordered)) /\
  (forall c k, In c (bisect done) -> In k c ->
     g k = share (length c) (length ordered)) /\
  (forall k, In k ordered -> ~ In k (concat todo) ->
     ~ In k (concat (bisect done)) -> g k = share 1 (length ordered)).

(** ** Sample inputs *)

(** The instance [HierarchicalRiskParity()] builds from its defaults. *)
Definition default_instance : instance :=
  <["_Method" := PyStr "single"]>
    (<["_RiskMetrics" := PyStr "variance"]> (<["clusters" := PyNone]> ∅)).

(** Two uncorrelated assets, the second a thousand million times as
    risky as the first, and the one merge that joins them. *)
Definition lopsided_frame : stub_frame :=
  StubFrame ["A"; "B"]
            [[1%Qc; 0%Qc]; [0%Qc; Q2Qc (inject_Z 1000000000)]].

Definition one_merge : list merge := [Merge 0 1 1%Qc].

(** A table with a single asset. *)
Definition single_frame : stub_frame := StubFrame ["A"] [[1%Qc]].

(** A test double whose clustering call refuses what it is given, with
    the error scipy's [linkage] raises on the empty condensed distance
    matrix that [squareform] makes of fewer than two observations. *)
Definition refusing_linkage : collaborators :=
  stub (Raise (ValueError
    "The number of observations cannot be determined on an empty distance matrix.")).

(** Four assets in two perfectly anti-correlated pairs: each pair has
    the cluster variance zero. *)
Definition hedged_risk : matrix :=
  [[1%Qc; (-1)%Qc; 0%Qc; 0%Qc];
   [(-1)%Qc; 1%Qc; 0%Qc; 0%Qc];
   [0%Qc; 0%Qc; 1%Qc; (-1)%Qc];
   [0%Qc; 0%Qc; (-1)%Qc; 1%Qc]].

(** ** The recursive bisection on any risk matrix *)

(** The weights after the split of [parent] with the factor [a]. *)
Definition reweigh (a : Qc) (parent : list nat) (f : nat -> Qc) (k : nat) : Qc :=
  let g := fun k => if in_dec Nat.eq_dec k (left_half parent)
                    then (f k * a)%Qc else f k in
  if in_dec Nat.eq_dec k (right_half parent) then (g k * (1 - a))%Qc else g k.

(** Every cluster drawn from [ordered] has a positive cluster variance:
    what a positive definite risk matrix gives. *)
Definition positive_cluster_variances (ext : collaborators) (cov : matrix)
    (ordered : list nat) : Prop :=
  forall idx, idx <> [] -> NoDup idx -> incl idx ordered ->
  exists var, _getClusterVar ext cov idx = Ok var /\ (0 < var)%Qc.

(** The invariant of one level on any risk matrix, with the clusters
    [done] already split and the clusters [todo] still to split: weights
    are non-negative and equal within a cluster, and the weights, each
    divided by the size of its cluster ([u] is that inverse size, 1 for
    an asset in no cluster), sum to one. *)
Definition mass_inv (ordered : list nat) (done todo : list (list nat))
    (g u : nat -> Qc) : Prop :=
  (forall k, (0 <= g k)%Qc) /\
  (forall c k k', In c (bisect done ++ todo) -> In k c -> In k' c ->
     g k = g k') /\
  (forall c k, In c (bisect done ++ todo) -> In k c ->
     u k = (1 / Qc_of_nat (length c))%Qc) /\
  (forall k, In k ordered -> ~ In k (concat (bisect done ++ todo)) ->
     u k = 1%Qc) /\
  qsum (map (fun k => (g k * u k)%Qc) ordered) = 1%Qc.

(** ** Reading the returned table *)

(** The cell the post-processing writes for the normalized weight [q]:
    the string ['nan'] in place of a zero. *)
Definition mark (q : Qc) : cell :=
  if Qc_eq_bool q 0%Qc then CellStr "nan" else CellNum q.

(** The number a cell holds; a cell that holds no number counts for 0. *)
Definition cell_weight (c : cell) : Qc :=
  match c with
  | CellNum q => q
  | CellNaN | CellStr _ => 0%Qc
  end.

(** The value of the label [name] in a Series, 0 when it has none. *)
Definition weight_of (Portifolio : series string) (name : string) : Qc :=
  match assoc name Portifolio with
  | Some v => v
  | None => 0%Qc
  end.

(** ** Reading a risk matrix *)

(** [m[i][j]], 0 where the matrix has no such entry. *)
Definition entry (m : matrix) (i j : nat) : Qc :=
  match m !! i with
  | Some r => match r !! j with
              | Some x => x
              | None => 0%Qc
              end
  | None => 0%Qc
  end.

(** An [n] by [n] matrix. *)
Definition square (n : nat) (m : matrix) : Prop :=
  length m = n /\ Forall (fun r => length r = n) m.

(** The matrix [c * m]. *)
Definition scale_matrix (c : Qc) (m : matrix) : matrix :=
  map (map (fun x => (c * x)%Qc)) m.

(** The outcome [m] with [f] applied to its value. *)
Definition omap {A B : Type} (f : A -> B) (m : outcome A) : outcome B :=
  match m with
  | Ok a => Ok (f a)
  | Raise e => Raise e
  | NonFinite => NonFinite
  | OutOfFuel => OutOfFuel
  end.

(** [below cluster num_assets k j]: node [j] lies in the subtree of
    node [k]. *)
Inductive below (cluster : list merge) (num_assets : nat) : nat -> nat -> Prop :=
  | below_self k : below cluster num_assets k k
  | below_left k row j :
      num_assets <= k -> cluster !! (k - num_assets) = Some row ->
      below cluster num_assets (left_child row) j ->
      below cluster num_assets k j
  | below_right k row j :
      num_assets <= k -> cluster !! (k - num_assets) = Some row ->
      below cluster num_assets (right_child row) j ->
      below cluster num_assets k j.

(** * Properties *)

(** ** Construction *)

Lemma str_in_In (s : string) (l : list string) :
  str_in s l = true <-> In s l.
Proof.
  induction l as [|x l IH]; simpl.
  - split; [discriminate | tauto].
  - destruct (String.eqb s x) eqn:E.
    + apply String.eqb_eq in E. subst. tauto.
    + apply String.eqb_neq in E. rewrite IH. split; [tauto|].
      intros [H|H]; [congruence | exact H].
Qed.

Lemma init_cases (rm m : string) :
  (str_in (lower rm) risk_metric_names = false /\
   __init__ rm m = Raise (ValueError risk_metrics_msg)) \/
  (str_in (lower rm) risk_metric_names = true /\
   str_in (lower m) method_names = false /\
   __init__ rm m = Raise (ValueError method_msg)) \/
  (str_in (lower rm) risk_metric_names = true /\
   str_in (lower m) method_names = true /\
   __init__ rm m =
     Ok (<["_Method" := PyStr (lower m)]>
           (<["_RiskMetrics" := PyStr (lower rm)]>
              (<["clusters" := PyNone]> ∅)))).
Proof.
  unfold __init__.
  destruct (str_in (lower rm) risk_metric_names) eqn:Hr; cbn [negb].
  - destruct (str_in (lower m) method_names) eqn:Hm; cbn [negb]; right;
      [right | left]; auto.
  - left; auto.
Qed.

(** C7, as the code has it: construction succeeds exactly when the
    lower-cased risk-metric name is one of variance, semivariance,
    shrinkage, letoidwolf, oas and the lower-cased linkage-method name is
    one of ward, single, average, complete, median, weighted, centroid;
    otherwise, and only then, it raises [ValueError], and nothing else can
    happen. *)
Theorem init_accepts_iff (rm m : string) :
  (is_ok (__init__ rm m) <->
     In (lower rm) ["variance"; "semivariance"; "shrinkage"; "letoidwolf"; "oas"] /\
     In (lower m) ["ward"; "single"; "average"; "complete"; "median";
                   "weighted"; "centroid"]) /\
  ((exists msg, __init__ rm m = Raise (ValueError msg)) <->
     ~ (In (lower rm) ["variance"; "semivariance"; "shrinkage"; "letoidwolf"; "oas"] /\
        In (lower m) ["ward"; "single"; "average"; "complete"; "median";
                      "weighted"; "centroid"])).
Proof.
  change ["variance"; "semivariance"; "shrinkage"; "letoidwolf"; "oas"]
    with risk_metric_names.
  change ["ward"; "single"; "average"; "complete"; "median"; "weighted"; "centroid"]
    with method_names.
  rewrite <- !str_in_In.
  destruct (init_cases rm m) as [[Hr E]|[[Hr [Hm E]]|[Hr [Hm E]]]];
    rewrite E, Hr; try rewrite Hm; unfold is_ok.
  - split; split.
    + intros [a Ha]; discriminate.
    + intros [H _]; discriminate.
    + intros _ [H _]; discriminate.
    + intros _; eauto.
  - split; split.
    + intros [a Ha]; discriminate.
    + intros [_ H]; discriminate.
    + intros _ [_ H]; discriminate.
    + intros _; eauto.
  - split; split.
    + tauto.
    + intros _; eauto.
    + intros [msg Hmsg]; discriminate.
    + tauto.
Qed.

(** C7, as the spec words it, fails: the listed name shrinkage-LedoitWolf
    is refused, and the unlisted name oas is accepted. *)
Lemma init_refuses_listed_name :
  In "shrinkage-LedoitWolf"
     ["variance"; "semivariance"; "shrinkage"; "shrinkage-LedoitWolf"; "shrinkage-OAS"] /\
  __init__ "shrinkage-LedoitWolf" "single" = Raise (ValueError risk_metrics_msg) /\
  ~ In "oas"
     ["variance"; "semivariance"; "shrinkage"; "shrinkage-LedoitWolf"; "shrinkage-OAS"] /\
  is_ok (__init__ "oas" "single").
Proof.
  split; [simpl; tauto|].
  split; [reflexivity|].
  split.
  - simpl. intros H. repeat (destruct H as [H|H]; [discriminate|]). exact H.
  - eexists. reflexivity.
Qed.

(** ** [plot] after [optimize] *)

Section PlotAfterOptimize.

Context (ext : collaborators).

Lemma init_attributes (rm m : string) (self : instance) :
  __init__ rm m = Ok self ->
  self !! "asset_names" = None /\ self !! "clusters" = Some PyNone.
Proof.
  intros H.
  destruct (init_cases rm m) as [[_ E]|[[_ [_ E]]|[_ [_ E]]]];
    rewrite E in H; try discriminate.
  injection H as <-. split; reflexivity.
Qed.

(** No assignment in [optimize] creates the attribute [asset_names]: the
    only attribute it writes is [clusters]. *)
Lemma optimize_writes_clusters_only (fuel : nat) (self : instance)
    (AssetPrices : pyarg (frame ext)) (name : string) :
  name <> "clusters" ->
  fst (optimize ext fuel self AssetPrices) !! name = self !! name.
Proof.
  intros Hne. unfold optimize.
  destruct (check_asset_prices AssetPrices); try reflexivity.
  destruct AssetPrices; try reflexivity.
  destruct (estimate_and_cluster _ _ _) as [[rm cl]| | |]; try reflexivity.
  simpl. apply lookup_insert_ne. congruence.
Qed.

(** A call that returns a table has stored the linkage matrix. *)
Lemma optimize_ok_stores_linkage (fuel : nat) (self self' : instance)
    (AssetPrices : pyarg (frame ext)) (t : table) :
  optimize ext fuel self AssetPrices = (self', Ok t) ->
  exists rows, self' !! "clusters" = Some (PyLinkage rows).
Proof.
  unfold optimize.
  destruct (check_asset_prices AssetPrices); try discriminate.
  destruct AssetPrices; try discriminate.
  destruct (estimate_and_cluster _ _ _) as [[rm cl]| | |]; try discriminate.
  intros H. injection H as <- _. exists cl. apply lookup_insert_eq.
Qed.

(** Once a linkage matrix is stored, [optimize] can only replace it by
    another one. *)
Lemma optimize_keeps_linkage (fuel : nat) (self : instance)
    (AssetPrices : pyarg (frame ext)) :
  (exists rows, self !! "clusters" = Some (PyLinkage rows)) ->
  exists rows,
    fst (optimize ext fuel self AssetPrices) !! "clusters" = Some (PyLinkage rows).
Proof.
  intros H. unfold optimize.
  destruct (check_asset_prices AssetPrices); try exact H.
  destruct AssetPrices; try exact H.
  destruct (estimate_and_cluster _ _ _) as [[rm cl]| | |]; try exact H.
  exists cl. apply lookup_insert_eq.
Qed.

Lemma calls_keep_no_asset_names (self self' : instance) :
  calls ext self self' ->
  self !! "asset_names" = None -> self' !! "asset_names" = None.
Proof.
  induction 1 as [|s mid s' _ IH Hc]; intros H0; [exact H0|].
  destruct Hc as [fuel0 s4 a0|s4].
  - rewrite optimize_writes_clusters_only by discriminate. auto.
  - auto.
Qed.

Lemma calls_keep_linkage (self self' : instance) :
  calls ext self self' ->
  (exists rows, self !! "clusters" = Some (PyLinkage rows)) ->
  exists rows, self' !! "clusters" = Some (PyLinkage rows).
Proof.
  induction 1 as [|s mid s' _ IH Hc]; intros H0; [exact H0|].
  destruct Hc as [fuel0 s4 a0|s4].
  - apply optimize_keeps_linkage. auto.
  - auto.
Qed.

(** With a linkage matrix stored and no attribute [asset_names], [plot]
    creates the figure and then stops on the attribute error, before
    [dendrogram] is called. *)
Lemma plot_without_asset_names (self : instance) :
  (exists rows, self !! "clusters" = Some (PyLinkage rows)) ->
  self !! "asset_names" = None ->
  plot self = ([EvFigure; EvAddSubplot; EvSetTitle],
               Raise (AttributeError "asset_names")).
Proof.
  intros [rows Hc] Hn. unfold plot, getattr. rewrite Hc, Hn. reflexivity.
Qed.

(** C9: on an instance built by [__init__] and used through [optimize]
    and [plot] only, every [plot] after a successful [optimize] raises
    [AttributeError] on [asset_names]; the figure exists by then, the
    dendrogram is not drawn and nothing is shown. *)
Theorem plot_fails_after_optimize
    (rm m : string) (fuel : nat) (AssetPrices : pyarg (frame ext))
    (s0 s1 s2 s3 : instance) (t : table) :
  __init__ rm m = Ok s0 ->
  calls ext s0 s1 ->
  optimize ext fuel s1 AssetPrices = (s2, Ok t) ->
  calls ext s2 s3 ->
  plot s3 = ([EvFigure; EvAddSubplot; EvSetTitle],
             Raise (AttributeError "asset_names")).
Proof.
  intros Hinit H01 Hopt H23.
  apply plot_without_asset_names.
  - eapply calls_keep_linkage; [exact H23|].
    eapply optimize_ok_stores_linkage; exact Hopt.
  - eapply calls_keep_no_asset_names; [exact H23|].
    replace s2 with (fst (optimize ext fuel s1 AssetPrices)) by (rewrite Hopt; reflexivity).
    rewrite optimize_writes_clusters_only by discriminate.
    eapply calls_keep_no_asset_names; [exact H01|].
    apply (init_attributes rm m). exact Hinit.
Qed.

End PlotAfterOptimize.

(** ** The quasi-diagonal order is a permutation *)

Section QuasiDiag.

Variable num_assets : nat.
Variable cluster : list merge.
Hypothesis well_formed : well_formed_tree num_assets cluster.

Lemma expands_leaf (k : nat) :
  k < num_assets -> expands cluster num_assets k [k].
Proof using Type.
  intros Hk fuel Hf. destruct fuel as [|fuel]; [lia|]. simpl.
  apply Nat.ltb_lt in Hk. rewrite Hk. reflexivity.
Qed.

Lemma row_children_below (k : nat) (row : merge) :
  num_assets <= k -> cluster !! (k - num_assets) = Some row ->
  left_child row < k /\ right_child row < k.
Proof using well_formed.
  intros Hk Hrow. destruct well_formed as (_ & Hlt & _).
  specialize (Hlt _ _ Hrow). lia.
Qed.

Lemma expands_node (k : nat) (row : merge) (l r : list nat) :
  num_assets <= k -> cluster !! (k - num_assets) = Some row ->
  expands cluster num_assets (left_child row) l ->
  expands cluster num_assets (right_child row) r ->
  expands cluster num_assets k (l ++ r).
Proof using well_formed.
  intros Hk Hrow Hl Hr fuel Hf.
  destruct (row_children_below k row Hk Hrow) as [Hlk Hrk].
  destruct fuel as [|fuel]; [lia|]. simpl.
  assert (E : (k <? num_assets) = false) by (apply Nat.ltb_ge; lia).
  rewrite E, Hrow. rewrite Hl by lia. rewrite Hr by lia. reflexivity.
Qed.

Lemma expands_total (k : nat) :
  k < num_assets + length cluster -> exists l, expands cluster num_assets k l.
Proof using well_formed.
  induction k as [k IH] using lt_wf_ind. intros Hk.
  destruct (Nat.lt_ge_cases k num_assets) as [Hlt|Hge].
  - exists [k]. apply expands_leaf. exact Hlt.
  - destruct (lookup_lt_is_Some_2 cluster (k - num_assets)) as [row Hrow];
      [lia|].
    destruct (row_children_below k row Hge Hrow) as [Hlk Hrk].
    destruct (IH _ Hlk) as [l Hl]; [lia|].
    destruct (IH _ Hrk) as [r Hr]; [lia|].
    exists (l ++ r). eapply expands_node; eauto.
Qed.

Lemma expands_expand (k : nat) (l : list nat) :
  expands cluster num_assets k l -> expand cluster num_assets k = l.
Proof using Type.
  intros H. unfold expand. rewrite (H (S k)) by lia. reflexivity.
Qed.

Lemma expand_leaf (k : nat) : k < num_assets -> expand cluster num_assets k = [k].
Proof using Type.
  intros Hk. apply expands_expand, expands_leaf, Hk.
Qed.

Lemma expand_node (i : nat) (row : merge) :
  cluster !! i = Some row ->
  expand cluster num_assets (num_assets + i) =
  expand cluster num_assets (left_child row) ++
  expand cluster num_assets (right_child row).
Proof using well_formed.
  intros Hrow.
  assert (Hrow' : cluster !! (num_assets + i - num_assets) = Some row)
    by (replace (num_assets + i - num_assets) with i by lia; exact Hrow).
  destruct (row_children_below (num_assets + i) row) as [Hlk Hrk];
    [lia|exact Hrow'|].
  pose proof (lookup_lt_Some _ _ _ Hrow) as Hi.
  destruct (expands_total (left_child row)) as [l Hl]; [lia|].
  destruct (expands_total (right_child row)) as [r Hr]; [lia|].
  rewrite (expands_expand _ _ Hl), (expands_expand _ _ Hr).
  apply expands_expand. eapply expands_node; eauto. lia.
Qed.

Lemma flat_map_expand_leaves (l : list nat) :
  (forall k, In k l -> k < num_assets) ->
  flat_map (expand cluster num_assets) l = l.
Proof using Type.
  induction l as [|k l IH]; intros H; [reflexivity|].
  simpl. rewrite expand_leaf by (apply H; left; reflexivity).
  simpl. f_equal. apply IH. intros j Hj. apply H. right. exact Hj.
Qed.

Lemma children_app (a b : list merge) :
  children (a ++ b) = children a ++ children b.
Proof using Type. apply flat_map_app. Qed.

Lemma children_take_below (i k : nat) :
  In k (children (take i cluster)) -> S k < num_assets + i.
Proof using well_formed.
  destruct well_formed as (_ & Hlt & _).
  unfold children. rewrite in_flat_map. intros (row & Hin & Hk).
  apply list_elem_of_In, list_elem_of_lookup in Hin. destruct Hin as [j Hj].
  pose proof (lookup_lt_Some _ _ _ Hj) as Hlen. rewrite length_take in Hlen.
  rewrite lookup_take_lt in Hj by lia.
  specialize (Hlt _ _ Hj). simpl in Hk.
  destruct Hk as [<-|[<-|[]]]; lia.
Qed.

(** The rows seen so far always leave a forest whose trees, expanded one
    after the other, list every leaf once. *)
Lemma forest_invariant (i : nat) :
  i <= length cluster ->
  exists roots : list nat,
    NoDup roots /\
    (forall k, In k roots <-> is_root cluster num_assets i k) /\
    Permutation (flat_map (expand cluster num_assets) roots) (seq 0 num_assets).
Proof using well_formed.
  induction i as [|i IH]; intros Hi.
  - exists (seq 0 num_assets). split; [apply seq_NoDup|]. split.
    + intros k. unfold is_root. rewrite in_seq, take_0. simpl. lia.
    + rewrite flat_map_expand_leaves; [reflexivity|].
      intros k Hk. apply in_seq in Hk. lia.
  - destruct IH as (roots & Hnd & Hmem & Hperm); [lia|].
    destruct (lookup_lt_is_Some_2 cluster i) as [row Hrow]; [lia|].
    pose proof (take_S_r _ _ _ Hrow) as Htake.
    assert (Hch : children (take (S i) cluster) =
                  children (take i cluster) ++ [left_child row; right_child row]).
    { rewrite Htake, children_app. simpl. reflexivity. }
    assert (Hnd' : NoDup (children (take (S i) cluster))).
    { destruct well_formed as (_ & _ & Hn).
      rewrite <- (take_drop (S i) cluster), children_app in Hn.
      apply NoDup_app_remove_r in Hn. exact Hn. }
    rewrite Hch in Hnd'.
    set (l := left_child row) in *. set (r := right_child row) in *.
    assert (Hl : ~ In l (children (take i cluster))).
    { intros Hin. apply NoDup_remove_2 in Hnd'. apply Hnd'.
      rewrite in_app_iff. left. exact Hin. }
    pose proof Hnd' as Hnd2.
    replace (children (take i cluster) ++ [l; r])
      with ((children (take i cluster) ++ [l]) ++ [r]) in Hnd2
      by (rewrite <- app_assoc; reflexivity).
    rewrite <- (app_nil_r ((children (take i cluster) ++ [l]) ++ [r])) in Hnd2.
    rewrite <- app_assoc in Hnd2. simpl in Hnd2.
    apply NoDup_remove_2 in Hnd2. rewrite app_nil_r in Hnd2.
    assert (Hr : ~ In r (children (take i cluster)) /\ l <> r).
    { split.
      - intros Hin. apply Hnd2. rewrite in_app_iff. left. exact Hin.
      - intros ->. apply Hnd2. rewrite in_app_iff. right. left. reflexivity. }
    destruct Hr as [Hr Hlr].
    destruct well_formed as (_ & Hlt & _).
    destruct (Hlt _ _ Hrow) as [Hlb Hrb]. fold l in Hlb. fold r in Hrb.
    assert (Hlin : In l roots) by (apply Hmem; split; assumption).
    assert (Hrin : In r roots) by (apply Hmem; split; assumption).
    set (rest := filter (fun k => negb (k =? l) && negb (k =? r)) roots).
    assert (Hrest : forall k, In k rest <-> In k roots /\ k <> l /\ k <> r).
    { intros k. unfold rest. rewrite filter_In, andb_true_iff, !negb_true_iff,
        !Nat.eqb_neq. tauto. }
    assert (Hndrest : NoDup rest) by (apply NoDup_filter; exact Hnd).
    assert (Hsplit : Permutation roots (l :: r :: rest)).
    { apply NoDup_Permutation; [exact Hnd| |].
      - constructor; [|constructor; [|exact Hndrest]].
        + simpl. rewrite Hrest. intros [H|H]; [congruence|tauto].
        + rewrite Hrest. tauto.
      - intros k. simpl. rewrite Hrest.
        destruct (Nat.eq_dec k l), (Nat.eq_dec k r); subst; try tauto.
        split; [tauto|]. intros [H|[H|H]]; try congruence; tauto. }
    exists ((num_assets + i) :: rest). split; [|split].
    + constructor; [|exact Hndrest].
      rewrite Hrest, Hmem. unfold is_root. lia.
    + intros k. unfold is_root. simpl. rewrite Hrest, Hmem, Hch, in_app_iff.
      unfold is_root. simpl. split.
      * intros [<-|H].
        -- split; [lia|]. intros [Hin|[E|[E|[]]]]; try lia.
           apply children_take_below in Hin. lia.
        -- split; [lia|]. intros [Hin|[E|[E|[]]]]; try tauto;
             symmetry in E; tauto.
      * intros [Hk Hnot].
        destruct (Nat.eq_dec k (num_assets + i)) as [->|Hne]; [left; reflexivity|].
        right. split; [split; [lia|tauto]|]. split; intros ->; tauto.
    + simpl. rewrite (expand_node i row Hrow). fold l r.
      rewrite <- Hperm, Hsplit. simpl. rewrite app_assoc. reflexivity.
Qed.

Lemma children_cover :
  forall k, k < 2 * length cluster -> In k (children cluster).
Proof using well_formed.
  destruct well_formed as (Hlen & _ & Hn).
  assert (Hcl : length (children cluster) = 2 * length cluster).
  { unfold children. clear. induction cluster as [|x l IH]; simpl; lia. }
  assert (Hincl : incl (seq 0 (2 * length cluster)) (children cluster)).
  { apply NoDup_length_incl; [exact Hn| |].
    - rewrite length_seq. lia.
    - intros k Hk. apply in_seq.
      rewrite <- (firstn_all cluster) in Hk.
      apply children_take_below in Hk. lia. }
  intros k Hk. apply Hincl, in_seq. lia.
Qed.

Lemma root_expands_to_permutation :
  1 <= num_assets ->
  Permutation (expand cluster num_assets (2 * num_assets - 2)) (seq 0 num_assets).
Proof using well_formed.
  intros Hn.
  destruct (forest_invariant (length cluster)) as (roots & Hnd & Hmem & Hperm);
    [lia|].
  pose proof well_formed as (Hlen & _ & _).
  assert (Hroots : Permutation roots [2 * num_assets - 2]).
  { apply NoDup_Permutation; [exact Hnd|repeat constructor; simpl; tauto|].
    intros k. rewrite Hmem. unfold is_root. rewrite firstn_all. simpl. split.
    - intros [Hk Hnot].
      destruct (Nat.lt_ge_cases k (2 * length cluster)) as [Hlt|Hge].
      + exfalso. apply Hnot, children_cover, Hlt.
      + left. lia.
    - intros [<-|[]]. split; [lia|].
      intros Hin. rewrite <- (firstn_all cluster) in Hin.
      apply children_take_below in Hin. lia. }
  rewrite <- Hperm, Hroots. simpl. rewrite app_nil_r. reflexivity.
Qed.

End QuasiDiag.

Lemma quasi_diag_root (num_assets : nat) (cluster : list merge) (fuel : nat) :
  1 <= num_assets ->
  well_formed_tree num_assets cluster ->
  2 * num_assets - 2 < fuel ->
  exists order,
    _getQuasiDiag fuel cluster num_assets (2 * num_assets - 2) = Ok order /\
    Permutation order (seq 0 num_assets).
Proof.
  intros Hn Hwf Hfuel.
  pose proof Hwf as (Hlen & _ & _).
  destruct (expands_total num_assets cluster Hwf (2 * num_assets - 2))
    as [order Hex]; [lia|].
  pose proof (root_expands_to_permutation num_assets cluster Hwf Hn) as Hperm.
  rewrite (expands_expand _ _ _ _ Hex) in Hperm.
  exists order. split; [apply Hex; exact Hfuel|exact Hperm].
Qed.

(** C2: on a well-formed merge tree over [N >= 2] leaves, [_getQuasiDiag]
    called on the root [2N - 2] (with fuel enough to reach the leaves)
    returns a list that is a permutation of [0 .. N-1]: its length is [N],
    it has no repetition, and it holds every index below [N] once. *)
Theorem getQuasiDiag_permutation (num_assets : nat) (cluster : list merge)
    (fuel : nat) :
  2 <= num_assets ->
  well_formed_tree num_assets cluster ->
  2 * num_assets - 2 < fuel ->
  exists order,
    _getQuasiDiag fuel cluster num_assets (2 * num_assets - 2) = Ok order /\
    Permutation order (seq 0 num_assets) /\
    length order = num_assets /\
    NoDup order /\
    (forall i, i < num_assets -> count_occ Nat.eq_dec order i = 1).
Proof.
  intros Hn Hwf Hfuel.
  destruct (quasi_diag_root num_assets cluster fuel) as (order & Hrun & Hperm);
    [lia|exact Hwf|exact Hfuel|].
  exists order. split; [exact Hrun|]. split; [exact Hperm|].
  split; [rewrite (Permutation_length Hperm); apply length_seq|].
  assert (Hnd : NoDup order).
  { eapply Permutation_NoDup; [symmetry; exact Hperm|apply seq_NoDup]. }
  split; [exact Hnd|].
  intros i Hi. apply NoDup_count_occ'; [exact Hnd|].
  eapply Permutation_in; [symmetry; exact Hperm|]. apply in_seq. lia.
Qed.

(** ** The bisection step *)

Lemma slice_left {A : Type} (l : list A) (mid : nat) :
  slice l 0 mid = firstn mid l.
Proof. unfold slice. rewrite Nat.sub_0_r. reflexivity. Qed.

Lemma slice_right {A : Type} (l : list A) (mid : nat) :
  slice l mid (length l) = skipn mid l.
Proof.
  unfold slice. apply firstn_all2. rewrite length_skipn. lia.
Qed.

(** [bisect] yields, for each cluster with more than one member and in
    the order of the clusters, its left half and then its right half. *)
Lemma bisect_cons (c : list nat) (cs : list (list nat)) :
  bisect (c :: cs) =
  (if 1 <? length c then [left_half c; right_half c] else []) ++ bisect cs.
Proof.
  change (bisect (c :: cs))
    with (flat_map
            (fun se : nat * nat =>
               if 1 <? length c then [slice c (fst se) (snd se)] else [])
            [(0, length c / 2); (length c / 2, length c)] ++ bisect cs).
  f_equal. cbn [flat_map fst snd]. unfold left_half, right_half.
  destruct (1 <? length c); [|reflexivity].
  rewrite slice_left, slice_right. reflexivity.
Qed.

Lemma bisect_halves (clusters : list (list nat)) :
  bisect clusters =
  flat_map (fun c => [left_half c; right_half c]) (splittable clusters).
Proof.
  induction clusters as [|c cs IH]; [reflexivity|].
  rewrite bisect_cons, IH. unfold splittable. cbn [filter].
  destruct (1 <? length c); reflexivity.
Qed.

Lemma half_bounds (n : nat) :
  n / 2 <= n /\ (1 < n -> 1 <= n / 2 < n).
Proof.
  pose proof (Nat.div_mod_eq n 2) as H.
  pose proof (Nat.mod_upper_bound n 2) as H'. lia.
Qed.

Lemma halves_sizes (c : list nat) :
  length (left_half c) = length c / 2 /\
  length (right_half c) = length c - length c / 2.
Proof.
  unfold left_half, right_half. rewrite length_firstn, length_skipn.
  pose proof (half_bounds (length c)). lia.
Qed.

Lemma halves_nonempty (c : list nat) :
  1 < length c -> left_half c <> [] /\ right_half c <> [].
Proof.
  intros Hc. destruct (halves_sizes c) as [Hl Hr].
  pose proof (half_bounds (length c)) as [_ Hb]. specialize (Hb Hc).
  split; intros E; rewrite E in *; simpl in *; lia.
Qed.

Section Pairs.

Context {A : Type} (f g : list nat -> A).

Lemma pairs_length (l : list (list nat)) :
  length (flat_map (fun c => [f c; g c]) l) = 2 * length l.
Proof. induction l as [|c l IH]; simpl; lia. Qed.

Lemma pairs_lookup (l : list (list nat)) (j : nat) :
  flat_map (fun c => [f c; g c]) l !! (2 * j) = f <$> l !! j /\
  flat_map (fun c => [f c; g c]) l !! (2 * j + 1) = g <$> l !! j.
Proof.
  revert j. induction l as [|c l IH]; intros j.
  - split; reflexivity.
  - destruct j as [|j].
    + split; reflexivity.
    + replace (2 * S j) with (S (S (2 * j))) by lia.
      replace (S (S (2 * j)) + 1) with (S (S (2 * j + 1))) by lia.
      exact (IH j).
Qed.

End Pairs.

Lemma range_step2_even (m : nat) :
  range_step2 (2 * m) = map (fun i => 2 * i) (seq 0 m).
Proof.
  unfold range_step2. f_equal. f_equal.
  replace (2 * m + 1) with (S (2 * m)) by lia.
  rewrite Nat.div2_succ_double. reflexivity.
Qed.

Lemma splittable_size (clusters : list (list nat)) (c : list nat) :
  In c (splittable clusters) -> 1 < length c.
Proof.
  unfold splittable. rewrite filter_In. intros [_ H].
  apply Nat.ltb_lt in H. exact H.
Qed.

(** C10: whatever the clusters before a bisection step, the list the
    step produces has an even number of entries, none of them empty, and
    for every index [subcluster] that [range(0, len, 2)] yields both
    [clustered_alphas[subcluster]] and [clustered_alphas[subcluster + 1]]
    exist; they are the two halves of one parent, of sizes [len // 2 >= 1]
    and [len - len // 2 >= 1]. *)
Theorem bisect_pairs_in_bounds (clusters : list (list nat)) (subcluster : nat) :
  In subcluster (range_step2 (length (bisect clusters))) ->
  Nat.Even (length (bisect clusters)) /\
  Forall (fun c => c <> []) (bisect clusters) /\
  exists parent,
    1 < length parent /\
    bisect clusters !! subcluster = Some (left_half parent) /\
    bisect clusters !! (subcluster + 1) = Some (right_half parent) /\
    length (left_half parent) = length parent / 2 /\
    1 <= length parent / 2 /\
    length (right_half parent) = length parent - length parent / 2 /\
    1 <= length parent - length parent / 2.
Proof.
  rewrite bisect_halves, pairs_length, range_step2_even.
  intros Hin. apply in_map_iff in Hin. destruct Hin as (j & <- & Hj).
  apply in_seq in Hj.
  split; [exists (length (splittable clusters)); lia|].
  split.
  - apply Forall_forall. intros c Hc. apply in_flat_map in Hc.
    destruct Hc as (p & Hp & Hc). apply (splittable_size clusters) in Hp.
    destruct (halves_nonempty p Hp) as [Hl Hr].
    destruct Hc as [<-|[<-|[]]]; assumption.
  - destruct (lookup_lt_is_Some_2 (splittable clusters) j) as [p Hp]; [lia|].
    exists p.
    assert (Hsize : 1 < length p).
    { apply (splittable_size clusters). apply list_elem_of_In.
      eapply list_elem_of_lookup_2. exact Hp. }
    destruct (pairs_lookup left_half right_half (splittable clusters) j)
      as [El Er].
    rewrite El, Er, Hp.
    destruct (halves_sizes p) as [Hl Hr].
    pose proof (half_bounds (length p)) as [_ Hb]. specialize (Hb Hsize).
    repeat split; try reflexivity; try assumption; lia.
Qed.

(** ** One level of the recursive bisection *)

Lemma existsb_eqb_in (k : nat) (l : list nat) :
  existsb (Nat.eqb k) l = if in_dec Nat.eq_dec k l then true else false.
Proof.
  destruct (in_dec Nat.eq_dec k l) as [Hin|Hnin].
  - apply existsb_exists. exists k. split; [exact Hin|apply Nat.eqb_refl].
  - destruct (existsb (Nat.eqb k) l) eqn:E; [|reflexivity].
    apply existsb_exists in E. destruct E as (x & Hx & Ex).
    apply Nat.eqb_eq in Ex. subst x. contradiction.
Qed.

Lemma scale_multiply_members (weights : series nat) (members : list nat)
    (factor : Qc) :
  scale weights members factor = multiply_members weights members factor.
Proof.
  unfold scale, multiply_members. apply map_ext. intros [k v]. simpl.
  rewrite existsb_eqb_in. destruct (in_dec Nat.eq_dec k members); reflexivity.
Qed.

Section Level.

Context (ext : collaborators) (covariance : matrix).

Lemma pair_body_parent (parents : list (list nat)) (j : nat) (p : list nat)
    (weights : series nat) :
  parents !! j = Some p ->
  pair_body ext covariance
    (flat_map (fun c => [left_half c; right_half c]) parents) weights (2 * j) =
  split_and_allocate ext covariance weights p.
Proof.
  intros Hp. unfold pair_body, split_and_allocate, alloc_factor.
  destruct (pairs_lookup left_half right_half parents j) as [El Er].
  rewrite El, Er, Hp. cbn [fmap option_fmap option_map].
  destruct (_getClusterVar ext covariance (left_half p)) as [vl| | |];
    try reflexivity.
  destruct (_getClusterVar ext covariance (right_half p)) as [vr| | |];
    try reflexivity.
  cbn [bind].
  destruct (qdiv vl (vl + vr)) as [q| | |]; try reflexivity.
  cbn [bind]. rewrite !scale_multiply_members. reflexivity.
Qed.

Lemma pair_loop_from (done todo : list (list nat)) (weights : series nat) :
  foldM (pair_body ext covariance
           (flat_map (fun c => [left_half c; right_half c]) (done ++ todo)))
        (map (fun i => 2 * i) (seq (length done) (length todo))) weights =
  foldM (split_and_allocate ext covariance) todo weights.
Proof.
  revert done weights. induction todo as [|p todo IH]; intros done weights.
  - reflexivity.
  - cbn [length seq map foldM].
    rewrite (pair_body_parent (done ++ p :: todo) (length done) p).
    + destruct (split_and_allocate ext covariance weights p) as [w| | |];
        try reflexivity.
      cbn [bind]. specialize (IH (done ++ [p]) w).
      rewrite <- app_assoc in IH. cbn [app] in IH.
      rewrite length_app in IH. cbn [length] in IH.
      replace (length done + 1) with (S (length done)) in IH by lia.
      exact IH.
    + rewrite lookup_app_r by lia. rewrite Nat.sub_diag. reflexivity.
Qed.

Lemma pair_loop_splittable (clusters : list (list nat)) (weights : series nat) :
  pair_loop ext covariance (bisect clusters) weights =
  foldM (split_and_allocate ext covariance) (splittable clusters) weights.
Proof.
  unfold pair_loop. rewrite bisect_halves, pairs_length, range_step2_even.
  exact (pair_loop_from [] (splittable clusters) weights).
Qed.

End Level.

(** C3: at every level [_getRecBipart] replaces the clusters by the
    halves [[0, len // 2)] and [[len // 2, len)] of those with more than
    one member, in order, and its pairing loop is the fold, parent by
    parent, of: take the cluster variances of the two halves, let
    [a = 1 - var_left / (var_left + var_right)], multiply every weight of
    the left half by [a] and every weight of the right half by [1 - a]. *)
Theorem bisection_level_refines (ext : collaborators) (covariance : matrix)
    (fuel : nat) (cluster : list nat) (clusters : list (list nat))
    (weights : series nat) :
  bisect (cluster :: clusters) =
    flat_map (fun c => [left_half c; right_half c])
             (splittable (cluster :: clusters)) /\
  pair_loop ext covariance (bisect (cluster :: clusters)) weights =
    foldM (split_and_allocate ext covariance)
          (splittable (cluster :: clusters)) weights /\
  bipart_loop ext (S fuel) covariance (cluster :: clusters) weights =
    (do weights' <- foldM (split_and_allocate ext covariance)
                          (splittable (cluster :: clusters)) weights;
     bipart_loop ext fuel covariance
       (flat_map (fun c => [left_half c; right_half c])
                 (splittable (cluster :: clusters)))
       weights').
Proof.
  split; [apply bisect_halves|].
  split; [apply pair_loop_splittable|].
  cbn [bipart_loop]. rewrite pair_loop_splittable, bisect_halves. reflexivity.
Qed.

(** ** The allocation factor *)

Lemma qdiv_zero (x y : Qc) : y = 0%Qc -> qdiv x y = NonFinite.
Proof.
  intros ->. unfold qdiv.
  destruct (Qc_eq_bool 0 0) eqn:E; [reflexivity|].
  unfold Qc_eq_bool in E. destruct (Qc_eq_dec 0 0); congruence.
Qed.

Lemma qdiv_nonzero (x y : Qc) : y <> 0%Qc -> qdiv x y = Ok (x / y)%Qc.
Proof.
  intros H. unfold qdiv.
  destruct (Qc_eq_bool y 0) eqn:E; [|reflexivity].
  apply Qc_eq_bool_correct in E. contradiction.
Qed.

(** C5, as the code has it: the division of the allocation factor is not
    guarded; when [var_left + var_right] is exactly zero it divides by
    zero, the factor is no finite number (not 0.5), and the run of
    [_getRecBipart] is non-finite from there on. *)
Theorem alloc_factor_zero_denominator (var_left var_right : Qc) :
  (var_left + var_right)%Qc = 0%Qc ->
  alloc_factor var_left var_right = NonFinite /\
  forall a, alloc_factor var_left var_right <> Ok a.
Proof.
  intros H. unfold alloc_factor. rewrite qdiv_zero by exact H.
  split; [reflexivity|]. intros a. discriminate.
Qed.

Lemma alloc_factor_zero_denominator_witness :
  (0 + 0)%Qc = 0%Qc /\
  alloc_factor 0%Qc 0%Qc = NonFinite /\
  forall a, alloc_factor 0%Qc 0%Qc <> Ok a.
Proof.
  split; [reflexivity|].
  apply (alloc_factor_zero_denominator 0%Qc 0%Qc). reflexivity.
Defined.

(** C5, as the spec words it, fails: with both cluster variances zero
    the factor is not the equal split. *)
Lemma alloc_factor_zero_is_not_half :
  (0 + 0)%Qc = 0%Qc /\
  ~ (exists a, alloc_factor 0%Qc 0%Qc = Ok a /\ a = Q2Qc (1 # 2)).
Proof.
  split; [reflexivity|]. intros (a & Ha & _). discriminate.
Qed.

(** ** Rational arithmetic *)

Lemma Qc_of_nat_S (n : nat) : Qc_of_nat (S n) = (Qc_of_nat n + 1)%Qc.
Proof.
  unfold Qc_of_nat. apply Qc_is_canon. simpl.
  rewrite !Qred_correct. rewrite Nat2Z.inj_succ. unfold Z.succ.
  rewrite inject_Z_plus. reflexivity.
Qed.

Lemma Qc_of_nat_add (a b : nat) :
  Qc_of_nat (a + b) = (Qc_of_nat a + Qc_of_nat b)%Qc.
Proof.
  induction a as [|a IH]; simpl.
  - change (Qc_of_nat 0) with 0%Qc. ring.
  - rewrite !Qc_of_nat_S, IH. ring.
Qed.

Lemma Qc_of_nat_pos (n : nat) : 0 < n -> (0 < Qc_of_nat n)%Qc.
Proof.
  intros H. unfold Qc_of_nat, Qclt. cbn [this Q2Qc].
  rewrite !Qred_correct.
  change 0%Q with (inject_Z 0). rewrite <- Zlt_Qlt. lia.
Qed.

Lemma Qclt_neq (x : Qc) : (0 < x)%Qc -> x <> 0%Qc.
Proof. intros H E. symmetry in E. exact (Qclt_not_eq _ _ H E). Qed.

Lemma Qc_of_nat_nonzero (n : nat) : 0 < n -> Qc_of_nat n <> 0%Qc.
Proof. intros H. apply Qclt_neq, Qc_of_nat_pos, H. Qed.

Lemma qsum_app (l l' : list Qc) : qsum (l ++ l') = (qsum l + qsum l')%Qc.
Proof.
  induction l as [|x l IH]; simpl; [ring|]. rewrite IH. ring.
Qed.

Lemma qsum_const {A : Type} (x : Qc) (l : list A) :
  qsum (map (fun _ => x) l) = (Qc_of_nat (length l) * x)%Qc.
Proof.
  induction l as [|a l IH]; cbn [map qsum fold_right length].
  - change (Qc_of_nat 0) with 0%Qc. ring.
  - fold (qsum (map (fun _ : A => x) l)). rewrite IH, Qc_of_nat_S. ring.
Qed.

Lemma qsum_scale {A : Type} (f : A -> Qc) (c : Qc) (l : list A) :
  qsum (map (fun a => (f a * c)%Qc) l) = (qsum (map f l) * c)%Qc.
Proof.
  induction l as [|a l IH]; cbn [map qsum fold_right]; [ring|].
  fold (qsum (map (fun a => (f a * c)%Qc) l)). fold (qsum (map f l)).
  rewrite IH. ring.
Qed.

Lemma qsum_delta_absent (i : nat) (v : Qc) (l : list nat) :
  ~ In i l -> qsum (map (fun j => if i =? j then v else 0%Qc) l) = 0%Qc.
Proof.
  induction l as [|j l IH]; intros H; [reflexivity|].
  cbn [map qsum fold_right].
  fold (qsum (map (fun j => if i =? j then v else 0%Qc) l)).
  rewrite IH by (intros Hin; apply H; right; exact Hin).
  destruct (Nat.eqb_spec i j) as [->|_]; [exfalso; apply H; left; reflexivity|].
  ring.
Qed.

Lemma qsum_delta_present (i : nat) (v : Qc) (l : list nat) :
  NoDup l -> In i l ->
  qsum (map (fun j => if i =? j then v else 0%Qc) l) = v.
Proof.
  induction 1 as [|j l Hj Hnd IH]; intros Hin; [destruct Hin|].
  cbn [map qsum fold_right].
  fold (qsum (map (fun j => if i =? j then v else 0%Qc) l)).
  destruct (Nat.eqb_spec i j) as [->|Hne].
  - rewrite qsum_delta_absent by exact Hj. ring.
  - destruct Hin as [E|Hin]; [congruence|]. rewrite IH by exact Hin. ring.
Qed.

Lemma dot_maps {A : Type} (f g : A -> Qc) (l : list A) :
  dot (map f l) (map g l) = qsum (map (fun a => (f a * g a)%Qc) l).
Proof.
  unfold dot. f_equal. induction l as [|a l IH]; [reflexivity|].
  cbn [map combine fst snd]. rewrite IH. reflexivity.
Qed.

Lemma mapM_ok {A B : Type} (f : A -> outcome B) (g : A -> B) (l : list A) :
  (forall a, In a l -> f a = Ok (g a)) -> mapM f l = Ok (map g l).
Proof.
  induction l as [|a l IH]; intros H; [reflexivity|].
  cbn [mapM map]. rewrite (H a) by (left; reflexivity). cbn [bind].
  rewrite IH by (intros b Hb; apply H; right; exact Hb). reflexivity.
Qed.

(** ** Cluster variance on uncorrelated assets of equal variance *)

Section EqualVariance.

Context (ext : collaborators) (n : nat) (v : Qc).
Hypothesis quadratic : uses_quadratic_form ext.
Hypothesis v_nonzero : v <> 0%Qc.

Lemma equal_variance_row (i : nat) :
  i < n -> equal_variance_matrix n v !! i = Some (map (delta v i) (seq 0 n)).
Proof using Type.
  intros Hi. unfold equal_variance_matrix.
  rewrite list_lookup_fmap, lookup_seq_lt by exact Hi. reflexivity.
Qed.

Lemma iloc_equal_variance (idx : list nat) :
  (forall k, In k idx -> k < n) ->
  iloc (equal_variance_matrix n v) idx idx =
  Ok (map (fun i => map (delta v i) idx) idx).
Proof using Type.
  intros Hb. unfold iloc. apply mapM_ok. intros i Hi.
  rewrite equal_variance_row by (apply Hb, Hi).
  apply mapM_ok. intros j Hj.
  rewrite list_lookup_fmap, lookup_seq_lt by (apply Hb, Hj). reflexivity.
Qed.

Lemma np_diag_from_delta (done todo : list nat) :
  np_diag_from (length done)
    (map (fun i => map (delta v i) (done ++ todo)) todo) =
  map (fun _ => v) todo.
Proof using Type.
  assert (G : forall todo' done' all,
             all = done' ++ todo' ->
             np_diag_from (length done')
               (map (fun i => map (delta v i) all) todo') =
             map (fun _ => v) todo').
  { clear. induction todo' as [|i todo' IH]; intros done' all E;
      [reflexivity|].
    cbn [map np_diag_from].
    assert (Hi : map (delta v i) all !! length done' = Some v).
    { rewrite list_lookup_fmap, E, lookup_app_r by lia.
      rewrite Nat.sub_diag. cbn. unfold delta. rewrite Nat.eqb_refl.
      reflexivity. }
    rewrite Hi. f_equal.
    specialize (IH (done' ++ [i]) all).
    rewrite length_app in IH. cbn [length] in IH.
    replace (length done' + 1) with (S (length done')) in IH by lia.
    apply IH. rewrite <- app_assoc. exact E. }
  apply G. reflexivity.
Qed.

(** The inverse-variance weights of [k] such assets are all [1/k]. *)
Lemma ivp_equal_variance (idx : list nat) :
  idx <> [] ->
  _getIVP (map (fun i => map (delta v i) idx) idx) =
  Ok (map (fun _ => (1 / Qc_of_nat (length idx))%Qc) idx).
Proof using v_nonzero.
  intros Hne. unfold _getIVP, np_diag.
  pose proof (np_diag_from_delta [] idx) as Hd. cbn [length app] in Hd.
  rewrite Hd. clear Hd.
  rewrite (mapM_ok (qdiv 1) (fun x => (1 / x)%Qc))
    by (intros a Ha; apply in_map_iff in Ha; destruct Ha as (_ & <- & _);
        apply qdiv_nonzero, v_nonzero).
  cbn [bind]. rewrite !map_map, qsum_const.
  assert (Hk : Qc_of_nat (length idx) <> 0%Qc).
  { apply Qc_of_nat_nonzero. destruct idx; [congruence|simpl; lia]. }
  rewrite qdiv_nonzero.
  - cbn [bind]. rewrite !map_map. f_equal. apply map_ext. intros _. field.
    split; assumption.
  - intros H. apply Qcmult_integral in H. destruct H as [H|H]; [tauto|].
    apply (f_equal (fun x => (x * v)%Qc)) in H.
    replace (1 / v * v)%Qc with 1%Qc in H by (field; exact v_nonzero).
    replace (0 * v)%Qc with 0%Qc in H by ring. discriminate.
Qed.

(** The cluster variance of [k] such assets is [v/k]. *)
Lemma cluster_variance_equal (idx : list nat) :
  idx <> [] -> NoDup idx -> (forall k, In k idx -> k < n) ->
  _getClusterVar ext (equal_variance_matrix n v) idx =
  Ok (v / Qc_of_nat (length idx))%Qc.
Proof using quadratic v_nonzero.
  intros Hne Hnd Hb. unfold _getClusterVar.
  rewrite iloc_equal_variance by exact Hb. cbn [bind].
  rewrite ivp_equal_variance by exact Hne. cbn [bind].
  rewrite quadratic. unfold quadratic_form. f_equal.
  set (c := (1 / Qc_of_nat (length idx))%Qc).
  set (w := map (fun _ : nat => c) idx).
  rewrite map_map.
  assert (E : map (fun i => dot (map (delta v i) idx) w) idx =
              map (fun _ => (v * c)%Qc) idx).
  { apply map_ext_in. intros i Hi. unfold w. rewrite dot_maps. cbn beta.
    rewrite qsum_scale. unfold delta.
    rewrite qsum_delta_present by assumption. reflexivity. }
  rewrite E. unfold w. rewrite dot_maps. cbn beta. rewrite qsum_const.
  assert (Hk : Qc_of_nat (length idx) <> 0%Qc).
  { apply Qc_of_nat_nonzero. destruct idx; [congruence|simpl; lia]. }
  unfold c. field. exact Hk.
Qed.

(** Between two such clusters the allocation factor is the share of the
    left one in their joint size. *)
Lemma alloc_factor_equal (k m : nat) :
  0 < k -> 0 < m ->
  alloc_factor (v / Qc_of_nat k)%Qc (v / Qc_of_nat m)%Qc =
  Ok (Qc_of_nat k / Qc_of_nat (k + m))%Qc.
Proof using v_nonzero.
  intros Hk Hm.
  pose proof (Qc_of_nat_nonzero k Hk) as Nk.
  pose proof (Qc_of_nat_nonzero m Hm) as Nm.
  assert (Nkm : Qc_of_nat (k + m) <> 0%Qc) by (apply Qc_of_nat_nonzero; lia).
  pose proof Nkm as Nkm'. rewrite Qc_of_nat_add in Nkm'.
  unfold alloc_factor. rewrite qdiv_nonzero.
  - cbn [bind]. f_equal. rewrite Qc_of_nat_add. field. repeat split; try assumption.
    intros H. apply Nkm'. 
    apply (f_equal (fun x => (x / v)%Qc)) in H.
    replace ((v * Qc_of_nat m + v * Qc_of_nat k) / v)%Qc
      with (Qc_of_nat k + Qc_of_nat m)%Qc in H by (field; exact v_nonzero).
    rewrite H. field. exact v_nonzero.
  - intros H.
    apply (f_equal (fun x => (x * (Qc_of_nat k * Qc_of_nat m) / v)%Qc)) in H.
    replace ((v / Qc_of_nat k + v / Qc_of_nat m) *
             (Qc_of_nat k * Qc_of_nat m) / v)%Qc
      with (Qc_of_nat k + Qc_of_nat m)%Qc in H
      by (field; repeat split; assumption).
    apply Nkm'. rewrite H. field. exact v_nonzero.
Qed.

End EqualVariance.

(** ** Clusters of a bisection *)

Lemma nodup_app_parts {A : Type} (l l' : list A) :
  NoDup (l ++ l') ->
  NoDup l /\ NoDup l' /\ (forall a, In a l -> ~ In a l').
Proof.
  induction l as [|x l IH]; cbn [app]; intros H.
  - split; [constructor|]. split; [exact H|]. intros a [].
  - inversion H as [|y m Hx Hnd]; subst.
    destruct (IH Hnd) as (Hl & Hl' & Hdis).
    split; [constructor; [|exact Hl]|split; [exact Hl'|]].
    + intros Hin. apply Hx. apply in_or_app. left. exact Hin.
    + intros a [<-|Ha]; [|apply Hdis, Ha].
      intros Hin. apply Hx. apply in_or_app. right. exact Hin.
Qed.

Lemma halves_join (c : list nat) : left_half c ++ right_half c = c.
Proof. apply firstn_skipn. Qed.

Lemma halves_total (c : list nat) :
  length (left_half c) + length (right_half c) = length c.
Proof. rewrite <- length_app, halves_join. reflexivity. Qed.

Lemma in_halves (c : list nat) (k : nat) :
  In k c <-> In k (left_half c) \/ In k (right_half c).
Proof. rewrite <- in_app_iff, halves_join. reflexivity. Qed.

Lemma halves_nodup (c : list nat) :
  NoDup c ->
  NoDup (left_half c) /\ NoDup (right_half c) /\
  (forall k, In k (left_half c) -> ~ In k (right_half c)).
Proof. intros H. apply nodup_app_parts. rewrite halves_join. exact H. Qed.

Lemma bisect_app (a b : list (list nat)) :
  bisect (a ++ b) = bisect a ++ bisect b.
Proof. unfold bisect. apply flat_map_app. Qed.

Lemma bisect_one (p : list nat) :
  bisect [p] = if 1 <? length p then [left_half p; right_half p] else [].
Proof. rewrite bisect_cons. apply app_nil_r. Qed.

Lemma in_bisect (clusters : list (list nat)) (c : list nat) :
  In c (bisect clusters) ->
  exists p, In p clusters /\ 1 < length p /\
            (c = left_half p \/ c = right_half p).
Proof.
  rewrite bisect_halves, in_flat_map. intros (p & Hp & Hc).
  exists p. split; [unfold splittable in Hp; apply filter_In in Hp; tauto|].
  split; [apply (splittable_size clusters), Hp|].
  destruct Hc as [<-|[<-|[]]]; tauto.
Qed.

Lemma in_bisect_concat (clusters : list (list nat)) (c : list nat) (k : nat) :
  In c (bisect clusters) -> In k c -> In k (concat clusters).
Proof.
  intros Hc Hk. apply in_bisect in Hc. destruct Hc as (p & Hp & _ & E).
  apply in_concat. exists p. split; [exact Hp|].
  apply in_halves. destruct E as [->| ->]; tauto.
Qed.

Lemma concat_bisect_nodup (clusters : list (list nat)) :
  NoDup (concat clusters) -> NoDup (concat (bisect clusters)).
Proof.
  induction clusters as [|c cs IH]; intros H; [constructor|].
  cbn [concat] in H. destruct (nodup_app_parts _ _ H) as (Hc & Hcs & Hdis).
  rewrite bisect_cons, concat_app.
  destruct (1 <? length c).
  - cbn [concat]. rewrite app_nil_r, halves_join.
    apply NoDup_app; [exact Hc|apply IH, Hcs|].
    intros k Hk Hin. apply (Hdis k Hk).
    apply in_concat in Hin. destruct Hin as (h & Hh & Hkh).
    eapply in_bisect_concat; eauto.
  - cbn [concat app]. apply IH, Hcs.
Qed.

(** ** The recursive bisection on equal variances *)

Lemma multiply_series_of (labels members : list nat) (f : nat -> Qc)
    (factor : Qc) :
  multiply_members (series_of labels f) members factor =
  series_of labels
    (fun k => if in_dec Nat.eq_dec k members then (f k * factor)%Qc else f k).
Proof.
  unfold multiply_members, series_of. rewrite map_map. reflexivity.
Qed.

Lemma ok_inj {A : Type} (a b : A) : Ok a = Ok b -> a = b.
Proof.
  intros H.
  exact (f_equal (fun m => match m with Ok x => x | _ => a end) H).
Qed.

Lemma Qcinv_zero : (/ 0)%Qc = 0%Qc.
Proof. apply Qc_is_canon. reflexivity. Qed.

Lemma share_same (k : nat) : 0 < k -> share k k = 1%Qc.
Proof.
  intros H. unfold share. field. apply Qc_of_nat_nonzero, H.
Qed.

Lemma after_split_outside (p : list nat) (f : nat -> Qc) (k : nat) :
  ~ In k p -> after_split p f k = f k.
Proof.
  intros H. unfold after_split.
  destruct (in_dec Nat.eq_dec k (right_half p)) as [Hin|_];
    [exfalso; apply H, in_halves; tauto|].
  destruct (in_dec Nat.eq_dec k (left_half p)) as [Hin|_];
    [exfalso; apply H, in_halves; tauto|].
  reflexivity.
Qed.

Lemma after_split_left (p : list nat) (f : nat -> Qc) (k : nat) (total : nat) :
  1 < length p -> NoDup p -> In k (left_half p) ->
  f k = share (length p) total ->
  after_split p f k = share (length (left_half p)) total.
Proof.
  intros Hsize Hnd Hk Hf.
  destruct (halves_nodup p Hnd) as (_ & _ & Hdis).
  unfold after_split.
  destruct (in_dec Nat.eq_dec k (right_half p)) as [Hin|_];
    [exfalso; exact (Hdis k Hk Hin)|].
  destruct (in_dec Nat.eq_dec k (left_half p)) as [_|Hnin]; [|contradiction].
  rewrite Hf. unfold share.
  destruct total as [|total].
  - change (Qc_of_nat 0) with 0%Qc. unfold Qcdiv. rewrite !Qcinv_zero. ring.
  - field. split; apply Qc_of_nat_nonzero; lia.
Qed.

Lemma after_split_right (p : list nat) (f : nat -> Qc) (k : nat) (total : nat) :
  1 < length p -> NoDup p -> In k (right_half p) ->
  f k = share (length p) total ->
  after_split p f k = share (length (right_half p)) total.
Proof.
  intros Hsize Hnd Hk Hf.
  destruct (halves_nodup p Hnd) as (_ & _ & Hdis).
  unfold after_split.
  destruct (in_dec Nat.eq_dec k (right_half p)) as [_|Hnin]; [|contradiction].
  destruct (in_dec Nat.eq_dec k (left_half p)) as [Hin|_];
    [exfalso; exact (Hdis k Hin Hk)|].
  rewrite Hf. unfold share.
  rewrite <- (halves_total p). rewrite Qc_of_nat_add.
  assert (Np : (Qc_of_nat (length (left_half p)) +
                Qc_of_nat (length (right_half p)))%Qc <> 0%Qc).
  { rewrite <- Qc_of_nat_add, halves_total. apply Qc_of_nat_nonzero. lia. }
  destruct total as [|total].
  - change (Qc_of_nat 0) with 0%Qc. unfold Qcdiv. rewrite !Qcinv_zero. ring.
  - field. split; [apply Qc_of_nat_nonzero; lia|exact Np].
Qed.

Section EqualVarianceLoop.

Context (ext : collaborators) (n : nat) (v : Qc) (ordered : list nat).
Hypothesis quadratic : uses_quadratic_form ext.
Hypothesis v_nonzero : v <> 0%Qc.

(** Splitting one parent: both cluster variances are defined, the factor
    is the share of the left half, and the weights are updated by it. *)
Lemma split_and_allocate_equal (p : list nat) (f : nat -> Qc) :
  1 < length p -> NoDup p -> (forall k, In k p -> k < n) ->
  split_and_allocate ext (equal_variance_matrix n v) (series_of ordered f) p =
  Ok (series_of ordered (after_split p f)).
Proof using quadratic v_nonzero.
  intros Hsize Hnd Hb.
  destruct (halves_nonempty p Hsize) as [Nl Nr].
  destruct (halves_nodup p Hnd) as (Dl & Dr & _).
  unfold split_and_allocate.
  rewrite (cluster_variance_equal ext n v quadratic v_nonzero (left_half p))
    by (try assumption; intros k Hk; apply Hb, in_halves; tauto).
  rewrite (cluster_variance_equal ext n v quadratic v_nonzero (right_half p))
    by (try assumption; intros k Hk; apply Hb, in_halves; tauto).
  cbn [bind].
  assert (Hl : 0 < length (left_half p))
    by (destruct (left_half p); [congruence|simpl; lia]).
  assert (Hr : 0 < length (right_half p))
    by (destruct (right_half p); [congruence|simpl; lia]).
  pose proof (alloc_factor_equal v v_nonzero _ _ Hl Hr) as Ha.
  unfold alloc_factor in Ha. rewrite halves_total in Ha.
  destruct (qdiv _ _) as [q| | |]; try discriminate.
  cbn [bind] in Ha |- *. apply ok_inj in Ha.
  rewrite !multiply_series_of. unfold after_split, share. rewrite Ha.
  reflexivity.
Qed.

(** The fold over the parents of one level keeps the invariant. *)
Lemma fold_level (todo : list (list nat)) :
  forall (done : list (list nat)) (g : nat -> Qc),
  NoDup (concat (done ++ todo)) ->
  (forall k, In k (concat (done ++ todo)) -> k < n) ->
  level_inv ordered done todo g ->
  exists g',
    foldM (split_and_allocate ext (equal_variance_matrix n v))
          (splittable todo) (series_of ordered g) =
    Ok (series_of ordered g') /\
    level_inv ordered (done ++ todo) [] g'.
Proof using quadratic v_nonzero.
  induction todo as [|p todo IH]; intros done g Hnd Hb Hinv.
  - exists g. split; [reflexivity|]. rewrite app_nil_r. exact Hinv.
  - assert (Eapp : done ++ p :: todo = (done ++ [p]) ++ todo)
      by (rewrite <- app_assoc; reflexivity).
    rewrite Eapp in Hnd, Hb |- *.
    assert (Hparts : NoDup p /\
                     (forall k, In k p -> ~ In k (concat done)) /\
                     (forall k, In k p -> ~ In k (concat todo)) /\
                     (forall k, In k p -> k < n)).
    { rewrite !concat_app in Hnd. cbn [concat] in Hnd. rewrite app_nil_r in Hnd.
      destruct (nodup_app_parts _ _ Hnd) as (H1 & _ & H2).
      destruct (nodup_app_parts _ _ H1) as (_ & H3 & H4).
      split; [exact H3|]. split; [|split].
      - intros k Hk Hin. exact (H4 k Hin Hk).
      - intros k Hk. apply H2. apply in_or_app. right. exact Hk.
      - intros k Hk. apply Hb. rewrite !concat_app. cbn [concat].
        rewrite app_nil_r. apply in_or_app. left. apply in_or_app. right.
        exact Hk. }
    destruct Hparts as (Hp & Hpd & Hpt & Hpb).
    destruct Hinv as (I1 & I2 & I3).
    unfold splittable. cbn [filter]. fold (splittable todo).
    destruct (1 <? length p) eqn:E.
    + apply Nat.ltb_lt in E. cbn [foldM].
      rewrite split_and_allocate_equal by assumption. cbn [bind].
      apply IH; [exact Hnd|exact Hb|].
      assert (Hbis : bisect (done ++ [p]) =
                     bisect done ++ [left_half p; right_half p]).
      { rewrite bisect_app, bisect_one.
        apply Nat.ltb_lt in E. rewrite E. reflexivity. }
      split; [|split].
      * intros c k Hc Hk. rewrite after_split_outside.
        -- apply I1; [right; exact Hc|exact Hk].
        -- intros Hkp. apply (Hpt k Hkp). apply in_concat. eauto.
      * intros c k Hc Hk. rewrite Hbis in Hc. apply in_app_or in Hc.
        destruct Hc as [Hc|[<-|[<-|[]]]].
        -- rewrite after_split_outside; [apply I2; assumption|].
           intros Hkp. apply (Hpd k Hkp).
           eapply in_bisect_concat; eauto.
        -- apply after_split_left; try assumption.
           apply I1; [left; reflexivity|apply in_halves; tauto].
        -- apply after_split_right; try assumption.
           apply I1; [left; reflexivity|apply in_halves; tauto].
      * intros k Hk Ht Hd. rewrite Hbis, concat_app in Hd. cbn [concat] in Hd.
        rewrite app_nil_r, halves_join in Hd.
        rewrite after_split_outside
          by (intros Hkp; apply Hd, in_or_app; right; exact Hkp).
        apply I3; [exact Hk| |].
        -- cbn [concat]. intros Hin. apply in_app_or in Hin.
           destruct Hin as [Hin|Hin]; [|contradiction].
           apply Hd, in_or_app. right. exact Hin.
        -- intros Hin. apply Hd, in_or_app. left. exact Hin.
    + apply Nat.ltb_ge in E.
      apply IH; [exact Hnd|exact Hb|].
      assert (Hbis : bisect (done ++ [p]) = bisect done).
      { rewrite bisect_app, bisect_one.
        assert (E' : (1 <? length p) = false) by (apply Nat.ltb_ge; exact E).
        rewrite E'. apply app_nil_r. }
      split; [|split].
      * intros c k Hc Hk. apply I1; [right; exact Hc|exact Hk].
      * intros c k Hc Hk. rewrite Hbis in Hc. apply I2; assumption.
      * intros k Hk Ht Hd. rewrite Hbis in Hd.
        destruct (in_dec Nat.eq_dec k p) as [Hkp|Hnkp].
        -- rewrite (I1 p k) by (try (left; reflexivity); exact Hkp).
           assert (length p = 1) by (destruct p; [destruct Hkp|simpl in *; lia]).
           congruence.
        -- apply I3; [exact Hk| |exact Hd].
           cbn [concat]. intros Hin. apply in_app_or in Hin. tauto.
Qed.

(** One level: from the invariant on the clusters to the invariant on
    their halves. *)
Lemma level_equal (clusters : list (list nat)) (g : nat -> Qc) :
  NoDup (concat clusters) ->
  (forall k, In k (concat clusters) -> k < n) ->
  level_inv ordered [] clusters g ->
  exists g',
    pair_loop ext (equal_variance_matrix n v) (bisect clusters)
              (series_of ordered g) = Ok (series_of ordered g') /\
    level_inv ordered [] (bisect clusters) g'.
Proof using quadratic v_nonzero.
  intros Hnd Hb Hinv.
  destruct (fold_level clusters [] g Hnd Hb Hinv) as (g' & Hfold & I1 & I2 & I3).
  exists g'. rewrite pair_loop_splittable. split; [exact Hfold|].
  cbn [app] in I2, I3.
  split; [exact I2|]. split.
  - intros c k Hc. destruct Hc.
  - intros k Hk Ht _. apply I3; [exact Hk|intros []|exact Ht].
Qed.

(** The loop: with fuel above the size of every cluster it ends, and
    every asset ends with the weight [1 / N]. *)
Lemma bipart_loop_equal (fuel : nat) :
  forall (clusters : list (list nat)) (g : nat -> Qc),
  NoDup (concat clusters) ->
  (forall k, In k (concat clusters) -> k < n) ->
  level_inv ordered [] clusters g ->
  1 <= fuel ->
  (forall c, In c clusters -> S (length c) < fuel) ->
  exists g',
    bipart_loop ext fuel (equal_variance_matrix n v) clusters
                (series_of ordered g) = Ok (series_of ordered g') /\
    forall k, In k ordered -> g' k = share 1 (length ordered).
Proof using quadratic v_nonzero.
  induction fuel as [|fuel IH]; intros clusters g Hnd Hb Hinv Hfuel Hsize;
    [lia|].
  destruct clusters as [|c cs].
  - exists g. split; [reflexivity|].
    destruct Hinv as (_ & _ & I3). intros k Hk. apply I3; [exact Hk| |];
      intros [].
  - cbn [bipart_loop].
    destruct (level_equal (c :: cs) g Hnd Hb Hinv) as (g1 & Hloop & Hinv1).
    rewrite Hloop. cbn [bind].
    apply IH.
    + apply concat_bisect_nodup, Hnd.
    + intros k Hk. apply Hb. apply in_concat in Hk.
      destruct Hk as (h & Hh & Hk). eapply in_bisect_concat; eauto.
    + exact Hinv1.
    + specialize (Hsize c (or_introl eq_refl)). lia.
    + intros h Hh. apply in_bisect in Hh. destruct Hh as (p & Hp & Hlen & E).
      specialize (Hsize p Hp). pose proof (halves_total p) as Ht.
      destruct (halves_nonempty p Hlen) as [Nl Nr].
      assert (0 < length (left_half p))
        by (destruct (left_half p); [congruence|simpl; lia]).
      assert (0 < length (right_half p))
        by (destruct (right_half p); [congruence|simpl; lia]).
      destruct E as [->| ->]; lia.
Qed.

End EqualVarianceLoop.

Lemma Qc_of_nat_inj (a b : nat) : Qc_of_nat a = Qc_of_nat b -> a = b.
Proof.
  intros H. unfold Qc_of_nat in H. apply Q2Qc_eq_iff in H.
  apply Nat2Z.inj. unfold Qeq in H. simpl in H. lia.
Qed.

Lemma share_half_iff_even (len : nat) :
  1 < len -> (share (len / 2) len = Q2Qc (1 # 2) <-> Nat.Even len).
Proof.
  intros Hlen.
  assert (Nl : Qc_of_nat len <> 0%Qc) by (apply Qc_of_nat_nonzero; lia).
  assert (E2 : forall k, Qc_of_nat (k + k) = (Q2Qc (2 # 1) * Qc_of_nat k)%Qc).
  { intros k. rewrite Qc_of_nat_add.
    replace (Q2Qc (2 # 1)) with (1 + 1)%Qc by (apply Qc_is_canon; reflexivity).
    ring. }
  assert (Hhalf : (Q2Qc (2 # 1) * Q2Qc (1 # 2))%Qc = 1%Qc)
    by (apply Qc_is_canon; reflexivity).
  pose proof (Nat.div_mod_eq len 2) as Hdm.
  pose proof (Nat.mod_upper_bound len 2 ltac:(lia)) as Hm.
  unfold share. split.
  - intros H. exists (len / 2).
    assert (Hq : Qc_of_nat (len / 2 + len / 2) = Qc_of_nat len).
    { rewrite E2.
      replace (Qc_of_nat (len / 2))
        with (Qc_of_nat (len / 2) / Qc_of_nat len * Qc_of_nat len)%Qc
        by (field; exact Nl).
      rewrite H.
      replace (Q2Qc (2 # 1) * (Q2Qc (1 # 2) * Qc_of_nat len))%Qc
        with ((Q2Qc (2 # 1) * Q2Qc (1 # 2)) * Qc_of_nat len)%Qc by ring.
      rewrite Hhalf. ring. }
    apply Qc_of_nat_inj in Hq. lia.
  - intros [k Hk]. replace (len / 2) with k by lia.
    replace len with (k + k) at 1 by lia. rewrite E2.
    assert (Nk : Qc_of_nat k <> 0%Qc) by (apply Qc_of_nat_nonzero; lia).
    assert (N2 : Q2Qc (2 # 1) <> 0%Qc) by discriminate.
    replace (Q2Qc (1 # 2)) with (1 / Q2Qc (2 # 1))%Qc
      by (apply Qc_is_canon; reflexivity).
    field. split; assumption.
Qed.

Lemma map_fst_combine {A B : Type} (l : list A) (l' : list B) :
  length l = length l' -> map fst (combine l l') = l.
Proof.
  revert l'. induction l as [|a l IH]; intros [|b l'] H; simpl in *;
    try reflexivity; try discriminate.
  f_equal. apply IH. lia.
Qed.

Lemma map_snd_combine {A B : Type} (l : list A) (l' : list B) :
  length l = length l' -> map snd (combine l l') = l'.
Proof.
  revert l'. induction l as [|a l IH]; intros [|b l'] H; simpl in *;
    try reflexivity; try discriminate.
  f_equal. apply IH. lia.
Qed.

Lemma labels_of_assets (assets : list string) (ordered : list nat) :
  (forall k, In k ordered -> k < length assets) ->
  mapM (fun i => match assets !! i with
                 | Some a => Ok a
                 | None => Raise IndexError
                 end) ordered =
  Ok (map (fun i => nth i assets "") ordered).
Proof.
  intros Hb. apply mapM_ok. intros i Hi.
  destruct (lookup_lt_is_Some_2 assets i (Hb i Hi)) as [a Ha].
  rewrite Ha. f_equal. symmetry. apply nth_lookup_Some with (d := "") in Ha.
  exact Ha.
Qed.

(** C4, as the code has it: on [N >= 2] uncorrelated assets of equal
    positive variance every asset ends with the weight [1/N]; the
    allocation factor of a bisection step is the share of the left half
    in its parent, [(len // 2) / len], which is one half exactly when the
    parent has an even number of members. *)
Theorem equal_variance_allocation (ext : collaborators) (n : nat) (v : Qc)
    (assets : list string) (ordered : list nat) (fuel : nat) :
  uses_quadratic_form ext ->
  2 <= n ->
  (0 < v)%Qc ->
  Permutation ordered (seq 0 n) ->
  length assets = n ->
  n + 1 < fuel ->
  (exists weights,
     _getRecBipart ext fuel (equal_variance_matrix n v) assets ordered =
       Ok weights /\
     map fst weights = map (fun i => nth i assets "") ordered /\
     Forall (fun kv => snd kv = share 1 n) weights) /\
  (forall parent,
     1 < length parent -> NoDup parent -> (forall k, In k parent -> k < n) ->
     exists var_left var_right,
       _getClusterVar ext (equal_variance_matrix n v) (left_half parent) =
         Ok var_left /\
       _getClusterVar ext (equal_variance_matrix n v) (right_half parent) =
         Ok var_right /\
       alloc_factor var_left var_right =
         Ok (share (length parent / 2) (length parent)) /\
       (share (length parent / 2) (length parent) = Q2Qc (1 # 2) <->
        Nat.Even (length parent))).
Proof.
  intros Hq Hn Hv Hperm Hassets Hfuel.
  pose proof (Qclt_neq v Hv) as Nv.
  assert (Hnd : NoDup ordered)
    by (eapply Permutation_NoDup; [symmetry; exact Hperm|apply seq_NoDup]).
  assert (Hb : forall k, In k ordered -> k < n).
  { intros k Hk. apply (Permutation_in _ Hperm) in Hk. apply in_seq in Hk. lia. }
  assert (Hlen : length ordered = n)
    by (rewrite (Permutation_length Hperm); apply length_seq).
  split.
  - unfold _getRecBipart.
    change (map (fun i => (i, 1%Qc)) ordered)
      with (series_of ordered (fun _ => 1%Qc)).
    destruct (bipart_loop_equal ext n v ordered Hq Nv fuel [ordered]
                (fun _ => 1%Qc)) as (g & Hloop & Hg).
    + cbn [concat]. rewrite app_nil_r. exact Hnd.
    + cbn [concat]. rewrite app_nil_r. exact Hb.
    + split; [|split].
      * intros c k [<-|[]] Hk. rewrite share_same; [reflexivity|lia].
      * intros c k [].
      * intros k Hk Hnot. exfalso. apply Hnot. cbn [concat].
        rewrite app_nil_r. exact Hk.
    + lia.
    + intros c [<-|[]]. lia.
    + rewrite Hloop. cbn [bind].
      rewrite labels_of_assets by (intros k Hk; rewrite Hassets; apply Hb, Hk).
      cbn [bind]. eexists. split; [reflexivity|].
      unfold series_of. rewrite map_map. cbn [snd].
      split.
      * apply map_fst_combine. rewrite !length_map. reflexivity.
      * apply Forall_forall. intros kv Hkv.
        apply (in_map snd) in Hkv.
        rewrite map_snd_combine in Hkv by (rewrite !length_map; reflexivity).
        apply in_map_iff in Hkv. destruct Hkv as (k & <- & Hk).
        rewrite <- Hlen. apply Hg, Hk.
  - intros p Hsize Hp Hpb.
    destruct (halves_nonempty p Hsize) as [Nl Nr].
    destruct (halves_nodup p Hp) as (Dl & Dr & _).
    destruct (halves_sizes p) as [Sl Sr].
    exists (v / Qc_of_nat (length (left_half p)))%Qc,
           (v / Qc_of_nat (length (right_half p)))%Qc.
    split; [|split; [|split]].
    + apply cluster_variance_equal; try assumption.
      intros k Hk. apply Hpb, in_halves. tauto.
    + apply cluster_variance_equal; try assumption.
      intros k Hk. apply Hpb, in_halves. tauto.
    + rewrite alloc_factor_equal.
      * rewrite halves_total, Sl. reflexivity.
      * exact Nv.
      * destruct (left_half p); [congruence|simpl; lia].
      * destruct (right_half p); [congruence|simpl; lia].
    + apply share_half_iff_even, Hsize.
Qed.

Lemma stub_uses_quadratic_form (tree : outcome (list merge)) :
  uses_quadratic_form (stub tree).
Proof. intros cov w. reflexivity. Qed.

Lemma equal_variance_allocation_witness :
  (exists weights,
     _getRecBipart (stub (Ok [])) 6 (equal_variance_matrix 4 1%Qc)
                   ["A"; "B"; "C"; "D"] [2; 0; 3; 1] = Ok weights /\
     map fst weights = map (fun i => nth i ["A"; "B"; "C"; "D"] "") [2; 0; 3; 1] /\
     Forall (fun kv => snd kv = share 1 4) weights) /\
  (forall parent,
     1 < length parent -> NoDup parent -> (forall k, In k parent -> k < 4) ->
     exists var_left var_right,
       _getClusterVar (stub (Ok [])) (equal_variance_matrix 4 1%Qc)
                      (left_half parent) = Ok var_left /\
       _getClusterVar (stub (Ok [])) (equal_variance_matrix 4 1%Qc)
                      (right_half parent) = Ok var_right /\
       alloc_factor var_left var_right =
         Ok (share (length parent / 2) (length parent)) /\
       (share (length parent / 2) (length parent) = Q2Qc (1 # 2) <->
        Nat.Even (length parent))).
Proof.
  apply (equal_variance_allocation (stub (Ok [])) 4 1%Qc
           ["A"; "B"; "C"; "D"] [2; 0; 3; 1] 6).
  - apply stub_uses_quadratic_form.
  - lia.
  - reflexivity.
  - apply (perm_trans (l' := [0; 2; 3; 1])); [apply perm_swap|].
    apply perm_skip.
    apply (perm_trans (l' := [2; 1; 3])); [apply perm_skip, perm_swap|].
    apply (perm_trans (l' := [1; 2; 3])); [apply perm_swap|].
    apply Permutation_refl.
  - reflexivity.
  - lia.
Defined.

(** C4, as the spec words it, fails: on three uncorrelated assets of
    variance one the first bisection step, [[0]] against [[1; 2]], has the
    allocation factor one third. *)
Lemma equal_variance_factor_not_half :
  exists var_left var_right a,
    _getClusterVar (stub (Ok [])) (equal_variance_matrix 3 1%Qc)
                   (left_half [0; 1; 2]) = Ok var_left /\
    _getClusterVar (stub (Ok [])) (equal_variance_matrix 3 1%Qc)
                   (right_half [0; 1; 2]) = Ok var_right /\
    alloc_factor var_left var_right = Ok a /\
    a = Q2Qc (1 # 3) /\
    a <> Q2Qc (1 # 2).
Proof.
  assert (N1 : (1 : Qc) <> 0%Qc) by discriminate.
  exists (1 / Qc_of_nat 1)%Qc, (1 / Qc_of_nat 2)%Qc, (share 1 3).
  split; [|split; [|split; [|split]]].
  - apply (cluster_variance_equal (stub (Ok [])) 3 1%Qc
             (stub_uses_quadratic_form _) N1 [0]).
    + discriminate.
    + repeat constructor. simpl. tauto.
    + simpl. intros k [<-|[]]. lia.
  - apply (cluster_variance_equal (stub (Ok [])) 3 1%Qc
             (stub_uses_quadratic_form _) N1 [1; 2]).
    + discriminate.
    + repeat constructor; simpl; intuition lia.
    + simpl. intros k [<-|[<-|[]]]; lia.
  - apply (alloc_factor_equal 1%Qc N1 1 2); lia.
  - apply Qc_is_canon. reflexivity.
  - intros H. apply (f_equal this) in H. discriminate.
Qed.

(** ** Sample runs *)

Lemma init_defaults : __init__ "Variance" "Single" = Ok default_instance.
Proof. reflexivity. Qed.

(** On a merge list that is no tree, node 0 merged with itself, the
    order repeats a leaf: the third condition of [well_formed_tree] is
    needed for the permutation. *)
Example getQuasiDiag_repeats_on_dag :
  _getQuasiDiag 3 [Merge 0 0 1%Qc] 2 2 = Ok [0; 0].
Proof. reflexivity. Qed.

Lemma getQuasiDiag_permutation_witness :
  exists order,
    _getQuasiDiag 5 [Merge 0 1 1%Qc; Merge 2 3 1%Qc] 3 (2 * 3 - 2) = Ok order /\
    Permutation order (seq 0 3) /\
    length order = 3 /\
    NoDup order /\
    (forall i, i < 3 -> count_occ Nat.eq_dec order i = 1).
Proof.
  apply (getQuasiDiag_permutation 3 [Merge 0 1 1%Qc; Merge 2 3 1%Qc] 5).
  - lia.
  - split; [reflexivity|]. split.
    + intros i row H. destruct i as [|[|i]]; simpl in H;
        try discriminate; injection H as <-; simpl; lia.
    + simpl. repeat constructor; simpl; intuition lia.
  - simpl. lia.
Defined.

Lemma bisect_pairs_in_bounds_witness :
  In 2 (range_step2 (length (bisect [[0; 1; 2; 3; 4]; [5]; [6; 7]]))) /\
  Nat.Even (length (bisect [[0; 1; 2; 3; 4]; [5]; [6; 7]])) /\
  Forall (fun c => c <> []) (bisect [[0; 1; 2; 3; 4]; [5]; [6; 7]]) /\
  exists parent,
    1 < length parent /\
    bisect [[0; 1; 2; 3; 4]; [5]; [6; 7]] !! 2 = Some (left_half parent) /\
    bisect [[0; 1; 2; 3; 4]; [5]; [6; 7]] !! (2 + 1) = Some (right_half parent) /\
    length (left_half parent) = length parent / 2 /\
    1 <= length parent / 2 /\
    length (right_half parent) = length parent - length parent / 2 /\
    1 <= length parent - length parent / 2.
Proof.
  assert (H : In 2 (range_step2 (length (bisect [[0; 1; 2; 3; 4]; [5]; [6; 7]]))))
    by (simpl; tauto).
  split; [exact H|].
  exact (bisect_pairs_in_bounds [[0; 1; 2; 3; 4]; [5]; [6; 7]] 2 H).
Defined.

Lemma ok_Qc_by_value (m : outcome Qc) (q : Qc) :
  match m with Ok x => Qeq_bool x q = true | _ => False end -> m = Ok q.
Proof.
  destruct m as [x| | |]; intros H; try contradiction.
  f_equal. apply Qc_is_canon, Qeq_bool_eq, H.
Qed.

(** C5 on a whole run: the two halves of [[0; 1; 2; 3]] both have the
    cluster variance zero, and [_getRecBipart] does not return weights. *)
Example getRecBipart_zero_risk :
  _getClusterVar (stub (Ok [])) hedged_risk [0; 1] = Ok 0%Qc /\
  _getClusterVar (stub (Ok [])) hedged_risk [2; 3] = Ok 0%Qc /\
  _getRecBipart (stub (Ok [])) 6 hedged_risk ["A"; "B"; "C"; "D"] [0; 1; 2; 3] =
    NonFinite.
Proof.
  split; [apply ok_Qc_by_value; vm_compute; reflexivity|].
  split; [apply ok_Qc_by_value; vm_compute; reflexivity|].
  vm_compute. reflexivity.
Qed.

(** ** The reported table *)

(** C8 on a run of the post-processing, on the weights the bisection
    gives two uncorrelated assets of variances 1 and 10^9: the weight of
    B rounds to zero at eight decimals; the table still has the column B,
    holding the string ['nan'], which [dropna] does not take for a
    missing value. *)
Theorem post_process_keeps_zero_weight :
  round_dec 8 (Q2Qc (1 # 1000000001)) = 0%Qc /\
  exists a,
    post_process ["A"; "B"]
      [("A", Q2Qc (1000000000 # 1000000001)); ("B", Q2Qc (1 # 1000000001))] =
    Ok [("A", CellNum a); ("B", CellStr "nan")] /\
    a = 1%Qc.
Proof.
  split; [apply Qc_is_canon; vm_compute; reflexivity|].
  eexists. split; [vm_compute; reflexivity|].
  apply Qc_is_canon. vm_compute. reflexivity.
Qed.

(** C1 on a run of [optimize]: of two uncorrelated assets, B a thousand
    million times as risky as A, B gets a weight that rounds to zero; the
    returned table has a column for it all the same, holding the string
    ['nan']. *)
Theorem optimize_reports_zero_weight :
  exists a,
    snd (optimize (stub (Ok one_merge)) 4 default_instance
                  (ArgDataFrame true lopsided_frame)) =
    Ok [("A", CellNum a); ("B", CellStr "nan")] /\
    a = 1%Qc.
Proof.
  eexists. split; [vm_compute; reflexivity|].
  apply Qc_is_canon. vm_compute. reflexivity.
Qed.

(** ** Tables with a single asset *)

Lemma post_process_single (name : string) :
  post_process [name] [(name, 1%Qc)] = Ok [(name, CellNum 1%Qc)].
Proof.
  unfold post_process. cbn [map fst snd].
  replace (round_dec 8 1) with 1%Qc by (apply Qc_is_canon; vm_compute; reflexivity).
  replace (qsum [1%Qc]) with 1%Qc by (apply Qc_is_canon; vm_compute; reflexivity).
  cbn [mapM bind fst snd]. rewrite qdiv_nonzero by discriminate.
  replace (1 / 1)%Qc with 1%Qc by (apply Qc_is_canon; vm_compute; reflexivity).
  cbn [bind map fst snd].
  replace (Qc_eq_bool 1 0) with false by reflexivity.
  cbn [mapM assoc]. rewrite String.eqb_refl. reflexivity.
Qed.

Lemma optimize_single_asset_run (ext : collaborators) (fuel : nat)
    (self : instance) (prices : frame ext) (name : string)
    (risk_matrix : matrix) (clusters : list merge) :
  columns ext (dropna_all_rows_then_columns ext (pct_change ext prices)) = [name] ->
  estimate_and_cluster ext self
    (dropna_all_rows_then_columns ext (pct_change ext prices)) =
    Ok (risk_matrix, clusters) ->
  2 <= fuel ->
  optimize ext fuel self (ArgDataFrame true prices) =
    (<["clusters" := PyLinkage clusters]> self, Ok [(name, CellNum 1%Qc)]).
Proof.
  intros Hcols Hec Hfuel.
  unfold optimize. cbn [check_asset_prices]. rewrite Hec, Hcols.
  f_equal. unfold allocate. cbn [length Nat.mul Nat.add Nat.sub].
  destruct fuel as [|[|fuel]]; try lia.
  cbn [_getQuasiDiag Nat.ltb Nat.leb bind].
  unfold _getRecBipart. cbn [map bipart_loop].
  change (bisect [[0]]) with (@nil (list nat)).
  unfold pair_loop.
  cbn [length range_step2 Nat.add Nat.div2 seq map foldM bind mapM
       lookup list_lookup combine snd].
  apply post_process_single.
Qed.

Lemma pair_of_snd {A B : Type} (p : A * B) (b : B) : snd p = b -> p = (fst p, b).
Proof. intros <-. destruct p. reflexivity. Qed.

Lemma mapM_length {A B : Type} (f : A -> outcome B) (l : list A) (r : list B) :
  mapM f l = Ok r -> length r = length l.
Proof.
  revert r. induction l as [|a l IH]; intros r H.
  - apply ok_inj in H. subst r. reflexivity.
  - cbn [mapM] in H. destruct (f a) as [b| | |]; try discriminate.
    destruct (mapM f l) as [bs| | |]; try discriminate.
    cbn [bind] in H. apply ok_inj in H. subst r.
    cbn [length]. rewrite (IH bs eq_refl). reflexivity.
Qed.

(** C6, as the code has it: with fewer than two usable assets
    [optimize] returns no table and leaves [self.clusters] as it was,
    but the error is not raised at the start of the run.  The validation
    at the head of [optimize] looks at the type of the argument and of
    its index, never at the number of assets, so a datetime-indexed
    table passes it.  The returns, the risk matrix, the correlations and
    the distances are computed first; the run then stops at the
    clustering call, where scipy's [linkage] refuses a distance matrix
    of fewer than two observations with [ValueError], and that error is
    the one [optimize] raises. *)
Theorem optimize_single_asset (ext : collaborators) (fuel : nat)
    (self : instance) (prices : frame ext) :
  (forall metric risk_matrix,
     risk_matrix_of ext metric
       (dropna_all_rows_then_columns ext (pct_change ext prices)) =
       Ok risk_matrix ->
     length risk_matrix =
     length (columns ext
               (dropna_all_rows_then_columns ext (pct_change ext prices)))) ->
  (forall risk_matrix correlation_matrix,
     Resampler_Cov2Corr ext risk_matrix = Ok correlation_matrix ->
     length correlation_matrix = length risk_matrix) ->
  (forall distance_matrix method,
     length distance_matrix < 2 ->
     exists msg,
       scipy_linkage ext distance_matrix method = Raise (ValueError msg)) ->
  length (columns ext
            (dropna_all_rows_then_columns ext (pct_change ext prices))) < 2 ->
  check_asset_prices (ArgDataFrame true prices) = Ok tt /\
  fst (optimize ext fuel self (ArgDataFrame true prices)) = self /\
  ~ is_ok (snd (optimize ext fuel self (ArgDataFrame true prices))) /\
  (forall metric method risk_matrix correlation_matrix distance_matrix,
     self !! "_RiskMetrics" = Some metric ->
     self !! "_Method" = Some (PyStr method) ->
     risk_matrix_of ext metric
       (dropna_all_rows_then_columns ext (pct_change ext prices)) =
       Ok risk_matrix ->
     Resampler_Cov2Corr ext risk_matrix = Ok correlation_matrix ->
     distance_of ext correlation_matrix = Ok distance_matrix ->
     exists msg,
       scipy_linkage ext distance_matrix method = Raise (ValueError msg) /\
       snd (optimize ext fuel self (ArgDataFrame true prices)) =
         Raise (ValueError msg)).
Proof.
  intros Hest Hcorr Hlink Hfew.
  assert (Hec : forall risk_matrix clusters,
            estimate_and_cluster ext self
              (dropna_all_rows_then_columns ext (pct_change ext prices)) <>
            Ok (risk_matrix, clusters)).
  { intros rm cl. unfold estimate_and_cluster.
    destruct (getattr self "_RiskMetrics") as [metric| | |]; try discriminate.
    cbn [bind].
    destruct (risk_matrix_of ext metric _) as [risk| | |] eqn:Er;
      try discriminate.
    cbn [bind].
    destruct (Resampler_Cov2Corr ext risk) as [corr| | |] eqn:Ec;
      try discriminate.
    cbn [bind].
    destruct (distance_of ext corr) as [dist| | |] eqn:Ed; try discriminate.
    cbn [bind].
    destruct (getattr self "_Method") as [method| | |]; try discriminate.
    cbn [bind].
    destruct (Hlink dist (match method with PyStr m => m | _ => "" end))
      as [msg Hmsg].
    - unfold distance_of in Ed. rewrite (mapM_length _ _ _ Ed).
      rewrite (Hcorr _ _ Ec), (Hest _ _ Er). exact Hfew.
    - rewrite Hmsg. discriminate. }
  split; [reflexivity|]. split; [|split].
  - unfold optimize. cbn [check_asset_prices].
    destruct (estimate_and_cluster ext self _) as [[rm cl]| | |] eqn:E;
      try reflexivity.
    exfalso. exact (Hec rm cl eq_refl).
  - intros [t Ht]. unfold optimize in Ht. cbn [check_asset_prices] in Ht.
    destruct (estimate_and_cluster ext self _) as [[rm cl]| | |] eqn:E;
      try discriminate.
    exact (Hec rm cl eq_refl).
  - intros metric method risk corr dist Hr Hm Er Ec Ed.
    destruct (Hlink dist method) as [msg Hmsg].
    + unfold distance_of in Ed. rewrite (mapM_length _ _ _ Ed).
      rewrite (Hcorr _ _ Ec), (Hest _ _ Er). exact Hfew.
    + exists msg. split; [exact Hmsg|].
      unfold optimize. cbn [check_asset_prices].
      unfold estimate_and_cluster, getattr. rewrite Hr, Hm. cbn [bind].
      rewrite Er. cbn [bind]. rewrite Ec. cbn [bind]. rewrite Ed. cbn [bind].
      rewrite Hmsg. reflexivity.
Qed.

Lemma optimize_single_asset_witness :
  check_asset_prices (ArgDataFrame true single_frame) = Ok tt /\
  fst (optimize refusing_linkage 2 default_instance
         (ArgDataFrame true single_frame)) = default_instance /\
  ~ is_ok (snd (optimize refusing_linkage 2 default_instance
                  (ArgDataFrame true single_frame))) /\
  (forall metric method risk_matrix correlation_matrix distance_matrix,
     default_instance !! "_RiskMetrics" = Some metric ->
     default_instance !! "_Method" = Some (PyStr method) ->
     risk_matrix_of refusing_linkage metric single_frame = Ok risk_matrix ->
     Resampler_Cov2Corr refusing_linkage risk_matrix = Ok correlation_matrix ->
     distance_of refusing_linkage correlation_matrix = Ok distance_matrix ->
     exists msg,
       scipy_linkage refusing_linkage distance_matrix method =
         Raise (ValueError msg) /\
       snd (optimize refusing_linkage 2 default_instance
              (ArgDataFrame true single_frame)) = Raise (ValueError msg)).
Proof.
  apply (optimize_single_asset refusing_linkage 2 default_instance single_frame).
  - intros metric risk_matrix. unfold risk_matrix_of.
    destruct metric as [|name| |]; try discriminate.
    repeat (destruct (String.eqb name _); [intros H; apply ok_inj in H;
                                           subst risk_matrix; reflexivity|]).
    discriminate.
  - intros risk_matrix correlation_matrix H. apply ok_inj in H.
    subst correlation_matrix. reflexivity.
  - intros distance_matrix method _. eexists. reflexivity.
  - simpl. lia.
Defined.

(** C6, as the spec words it, fails: a datetime-indexed table with the
    single asset A passes the validation at the start of the run; the
    run ends at the clustering call, with whatever error that call
    raises, and the instance is left as it was. *)
Lemma optimize_single_asset_fails_at_linkage :
  length (stub_columns single_frame) < 2 /\
  check_asset_prices (ArgDataFrame true single_frame) = Ok tt /\
  forall e,
    optimize (stub (Raise e)) 2 default_instance
             (ArgDataFrame true single_frame) =
    (default_instance, Raise e).
Proof.
  split; [simpl; lia|]. split; [reflexivity|].
  intros e. reflexivity.
Qed.

(** ** A run of [plot] *)

Lemma plot_fails_after_optimize_witness :
  plot (fst (optimize (stub (Ok [])) 2 default_instance
                      (ArgDataFrame true single_frame))) =
  ([EvFigure; EvAddSubplot; EvSetTitle], Raise (AttributeError "asset_names")).
Proof.
  apply (plot_fails_after_optimize (stub (Ok [])) "Variance" "Single" 2
           (ArgDataFrame true single_frame)
           default_instance default_instance
           (fst (optimize (stub (Ok [])) 2 default_instance
                          (ArgDataFrame true single_frame)))
           (fst (optimize (stub (Ok [])) 2 default_instance
                          (ArgDataFrame true single_frame)))
           [("A", CellNum 1%Qc)]).
  - reflexivity.
  - apply calls_nil.
  - apply pair_of_snd.
    exact (f_equal snd
             (optimize_single_asset_run (stub (Ok [])) 2 default_instance
                single_frame "A" [[1%Qc]] [] eq_refl eq_refl (le_n 2))).
  - apply calls_nil.
Defined.

(** ** Order and sums of rationals *)

Lemma Qcmult_nonneg (x y : Qc) : (0 <= x -> 0 <= y -> 0 <= x * y)%Qc.
Proof.
  intros Hx Hy. replace 0%Qc with (0 * y)%Qc by ring.
  apply Qcmult_le_compat_r; assumption.
Qed.

Lemma Qcplus_pos (x y : Qc) : (0 < x -> 0 < y -> 0 < x + y)%Qc.
Proof.
  intros Hx Hy. apply Qclt_le_trans with (y := x); [exact Hx|].
  replace x with (x + 0)%Qc at 1 by ring.
  apply Qcplus_le_compat; [apply Qcle_refl|apply Qclt_le_weak, Hy].
Qed.

Lemma Qcdiv_pos (x y : Qc) : (0 < x -> 0 < y -> 0 < x / y)%Qc.
Proof.
  unfold Qclt, Qcdiv, Qcmult, Qcinv. cbn [this Q2Qc]. rewrite !Qred_correct.
  change (this 0%Qc) with 0%Q. intros Hx Hy.
  apply Qmult_lt_0_compat; [exact Hx|]. apply Qinv_lt_0_compat. exact Hy.
Qed.

Lemma qsum_nonneg (l : list Qc) :
  (forall x, In x l -> (0 <= x)%Qc) -> (0 <= qsum l)%Qc.
Proof.
  induction l as [|x l IH]; intros H; cbn [qsum fold_right].
  - apply Qcle_refl.
  - fold (qsum l). replace 0%Qc with (0 + 0)%Qc by ring.
    apply Qcplus_le_compat; [apply H; left; reflexivity|].
    apply IH. intros y Hy. apply H. right. exact Hy.
Qed.

Lemma qsum_cons (x : Qc) (l : list Qc) : qsum (x :: l) = (x + qsum l)%Qc.
Proof. reflexivity. Qed.

Lemma qsum_plus {A : Type} (f g : A -> Qc) (l : list A) :
  qsum (map (fun a => (f a + g a)%Qc) l) =
  (qsum (map f l) + qsum (map g l))%Qc.
Proof.
  induction l as [|a l IH]; cbn [map]; rewrite ?qsum_cons; [|rewrite IH];
    cbn [qsum fold_right]; ring.
Qed.

Lemma qsum_ext_in {A : Type} (f g : A -> Qc) (l : list A) :
  (forall a, In a l -> f a = g a) -> qsum (map f l) = qsum (map g l).
Proof. intros H. f_equal. apply map_ext_in, H. Qed.

Lemma qsum_filter_count {A : Type} (P : A -> bool) (x : Qc) (l : list A) :
  qsum (map (fun a => if P a then x else 0%Qc) l) =
  (Qc_of_nat (length (filter P l)) * x)%Qc.
Proof.
  induction l as [|a l IH]; cbn [map filter]; rewrite ?qsum_cons.
  - change (Qc_of_nat (length [])) with 0%Qc. cbn [qsum fold_right]. ring.
  - rewrite IH. destruct (P a); cbn [length]; rewrite ?Qc_of_nat_S; ring.
Qed.

(** The sum over [ordered] of a constant on the members of [members]. *)
Lemma qsum_indicator (ordered members : list nat) (x : Qc) :
  NoDup ordered -> NoDup members -> incl members ordered ->
  qsum (map (fun k => if in_dec Nat.eq_dec k members then x else 0%Qc) ordered) =
  (Qc_of_nat (length members) * x)%Qc.
Proof.
  intros Ho Hm Hincl.
  rewrite (qsum_ext_in _
             (fun k => if (if in_dec Nat.eq_dec k members then true else false)
                       then x else 0%Qc))
    by (intros k _; destruct (in_dec Nat.eq_dec k members); reflexivity).
  rewrite qsum_filter_count. f_equal. f_equal.
  apply Permutation_length. apply NoDup_Permutation.
  - apply NoDup_filter, Ho.
  - exact Hm.
  - intros k. rewrite filter_In.
    destruct (in_dec Nat.eq_dec k members) as [Hin|Hnin].
    + split; [tauto|]. intros _. split; [apply Hincl, Hin|reflexivity].
    + split; [intros [_ H]; discriminate|tauto].
Qed.

(** ** The recursive bisection on positive cluster variances *)

Lemma reweigh_outside (a : Qc) (p : list nat) (f : nat -> Qc) (k : nat) :
  ~ In k p -> reweigh a p f k = f k.
Proof.
  intros H. unfold reweigh.
  destruct (in_dec Nat.eq_dec k (right_half p)) as [Hin|_];
    [exfalso; apply H, in_halves; tauto|].
  destruct (in_dec Nat.eq_dec k (left_half p)) as [Hin|_];
    [exfalso; apply H, in_halves; tauto|].
  reflexivity.
Qed.

Lemma reweigh_left (a : Qc) (p : list nat) (f : nat -> Qc) (k : nat) :
  NoDup p -> In k (left_half p) -> reweigh a p f k = (f k * a)%Qc.
Proof.
  intros Hnd Hk. destruct (halves_nodup p Hnd) as (_ & _ & Hdis).
  unfold reweigh.
  destruct (in_dec Nat.eq_dec k (right_half p)) as [Hin|_];
    [exfalso; exact (Hdis k Hk Hin)|].
  destruct (in_dec Nat.eq_dec k (left_half p)) as [_|Hnin]; [|contradiction].
  reflexivity.
Qed.

Lemma reweigh_right (a : Qc) (p : list nat) (f : nat -> Qc) (k : nat) :
  NoDup p -> In k (right_half p) -> reweigh a p f k = (f k * (1 - a))%Qc.
Proof.
  intros Hnd Hk. destruct (halves_nodup p Hnd) as (_ & _ & Hdis).
  unfold reweigh.
  destruct (in_dec Nat.eq_dec k (right_half p)) as [_|Hnin]; [|contradiction].
  destruct (in_dec Nat.eq_dec k (left_half p)) as [Hin|_];
    [exfalso; exact (Hdis k Hin Hk)|].
  reflexivity.
Qed.

Lemma reweigh_nonneg (a : Qc) (p : list nat) (f : nat -> Qc) (k : nat) :
  (0 <= a)%Qc -> (0 <= 1 - a)%Qc -> (0 <= f k)%Qc ->
  (0 <= reweigh a p f k)%Qc.
Proof.
  intros Ha Hb Hf. unfold reweigh.
  destruct (in_dec Nat.eq_dec k (right_half p));
    destruct (in_dec Nat.eq_dec k (left_half p));
    repeat apply Qcmult_nonneg; assumption.
Qed.

Lemma nonempty_length {A : Type} (l : list A) : l <> [] -> 0 < length l.
Proof. destruct l; [congruence|simpl; lia]. Qed.

Section PositiveVariances.

Context (ext : collaborators) (cov : matrix) (ordered : list nat).
Hypothesis ordered_nodup : NoDup ordered.
Hypothesis positive : positive_cluster_variances ext cov ordered.

(** Splitting one parent: the factor is defined and lies between 0 and 1. *)
Lemma split_and_allocate_positive (p : list nat) (f : nat -> Qc) :
  1 < length p -> NoDup p -> incl p ordered ->
  exists a,
    (0 <= a)%Qc /\ (0 <= 1 - a)%Qc /\
    split_and_allocate ext cov (series_of ordered f) p =
    Ok (series_of ordered (reweigh a p f)).
Proof using positive.
  intros Hsize Hnd Hincl.
  destruct (halves_nonempty p Hsize) as [Nl Nr].
  destruct (halves_nodup p Hnd) as (Dl & Dr & _).
  destruct (positive (left_half p) Nl Dl) as (vl & El & Pl).
  { intros k Hk. apply Hincl, in_halves. tauto. }
  destruct (positive (right_half p) Nr Dr) as (vr & Er & Pr).
  { intros k Hk. apply Hincl, in_halves. tauto. }
  pose proof (Qcplus_pos vl vr Pl Pr) as Psum.
  pose proof (Qclt_neq _ Psum) as Nsum.
  exists (1 - vl / (vl + vr))%Qc. split; [|split].
  - replace (1 - vl / (vl + vr))%Qc with (vr / (vl + vr))%Qc
      by (field; exact Nsum).
    apply Qclt_le_weak, Qcdiv_pos; assumption.
  - replace (1 - (1 - vl / (vl + vr)))%Qc with (vl / (vl + vr))%Qc
      by (field; exact Nsum).
    apply Qclt_le_weak, Qcdiv_pos; assumption.
  - unfold split_and_allocate. rewrite El, Er. cbn [bind].
    rewrite qdiv_nonzero by exact Nsum. cbn [bind].
    rewrite !multiply_series_of. reflexivity.
Qed.

(** The split of one parent keeps the weighted sum of the invariant. *)
Lemma split_keeps_mass (p : list nat) (a : Qc) (g u : nat -> Qc) :
  1 < length p -> NoDup p -> incl p ordered ->
  (forall k k', In k p -> In k' p -> g k = g k') ->
  (forall k, In k p -> u k = (1 / Qc_of_nat (length p))%Qc) ->
  qsum (map (fun k =>
               (reweigh a p g k *
                (if in_dec Nat.eq_dec k (left_half p)
                 then 1 / Qc_of_nat (length (left_half p))
                 else if in_dec Nat.eq_dec k (right_half p)
                      then 1 / Qc_of_nat (length (right_half p))
                      else u k))%Qc) ordered) =
  qsum (map (fun k => (g k * u k)%Qc) ordered).
Proof using ordered_nodup.
  intros Hsize Hnd Hincl Hconst Hu.
  destruct (halves_nonempty p Hsize) as [Nl Nr].
  destruct (halves_nodup p Hnd) as (Dl & Dr & Hdis).
  pose proof (Qc_of_nat_nonzero _ (nonempty_length _ Nl)) as Ql.
  pose proof (Qc_of_nat_nonzero _ (nonempty_length _ Nr)) as Qr.
  assert (Qp : Qc_of_nat (length p) <> 0%Qc) by (apply Qc_of_nat_nonzero; lia).
  set (P := g (hd 0 p)).
  assert (HP : forall k, In k p -> g k = P).
  { intros k Hk. apply Hconst; [exact Hk|]. destruct p; [simpl in Hsize; lia|].
    left. reflexivity. }
  set (rest := fun k => if in_dec Nat.eq_dec k p then 0%Qc else (g k * u k)%Qc).
  rewrite (qsum_ext_in _
    (fun k => ((if in_dec Nat.eq_dec k (left_half p)
                then P * a / Qc_of_nat (length (left_half p)) else 0) +
               ((if in_dec Nat.eq_dec k (right_half p)
                 then P * (1 - a) / Qc_of_nat (length (right_half p)) else 0) +
                rest k))%Qc)).
  2:{ intros k _. unfold rest.
      destruct (in_dec Nat.eq_dec k (left_half p)) as [Hl|Hl].
      - assert (Hp : In k p) by (apply in_halves; tauto).
        destruct (in_dec Nat.eq_dec k (right_half p)) as [Hr|_];
          [exfalso; exact (Hdis k Hl Hr)|].
        destruct (in_dec Nat.eq_dec k p) as [_|Hn]; [|contradiction].
        rewrite reweigh_left, HP by assumption. field. exact Ql.
      - destruct (in_dec Nat.eq_dec k (right_half p)) as [Hr|Hr].
        + assert (Hp : In k p) by (apply in_halves; tauto).
          destruct (in_dec Nat.eq_dec k p) as [_|Hn]; [|contradiction].
          rewrite reweigh_right, HP by assumption. field. exact Qr.
        + destruct (in_dec Nat.eq_dec k p) as [Hp|Hp];
            [exfalso; apply in_halves in Hp; tauto|].
          rewrite reweigh_outside by exact Hp. ring. }
  rewrite (qsum_ext_in (fun k => (g k * u k)%Qc)
    (fun k => ((if in_dec Nat.eq_dec k p
                then P / Qc_of_nat (length p) else 0) + rest k)%Qc)).
  2:{ intros k _. unfold rest.
      destruct (in_dec Nat.eq_dec k p) as [Hp|Hp].
      - rewrite HP, Hu by exact Hp. field. exact Qp.
      - ring. }
  rewrite !qsum_plus.
  rewrite !qsum_indicator; try assumption.
  - field. repeat split; assumption.
  - intros k Hk. apply Hincl, in_halves. tauto.
  - intros k Hk. apply Hincl, in_halves. tauto.
Qed.

End PositiveVariances.

Section PositiveVariancesLoop.

Context (ext : collaborators) (cov : matrix) (ordered : list nat).
Hypothesis ordered_nodup : NoDup ordered.
Hypothesis positive : positive_cluster_variances ext cov ordered.

(** The fold over the parents of one level keeps the invariant. *)
Lemma fold_mass (todo : list (list nat)) :
  forall (done : list (list nat)) (g u : nat -> Qc),
  NoDup (concat (done ++ todo)) ->
  incl (concat (done ++ todo)) ordered ->
  mass_inv ordered done todo g u ->
  exists g' u',
    foldM (split_and_allocate ext cov) (splittable todo) (series_of ordered g) =
    Ok (series_of ordered g') /\
    mass_inv ordered (done ++ todo) [] g' u'.
Proof using ordered_nodup positive.
  induction todo as [|p todo IH]; intros done g u Hnd Hincl Hinv.
  - exists g, u. split; [reflexivity|]. rewrite app_nil_r. exact Hinv.
  - assert (Eapp : done ++ p :: todo = (done ++ [p]) ++ todo)
      by (rewrite <- app_assoc; reflexivity).
    rewrite Eapp in Hnd, Hincl |- *.
    assert (Hparts : NoDup p /\
                     (forall k, In k p -> ~ In k (concat done)) /\
                     (forall k, In k p -> ~ In k (concat todo)) /\
                     incl p ordered).
    { pose proof Hnd as Hnd'.
      rewrite !concat_app in Hnd'. cbn [concat] in Hnd'.
      rewrite app_nil_r in Hnd'.
      destruct (nodup_app_parts _ _ Hnd') as (H1 & _ & H2).
      destruct (nodup_app_parts _ _ H1) as (_ & H3 & H4).
      split; [exact H3|]. split; [|split].
      - intros k Hk Hin. exact (H4 k Hin Hk).
      - intros k Hk. apply H2. apply in_or_app. right. exact Hk.
      - intros k Hk. apply Hincl. rewrite !concat_app. cbn [concat].
        rewrite app_nil_r. apply in_or_app. left. apply in_or_app. right.
        exact Hk. }
    destruct Hparts as (Hp & Hpd & Hpt & Hpo).
    destruct Hinv as (IN & IC & IU & IO & IM).
    assert (Hp_in : In p (bisect done ++ p :: todo))
      by (apply in_or_app; right; left; reflexivity).
    assert (Hp_old : forall c k, In c (bisect done) \/ In c todo -> In k c ->
                                 ~ In k p).
    { intros c k [Hc|Hc] Hk Hkp.
      - apply (Hpd k Hkp). eapply in_bisect_concat; eauto.
      - apply (Hpt k Hkp). apply in_concat. eauto. }
    unfold splittable. cbn [filter]. fold (splittable todo).
    destruct (1 <? length p) eqn:E.
    + apply Nat.ltb_lt in E. cbn [foldM].
      destruct (split_and_allocate_positive ext cov ordered positive p g
                  E Hp Hpo) as (a & Ha0 & Ha1 & Hsplit).
      rewrite Hsplit. cbn [bind].
      destruct (halves_nodup p Hp) as (Dl & Dr & Hdis).
      set (u' := fun k =>
                   if in_dec Nat.eq_dec k (left_half p)
                   then (1 / Qc_of_nat (length (left_half p)))%Qc
                   else if in_dec Nat.eq_dec k (right_half p)
                        then (1 / Qc_of_nat (length (right_half p)))%Qc
                        else u k).
      apply (IH (done ++ [p]) (reweigh a p g) u'); [exact Hnd|exact Hincl|].
      assert (Hbis : bisect (done ++ [p]) =
                     bisect done ++ [left_half p; right_half p]).
      { rewrite bisect_app, bisect_one.
        apply Nat.ltb_lt in E. rewrite E. reflexivity. }
      assert (Hcases : forall c, In c (bisect (done ++ [p]) ++ todo) ->
                (In c (bisect done) \/ In c todo) \/
                c = left_half p \/ c = right_half p).
      { intros c Hc. rewrite Hbis in Hc. apply in_app_or in Hc.
        destruct Hc as [Hc|Hc]; [|tauto]. apply in_app_or in Hc.
        destruct Hc as [Hc|[<-|[<-|[]]]]; tauto. }
      assert (Hold : forall c, In c (bisect done) \/ In c todo ->
                In c (bisect done ++ p :: todo)).
      { intros c [Hc|Hc]; apply in_or_app; [left|right; right]; exact Hc. }
      assert (Hu'_out : forall k, ~ In k p -> u' k = u k).
      { intros k Hk. unfold u'.
        destruct (in_dec Nat.eq_dec k (left_half p)) as [Hin|_];
          [exfalso; apply Hk, in_halves; tauto|].
        destruct (in_dec Nat.eq_dec k (right_half p)) as [Hin|_];
          [exfalso; apply Hk, in_halves; tauto|].
        reflexivity. }
      split; [|split; [|split; [|split]]].
      * intros k. apply reweigh_nonneg; auto.
      * intros c k k' Hc Hk Hk'. destruct (Hcases c Hc) as [Ho|[-> | ->]].
        -- rewrite !reweigh_outside by (eapply Hp_old; eauto).
           apply (IC c); auto.
        -- rewrite !reweigh_left by assumption. f_equal.
           apply (IC p); [exact Hp_in| |]; apply in_halves; tauto.
        -- rewrite !reweigh_right by assumption. f_equal.
           apply (IC p); [exact Hp_in| |]; apply in_halves; tauto.
      * intros c k Hc Hk. destruct (Hcases c Hc) as [Ho|[-> | ->]].
        -- rewrite Hu'_out by (eapply Hp_old; eauto). apply IU; auto.
        -- unfold u'.
           destruct (in_dec Nat.eq_dec k (left_half p)); [reflexivity|contradiction].
        -- unfold u'.
           destruct (in_dec Nat.eq_dec k (left_half p)) as [Hin|_];
             [exfalso; exact (Hdis k Hin Hk)|].
           destruct (in_dec Nat.eq_dec k (right_half p)); [reflexivity|contradiction].
      * intros k Hk Hnot.
        assert (Hkp : ~ In k p).
        { intros Hkp. apply Hnot. rewrite Hbis, !concat_app. cbn [concat].
          rewrite app_nil_r, halves_join. apply in_or_app. left.
          apply in_or_app. right. exact Hkp. }
        rewrite Hu'_out by exact Hkp. apply IO; [exact Hk|].
        intros Hin. apply Hnot. rewrite concat_app in Hin |- *.
        apply in_app_or in Hin. apply in_or_app.
        destruct Hin as [Hin|Hin].
        -- left. rewrite Hbis, concat_app. apply in_or_app. left. exact Hin.
        -- cbn [concat] in Hin. apply in_app_or in Hin.
           destruct Hin as [Hin|Hin]; [contradiction|right; exact Hin].
      * rewrite <- IM. unfold u'.
        apply (split_keeps_mass ordered ordered_nodup p a g u E Hp Hpo).
        -- intros k k' Hk Hk'. apply (IC p); assumption.
        -- intros k Hk. apply (IU p); assumption.
    + apply Nat.ltb_ge in E.
      apply (IH (done ++ [p]) g u); [exact Hnd|exact Hincl|].
      assert (Hbis : bisect (done ++ [p]) = bisect done).
      { rewrite bisect_app, bisect_one.
        assert (E' : (1 <? length p) = false) by (apply Nat.ltb_ge; exact E).
        rewrite E'. apply app_nil_r. }
      unfold mass_inv. rewrite Hbis.
      assert (Hold : forall c, In c (bisect done ++ todo) ->
                In c (bisect done ++ p :: todo)).
      { intros c Hc. apply in_app_or in Hc. apply in_or_app.
        destruct Hc as [Hc|Hc]; [left|right; right]; exact Hc. }
      split; [exact IN|]. split; [|split; [|split]].
      * intros c k k' Hc. apply IC, Hold, Hc.
      * intros c k Hc. apply IU, Hold, Hc.
      * intros k Hk Hnot.
        destruct (in_dec Nat.eq_dec k p) as [Hkp|Hnkp].
        -- rewrite (IU p k Hp_in Hkp).
           assert (El : length p = 1)
             by (destruct p; [destruct Hkp|simpl in *; lia]).
           rewrite El. apply Qc_is_canon. reflexivity.
        -- apply IO; [exact Hk|]. intros Hin. apply Hnot.
           rewrite concat_app in Hin |- *. apply in_app_or in Hin.
           apply in_or_app. destruct Hin as [Hin|Hin]; [left; exact Hin|].
           cbn [concat] in Hin. apply in_app_or in Hin.
           destruct Hin as [Hin|Hin]; [contradiction|right; exact Hin].
      * exact IM.
Qed.

(** One level, from the clusters to their halves. *)
Lemma level_mass (clusters : list (list nat)) (g u : nat -> Qc) :
  NoDup (concat clusters) ->
  incl (concat clusters) ordered ->
  mass_inv ordered [] clusters g u ->
  exists g' u',
    pair_loop ext cov (bisect clusters) (series_of ordered g) =
    Ok (series_of ordered g') /\
    mass_inv ordered [] (bisect clusters) g' u'.
Proof using ordered_nodup positive.
  intros Hnd Hincl Hinv.
  destruct (fold_mass clusters [] g u Hnd Hincl Hinv) as (g' & u' & Hfold & Hinv').
  exists g', u'. rewrite pair_loop_splittable. split; [exact Hfold|].
  cbn [app] in Hinv'. unfold mass_inv in *.
  rewrite app_nil_r in Hinv'. exact Hinv'.
Qed.

(** The loop: with fuel above the size of every cluster it ends with
    non-negative weights that sum to one. *)
Lemma bipart_loop_mass (fuel : nat) :
  forall (clusters : list (list nat)) (g u : nat -> Qc),
  NoDup (concat clusters) ->
  incl (concat clusters) ordered ->
  mass_inv ordered [] clusters g u ->
  1 <= fuel ->
  (forall c, In c clusters -> S (length c) < fuel) ->
  exists g',
    bipart_loop ext fuel cov clusters (series_of ordered g) =
      Ok (series_of ordered g') /\
    (forall k, (0 <= g' k)%Qc) /\
    qsum (map g' ordered) = 1%Qc.
Proof using ordered_nodup positive.
  induction fuel as [|fuel IH]; intros clusters g u Hnd Hincl Hinv Hfuel Hsize;
    [lia|].
  destruct clusters as [|c cs].
  - exists g. split; [reflexivity|].
    destruct Hinv as (IN & _ & _ & IO & IM). split; [exact IN|].
    rewrite <- IM. apply qsum_ext_in. intros k Hk.
    rewrite (IO k Hk) by (intros []). ring.
  - cbn [bipart_loop].
    destruct (level_mass (c :: cs) g u Hnd Hincl Hinv) as (g1 & u1 & Hloop & Hinv1).
    rewrite Hloop. cbn [bind].
    apply (IH _ g1 u1).
    + apply concat_bisect_nodup, Hnd.
    + intros k Hk. apply Hincl. apply in_concat in Hk.
      destruct Hk as (h & Hh & Hk). eapply in_bisect_concat; eauto.
    + exact Hinv1.
    + specialize (Hsize c (or_introl eq_refl)). lia.
    + intros h Hh. apply in_bisect in Hh. destruct Hh as (p & Hp & Hlen & E).
      specialize (Hsize p Hp). pose proof (halves_total p) as Ht.
      destruct (halves_nonempty p Hlen) as [Nl Nr].
      pose proof (nonempty_length _ Nl). pose proof (nonempty_length _ Nr).
      destruct E as [->| ->]; lia.
Qed.

End PositiveVariancesLoop.

(** The weights [_getRecBipart] returns on positive cluster variances
    are non-negative and sum to one. *)
Lemma getRecBipart_weights (ext : collaborators) (fuel : nat) (cov : matrix)
    (assets : list string) (ordered : list nat) :
  ordered <> [] -> NoDup ordered ->
  (forall k, In k ordered -> k < length assets) ->
  positive_cluster_variances ext cov ordered ->
  S (length ordered) < fuel ->
  exists weights,
    _getRecBipart ext fuel cov assets ordered = Ok weights /\
    map fst weights = map (fun i => nth i assets "") ordered /\
    Forall (fun kv => (0 <= snd kv)%Qc) weights /\
    qsum (map snd weights) = 1%Qc.
Proof.
  intros Hne Hnd Hb Hpos Hfuel.
  pose proof (Qc_of_nat_nonzero _ (nonempty_length _ Hne)) as NN.
  unfold _getRecBipart.
  change (map (fun i => (i, 1%Qc)) ordered)
    with (series_of ordered (fun _ => 1%Qc)).
  destruct (bipart_loop_mass ext cov ordered Hnd Hpos fuel [ordered]
              (fun _ => 1%Qc)
              (fun _ => (1 / Qc_of_nat (length ordered))%Qc))
    as (g & Hloop & Hg0 & Hg1).
  - cbn [concat]. rewrite app_nil_r. exact Hnd.
  - cbn [concat]. rewrite app_nil_r. apply incl_refl.
  - split; [intros _; discriminate|]. split; [reflexivity|].
    split; [|split].
    + intros c k [<-|[]] _. reflexivity.
    + intros k Hk Hnot. exfalso. apply Hnot.
      change (bisect []) with (@nil (list nat)). cbn [app concat].
      rewrite app_nil_r. exact Hk.
    + rewrite qsum_const. field. exact NN.
  - lia.
  - intros c [<-|[]]. exact Hfuel.
  - rewrite Hloop. cbn [bind]. rewrite labels_of_assets by exact Hb.
    cbn [bind]. eexists. split; [reflexivity|].
    unfold series_of. rewrite map_map. cbn [snd].
    split; [|split].
    + apply map_fst_combine. rewrite !length_map. reflexivity.
    + apply Forall_forall. intros kv Hkv. apply (in_map snd) in Hkv.
      rewrite map_snd_combine in Hkv by (rewrite !length_map; reflexivity).
      apply in_map_iff in Hkv. destruct Hkv as (k & <- & _). apply Hg0.
    + rewrite map_snd_combine by (rewrite !length_map; reflexivity).
      exact Hg1.
Qed.

(** ** Rounding *)

Lemma rint_lower (z : Z) (q : Qc) : (inject_Z z <= q)%Q -> (z <= rint q)%Z.
Proof.
  intros H. unfold rint.
  assert (Hf : (z <= Qfloor q)%Z).
  { rewrite <- (Qfloor_Z z). apply Qfloor_resp_le. exact H. }
  destruct (Qccompare _ _); [destruct (Z.even _)| |]; lia.
Qed.

Lemma pow10_pos (n : nat) : (0 < pow10 n)%Qc.
Proof.
  unfold pow10, Qclt. cbn [this Q2Qc]. rewrite !Qred_correct.
  change 0%Q with (inject_Z 0). rewrite <- Zlt_Qlt.
  apply Z.pow_pos_nonneg; lia.
Qed.

Lemma Q2Qc_inject_Z_le (a b : Z) :
  (a <= b)%Z -> (Q2Qc (inject_Z a) <= Q2Qc (inject_Z b))%Qc.
Proof.
  intros H. unfold Qcle. cbn [this Q2Qc]. rewrite !Qred_correct.
  rewrite <- Zle_Qle. exact H.
Qed.

Lemma Qcdiv_nonneg (x y : Qc) : (0 <= x -> 0 < y -> 0 <= x / y)%Qc.
Proof.
  intros Hx Hy. destruct (Qcle_lt_or_eq _ _ Hx) as [Hlt| <-].
  - apply Qclt_le_weak, Qcdiv_pos; assumption.
  - replace (0 / y)%Qc with 0%Qc by (field; apply Qclt_neq, Hy).
    apply Qcle_refl.
Qed.

Lemma Qcmult_this (x y : Qc) : (this (x * y)%Qc == this x * this y)%Q.
Proof. unfold Qcmult. cbn [this Q2Qc]. apply Qred_correct. Qed.

Lemma round_dec_nonneg (n : nat) (q : Qc) :
  (0 <= q)%Qc -> (0 <= round_dec n q)%Qc.
Proof.
  intros H. unfold round_dec. apply Qcdiv_nonneg; [|apply pow10_pos].
  change 0%Qc with (Q2Qc (inject_Z 0)). apply Q2Qc_inject_Z_le.
  apply rint_lower. rewrite Qcmult_this. change (inject_Z 0) with 0%Q.
  apply Qmult_le_0_compat; [exact H|].
  apply Qlt_le_weak. exact (pow10_pos n).
Qed.

Lemma round_dec_pos (n : nat) (q : Qc) :
  (1 <= q * pow10 n)%Qc -> (0 < round_dec n q)%Qc.
Proof.
  intros H. unfold round_dec. apply Qcdiv_pos; [|apply pow10_pos].
  apply Qclt_le_trans with (y := Q2Qc (inject_Z 1)).
  - unfold Qclt. cbn [this Q2Qc]. rewrite !Qred_correct. reflexivity.
  - apply Q2Qc_inject_Z_le. apply rint_lower. exact H.
Qed.

(** ** The post-processing *)

Lemma assoc_map_values {V W : Type} (h : V -> W) (l : list (string * V))
    (name : string) :
  assoc name (map (fun kv => (fst kv, h (snd kv))) l) =
  option_map h (assoc name l).
Proof.
  induction l as [|[k v] l IH]; [reflexivity|].
  cbn [map assoc fst snd]. destruct (String.eqb name k); [reflexivity|exact IH].
Qed.

Lemma assoc_in {V : Type} (l : list (string * V)) (k : string) (v : V) :
  NoDup (map fst l) -> In (k, v) l -> assoc k l = Some v.
Proof.
  induction l as [|[k' v'] l IH]; intros Hnd Hin; [destruct Hin|].
  cbn [map fst] in Hnd. inversion Hnd as [|x m Hk Hnd']; subst.
  cbn [assoc]. destruct Hin as [E|Hin].
  - injection E as -> ->. rewrite String.eqb_refl. reflexivity.
  - destruct (String.eqb_spec k k') as [->|_]; [|apply IH; assumption].
    exfalso. apply Hk. apply (in_map fst) in Hin. exact Hin.
Qed.

Lemma assoc_some_in_keys {V : Type} (l : list (string * V)) (k : string) :
  In k (map fst l) -> assoc k l <> None.
Proof.
  induction l as [|[k' v'] l IH]; intros Hin; [destruct Hin|].
  cbn [assoc]. destruct (String.eqb_spec k k') as [->|Hne]; [discriminate|].
  apply IH. destruct Hin as [E|Hin]; [simpl in E; congruence|exact Hin].
Qed.

Lemma filter_keeps_all {A : Type} (keep : A -> bool) (l : list A) :
  Forall (fun a => keep a = true) l -> filter keep l = l.
Proof.
  induction 1 as [|a l Ha _ IH]; [reflexivity|].
  cbn [filter]. rewrite Ha, IH. reflexivity.
Qed.

Lemma mark_not_missing (q : Qc) : isna (mark q) = false.
Proof. unfold mark. destruct (Qc_eq_bool q 0); reflexivity. Qed.

Lemma cell_weight_mark (q : Qc) : cell_weight (mark q) = q.
Proof.
  unfold mark. destruct (Qc_eq_bool q 0) eqn:E; [|reflexivity].
  apply Qc_eq_bool_correct in E. subst. reflexivity.
Qed.

(** What the post-processing returns: every asset keeps its column; the
    cell is the rounded weight over the sum of the rounded weights, or
    the string ['nan'] when that is zero. *)
Lemma post_process_spec (asset_names : list string) (Portifolio : series string) :
  qsum (map (fun kv => round_dec 8 (snd kv)) Portifolio) <> 0%Qc ->
  (forall name, In name asset_names -> assoc name Portifolio <> None) ->
  post_process asset_names Portifolio =
  Ok (map (fun name =>
             (name,
              mark (round_dec 8 (weight_of Portifolio name) /
                    qsum (map (fun kv => round_dec 8 (snd kv)) Portifolio))%Qc))
          asset_names).
Proof.
  intros Htotal Hkeys. unfold post_process.
  rewrite map_map. cbn [snd].
  set (total := qsum (map (fun kv : string * Qc => round_dec 8 (snd kv)) Portifolio))
    in *.
  rewrite (mapM_ok _ (fun kv : string * Qc => (fst kv, (snd kv / total)%Qc)))
    by (intros kv _; rewrite qdiv_nonzero by exact Htotal; reflexivity).
  cbn [bind].
  rewrite (mapM_ok _
             (fun name =>
                (name, mark (round_dec 8 (weight_of Portifolio name) / total)%Qc))).
  - cbn [bind]. f_equal. apply filter_keeps_all, Forall_forall. intros kc Hkc.
    apply in_map_iff in Hkc. destruct Hkc as (name & <- & _). cbn [snd].
    rewrite mark_not_missing. reflexivity.
  - intros name Hname.
    change (fun kv : string * Qc =>
              (fst kv, if Qc_eq_bool (snd kv) 0 then CellStr "nan"
                       else CellNum (snd kv)))
      with (fun kv : string * Qc => (fst kv, mark (snd kv))).
    rewrite (assoc_map_values mark).
    rewrite (assoc_map_values (fun v => (v / total)%Qc)).
    rewrite (assoc_map_values (round_dec 8)).
    unfold weight_of. specialize (Hkeys name Hname).
    destruct (assoc name Portifolio); [reflexivity|contradiction].
Qed.

Lemma qsum_perm (l l' : list Qc) : Permutation l l' -> qsum l = qsum l'.
Proof.
  induction 1 as [|x l l' _ IH|x y l|l l' l'' _ IH1 _ IH2];
    rewrite ?qsum_cons.
  - reflexivity.
  - rewrite IH. reflexivity.
  - ring.
  - congruence.
Qed.

(** The numbers of the returned table sum to one. *)
Lemma post_process_sum (asset_names : list string) (Portifolio : series string) :
  qsum (map (fun kv => round_dec 8 (snd kv)) Portifolio) <> 0%Qc ->
  NoDup asset_names ->
  Permutation asset_names (map fst Portifolio) ->
  qsum (map (fun name =>
               cell_weight
                 (mark (round_dec 8 (weight_of Portifolio name) /
                        qsum (map (fun kv => round_dec 8 (snd kv)) Portifolio))%Qc))
            asset_names) = 1%Qc.
Proof.
  intros Htotal Hnd Hperm.
  set (total := qsum (map (fun kv : string * Qc => round_dec 8 (snd kv)) Portifolio))
    in *.
  rewrite (qsum_ext_in _
             (fun name => (round_dec 8 (weight_of Portifolio name) * / total)%Qc))
    by (intros name _; apply cell_weight_mark).
  rewrite qsum_scale.
  assert (E : qsum (map (fun name => round_dec 8 (weight_of Portifolio name))
                        asset_names) = total).
  { rewrite (qsum_perm _ _ (Permutation_map _ Hperm)). rewrite map_map.
    unfold total. apply qsum_ext_in. intros [k v] Hkv. cbn [fst snd].
    unfold weight_of. rewrite (assoc_in Portifolio k v); [reflexivity| |exact Hkv].
    eapply Permutation_NoDup; [exact Hperm|exact Hnd]. }
  rewrite E. field. exact Htotal.
Qed.

(** ** The weights [optimize] reports *)

Lemma Qcplus_lt_le_compat (x y z t : Qc) :
  (x < y)%Qc -> (z <= t)%Qc -> (x + z < y + t)%Qc.
Proof.
  unfold Qclt, Qcle, Qcplus. cbn [this Q2Qc]. rewrite !Qred_correct.
  intros H1 H2. lra.
Qed.

Lemma qsum_le_member (l : list Qc) (x : Qc) :
  (forall y, In y l -> (0 <= y)%Qc) -> In x l -> (x <= qsum l)%Qc.
Proof.
  induction l as [|y l IH]; intros Hpos Hin; [destruct Hin|].
  rewrite qsum_cons.
  assert (Hl : (0 <= qsum l)%Qc)
    by (apply qsum_nonneg; intros z Hz; apply Hpos; right; exact Hz).
  destruct Hin as [->|Hin].
  - replace x with (x + 0)%Qc at 1 by ring.
    apply Qcplus_le_compat; [apply Qcle_refl|exact Hl].
  - replace x with (0 + x)%Qc by ring.
    apply Qcplus_le_compat; [apply Hpos; left; reflexivity|].
    apply IH; [|exact Hin]. intros z Hz. apply Hpos. right. exact Hz.
Qed.

Lemma qsum_lt_bound (l : list Qc) (c : Qc) :
  l <> [] -> (forall x, In x l -> (x < c)%Qc) ->
  (qsum l < Qc_of_nat (length l) * c)%Qc.
Proof.
  induction l as [|x l IH]; intros Hne H; [congruence|].
  rewrite qsum_cons. cbn [length]. rewrite Qc_of_nat_S.
  replace ((Qc_of_nat (length l) + 1) * c)%Qc
    with (c + Qc_of_nat (length l) * c)%Qc by ring.
  apply Qcplus_lt_le_compat; [apply H; left; reflexivity|].
  destruct l as [|y l'].
  - change (Qc_of_nat (length [])) with 0%Qc. cbn [qsum fold_right].
    replace (0 * c)%Qc with 0%Qc by ring. apply Qcle_refl.
  - apply Qclt_le_weak. apply IH; [discriminate|].
    intros z Hz. apply H. right. exact Hz.
Qed.

(** Among weights that sum to one, one is at least the average. *)
Lemma exists_large_weight (l : list Qc) :
  l <> [] -> qsum l = 1%Qc ->
  exists x, In x l /\ (1 / Qc_of_nat (length l) <= x)%Qc.
Proof.
  intros Hne Hsum.
  destruct (Exists_dec (fun x => (1 / Qc_of_nat (length l) <= x)%Qc) l)
    as [Hex|Hnex].
  - intros x. destruct (Qclt_le_dec x (1 / Qc_of_nat (length l))) as [H|H].
    + right. apply Qclt_not_le, H.
    + left. exact H.
  - apply Exists_exists in Hex. exact Hex.
  - exfalso.
    assert (Hall : forall x, In x l -> (x < 1 / Qc_of_nat (length l))%Qc).
    { intros x Hx. apply Qcnot_le_lt. intros Hle. apply Hnex.
      apply Exists_exists. exists x. split; assumption. }
    pose proof (qsum_lt_bound l _ Hne Hall) as Hlt. rewrite Hsum in Hlt.
    replace (Qc_of_nat (length l) * (1 / Qc_of_nat (length l)))%Qc with 1%Qc
      in Hlt by (field; apply Qc_of_nat_nonzero, nonempty_length, Hne).
    exact (Qclt_not_eq _ _ Hlt eq_refl).
Qed.

(** With at most [10^8] weights that sum to one, one of them is still
    positive after the rounding at eight decimals. *)
Lemma large_weight_survives (n : nat) (x : Qc) :
  0 < n -> (Z.of_nat n <= 10 ^ 8)%Z ->
  (1 / Qc_of_nat n <= x)%Qc -> (0 < round_dec 8 x)%Qc.
Proof.
  intros Hn Hbound Hx. apply round_dec_pos.
  pose proof (Qc_of_nat_pos n Hn) as Pn.
  apply Qcle_trans with (y := (1 / Qc_of_nat n * pow10 8)%Qc).
  - apply Qcmult_lt_0_le_reg_r with (z := Qc_of_nat n); [exact Pn|].
    replace (1 / Qc_of_nat n * pow10 8 * Qc_of_nat n)%Qc with (pow10 8)
      by (field; apply Qclt_neq, Pn).
    replace (1 * Qc_of_nat n)%Qc with (Qc_of_nat n) by ring.
    unfold Qc_of_nat, pow10. apply Q2Qc_inject_Z_le. exact Hbound.
  - apply Qcmult_le_compat_r; [exact Hx|].
    apply Qclt_le_weak, pow10_pos.
Qed.

Lemma map_nth_seq {A : Type} (l : list A) (d : A) :
  map (fun i => nth i l d) (seq 0 (length l)) = l.
Proof.
  induction l as [|a l IH]; [reflexivity|].
  cbn [length seq map nth]. f_equal.
  rewrite <- seq_shift, map_map. exact IH.
Qed.

Lemma mark_cases (q : Qc) :
  (0 <= q)%Qc ->
  mark q = CellStr "nan" \/ (mark q = CellNum q /\ (0 < q)%Qc).
Proof.
  intros Hq. unfold mark. destruct (Qc_eq_bool q 0) eqn:E; [left; reflexivity|].
  right. split; [reflexivity|].
  destruct (Qcle_lt_or_eq _ _ Hq) as [Hlt|Heq]; [exact Hlt|].
  subst q. unfold Qc_eq_bool in E. destruct (Qc_eq_dec 0 0); congruence.
Qed.

Lemma weight_of_nonneg (Portifolio : series string) (name : string) :
  Forall (fun kv => (0 <= snd kv)%Qc) Portifolio ->
  (0 <= weight_of Portifolio name)%Qc.
Proof.
  intros H. unfold weight_of.
  induction Portifolio as [|[k v] l IH]; cbn [assoc]; [apply Qcle_refl|].
  inversion H as [|x m Hv Hl]; subst.
  destruct (String.eqb name k); [exact Hv|apply IH, Hl].
Qed.

(** From the linkage matrix to the table, on a well-formed merge tree
    and positive cluster variances. *)
Lemma allocate_weights (ext : collaborators) (fuel : nat)
    (asset_names : list string) (risk_matrix : matrix) (clusters : list merge) :
  1 <= length asset_names ->
  (Z.of_nat (length asset_names) <= 10 ^ 8)%Z ->
  NoDup asset_names ->
  well_formed_tree (length asset_names) clusters ->
  positive_cluster_variances ext risk_matrix (seq 0 (length asset_names)) ->
  2 * length asset_names < fuel ->
  exists t,
    allocate ext fuel asset_names risk_matrix clusters = Ok t /\
    map fst t = asset_names /\
    Forall (fun kc => snd kc = CellStr "nan" \/
                      exists q, snd kc = CellNum q /\ (0 < q)%Qc) t /\
    qsum (map (fun kc => cell_weight (snd kc)) t) = 1%Qc.
Proof.
  intros Hn Hbound Hnames Hwf Hpos Hfuel.
  set (n := length asset_names) in *.
  destruct (quasi_diag_root n clusters fuel Hn Hwf ltac:(lia))
    as (order & Hrun & Hperm).
  assert (Hlen : length order = n)
    by (rewrite (Permutation_length Hperm); apply length_seq).
  assert (Hnd : NoDup order)
    by (eapply Permutation_NoDup; [symmetry; exact Hperm|apply seq_NoDup]).
  assert (Hb : forall k, In k order -> k < n).
  { intros k Hk. apply (Permutation_in _ Hperm) in Hk. apply in_seq in Hk. lia. }
  assert (Hne : order <> []) by (intros ->; simpl in Hlen; lia).
  destruct (getRecBipart_weights ext fuel risk_matrix asset_names order Hne Hnd Hb)
    as (W & HW & Hkeys & Hnonneg & Hone).
  { intros idx H1 H2 H3. apply Hpos; try assumption.
    intros k Hk. apply (Permutation_in _ Hperm), H3, Hk. }
  { lia. }
  assert (Hlabels : Permutation asset_names (map fst W)).
  { rewrite Hkeys. rewrite <- (map_nth_seq asset_names "") at 1.
    apply Permutation_map. symmetry. exact Hperm. }
  assert (Hsnd_len : length (map snd W) = n).
  { rewrite length_map, <- (length_map fst W), Hkeys, length_map. exact Hlen. }
  assert (Htotal : (0 < qsum (map (fun kv => round_dec 8 (snd kv)) W))%Qc).
  { destruct (exists_large_weight (map snd W)) as (x & Hx & Hlarge).
    - intros E. rewrite E in Hsnd_len. simpl in Hsnd_len. lia.
    - exact Hone.
    - rewrite Hsnd_len in Hlarge.
      apply Qclt_le_trans with (y := round_dec 8 x).
      + apply (large_weight_survives n); [lia|exact Hbound|exact Hlarge].
      + rewrite <- (map_map snd (round_dec 8)).
        apply qsum_le_member; [|apply in_map, Hx].
        intros y Hy. apply in_map_iff in Hy. destruct Hy as (w & <- & Hw).
        apply round_dec_nonneg. apply in_map_iff in Hw.
        destruct Hw as (kv & <- & Hkv).
        rewrite Forall_forall in Hnonneg. apply Hnonneg, Hkv. }
  pose proof (Qclt_neq _ Htotal) as Ntotal.
  unfold allocate. fold n. rewrite Hrun. cbn [bind]. rewrite HW. cbn [bind].
  rewrite post_process_spec.
  - eexists. split; [reflexivity|]. split; [|split].
    + rewrite map_map. cbn [fst]. apply map_id.
    + apply Forall_forall. intros kc Hkc. apply in_map_iff in Hkc.
      destruct Hkc as (name & <- & _). cbn [snd].
      destruct (mark_cases
                  (round_dec 8 (weight_of W name) /
                   qsum (map (fun kv => round_dec 8 (snd kv)) W))%Qc)
        as [E|[E Hq]].
      * apply Qcdiv_nonneg; [|exact Htotal].
        apply round_dec_nonneg, weight_of_nonneg, Hnonneg.
      * left. exact E.
      * right. eexists. split; [exact E|exact Hq].
    + rewrite map_map. cbn [snd].
      apply post_process_sum; assumption.
  - exact Ntotal.
  - intros name Hname. apply assoc_some_in_keys.
    eapply Permutation_in; [exact Hlabels|exact Hname].
Qed.

(** On a datetime-indexed price table whose collaborators return a risk
    matrix with positive cluster variances and a well-formed merge tree
    (at most [10^8] assets, distinct labels), [optimize] returns a table
    with one column per asset, in the order of the assets; a cell holds
    either a positive weight or, where the weight rounded to zero, the
    string ['nan']; the weights sum to one. *)
Theorem optimize_weights (ext : collaborators) (fuel : nat) (self : instance)
    (prices : frame ext) (risk_matrix : matrix) (clusters : list merge) :
  estimate_and_cluster ext self
    (dropna_all_rows_then_columns ext (pct_change ext prices)) =
    Ok (risk_matrix, clusters) ->
  1 <= length (columns ext (dropna_all_rows_then_columns ext (pct_change ext prices))) ->
  (Z.of_nat (length (columns ext (dropna_all_rows_then_columns ext
                                    (pct_change ext prices)))) <= 10 ^ 8)%Z ->
  NoDup (columns ext (dropna_all_rows_then_columns ext (pct_change ext prices))) ->
  well_formed_tree
    (length (columns ext (dropna_all_rows_then_columns ext (pct_change ext prices))))
    clusters ->
  positive_cluster_variances ext risk_matrix
    (seq 0 (length (columns ext (dropna_all_rows_then_columns ext
                                   (pct_change ext prices))))) ->
  2 * length (columns ext (dropna_all_rows_then_columns ext (pct_change ext prices)))
    < fuel ->
  exists t,
    snd (optimize ext fuel self (ArgDataFrame true prices)) = Ok t /\
    map fst t =
      columns ext (dropna_all_rows_then_columns ext (pct_change ext prices)) /\
    Forall (fun kc => snd kc = CellStr "nan" \/
                      exists q, snd kc = CellNum q /\ (0 < q)%Qc) t /\
    qsum (map (fun kc => cell_weight (snd kc)) t) = 1%Qc.
Proof.
  intros Hec Hn Hbound Hnames Hwf Hpos Hfuel.
  unfold optimize. cbn [check_asset_prices]. rewrite Hec. cbn [snd].
  apply allocate_weights; assumption.
Qed.

Lemma stub_positive_variances (tree : outcome (list merge)) (n : nat) :
  positive_cluster_variances (stub tree) (equal_variance_matrix n 1%Qc) (seq 0 n).
Proof.
  intros idx Hne Hnd Hincl.
  exists (1 / Qc_of_nat (length idx))%Qc. split.
  - apply cluster_variance_equal; try assumption.
    + apply stub_uses_quadratic_form.
    + discriminate.
    + intros k Hk. apply Hincl, in_seq in Hk. lia.
  - apply Qcdiv_pos; [reflexivity|].
    apply Qc_of_nat_pos, nonempty_length, Hne.
Qed.

Lemma optimize_weights_witness :
  exists t,
    snd (optimize (stub (Ok one_merge)) 5 default_instance
           (ArgDataFrame true
              (StubFrame ["A"; "B"] (equal_variance_matrix 2 1%Qc)))) = Ok t /\
    map fst t = ["A"; "B"] /\
    Forall (fun kc => snd kc = CellStr "nan" \/
                      exists q, snd kc = CellNum q /\ (0 < q)%Qc) t /\
    qsum (map (fun kc => cell_weight (snd kc)) t) = 1%Qc.
Proof.
  apply (optimize_weights (stub (Ok one_merge)) 5 default_instance
           (StubFrame ["A"; "B"] (equal_variance_matrix 2 1%Qc))
           (equal_variance_matrix 2 1%Qc) one_merge).
  - reflexivity.
  - simpl. lia.
  - simpl. lia.
  - simpl. repeat constructor; simpl; intuition discriminate.
  - split; [reflexivity|]. split.
    + intros i row H. destruct i as [|i]; simpl in H;
        try discriminate; injection H as <-; simpl; lia.
    + simpl. repeat constructor; simpl; intuition lia.
  - apply (stub_positive_variances (Ok one_merge) 2).
  - simpl. lia.
Defined.

(** The post-processing drops no asset: when the rounded weights do not
    sum to zero the returned table has the assets of [asset_names], in
    that order, and the cell of an asset is the string ['nan'] exactly
    when its weight rounds to zero at eight decimals. *)
Theorem post_process_keeps_every_asset (asset_names : list string)
    (Portifolio : series string) :
  qsum (map (fun kv => round_dec 8 (snd kv)) Portifolio) <> 0%Qc ->
  (forall name, In name asset_names -> assoc name Portifolio <> None) ->
  exists t,
    post_process asset_names Portifolio = Ok t /\
    map fst t = asset_names /\
    forall name, In name asset_names ->
      exists c, In (name, c) t /\
        (c = CellStr "nan" <-> round_dec 8 (weight_of Portifolio name) = 0%Qc) /\
        (c <> CellStr "nan" ->
         c = CellNum (round_dec 8 (weight_of Portifolio name) /
                      qsum (map (fun kv => round_dec 8 (snd kv)) Portifolio))%Qc).
Proof.
  intros Htotal Hkeys. rewrite post_process_spec by assumption.
  eexists. split; [reflexivity|]. split.
  - rewrite map_map. cbn [fst]. apply map_id.
  - intros name Hname. eexists. split.
    + apply in_map_iff. exists name. split; [reflexivity|exact Hname].
    + set (r := round_dec 8 (weight_of Portifolio name)).
      set (total := qsum (map (fun kv => round_dec 8 (snd kv)) Portifolio)) in *.
      unfold mark. destruct (Qc_eq_bool (r / total) 0) eqn:E.
      * apply Qc_eq_bool_correct in E. split; [|intros H; congruence].
        split; [intros _|reflexivity].
        replace r with (r / total * total)%Qc by (field; exact Htotal).
        rewrite E. ring.
      * split; [|reflexivity]. split; [discriminate|].
        intros Hr. rewrite Hr in E.
        replace (0 / total)%Qc with 0%Qc in E by (field; exact Htotal).
        unfold Qc_eq_bool in E. destruct (Qc_eq_dec 0 0); congruence.
Qed.

Lemma post_process_keeps_every_asset_witness :
  exists t,
    post_process ["A"; "B"]
      [("A", Q2Qc (999999999 # 1000000000)); ("B", Q2Qc (1 # 1000000000))] = Ok t /\
    map fst t = ["A"; "B"] /\
    forall name, In name ["A"; "B"] ->
      exists c, In (name, c) t /\
        (c = CellStr "nan" <->
         round_dec 8
           (weight_of [("A", Q2Qc (999999999 # 1000000000));
                       ("B", Q2Qc (1 # 1000000000))] name) = 0%Qc) /\
        (c <> CellStr "nan" ->
         c = CellNum
               (round_dec 8
                  (weight_of [("A", Q2Qc (999999999 # 1000000000));
                              ("B", Q2Qc (1 # 1000000000))] name) /
                qsum (map (fun kv => round_dec 8 (snd kv))
                          [("A", Q2Qc (999999999 # 1000000000));
                           ("B", Q2Qc (1 # 1000000000))]))%Qc).
Proof.
  apply (post_process_keeps_every_asset ["A"; "B"]
           [("A", Q2Qc (999999999 # 1000000000)); ("B", Q2Qc (1 # 1000000000))]).
  - intros H. apply (f_equal this) in H. vm_compute in H. discriminate.
  - intros name [<-|[<-|[]]]; discriminate.
Defined.

(** * Further properties of the code *)

(** ** The allocation factor favours the less risky half *)

Lemma Qc_half_double (x : Qc) : (Q2Qc (1 # 2) * (x + x))%Qc = x.
Proof.
  replace (Q2Qc (1 # 2)) with (1 / (1 + 1))%Qc by (apply Qc_is_canon; reflexivity).
  field. discriminate.
Qed.

Lemma Qcmult_lt_reg_r (x y z : Qc) : (0 < z -> x * z < y * z -> x < y)%Qc.
Proof.
  intros Hz H. apply Qcnot_le_lt. intros Hle.
  apply (Qcle_not_lt _ _ (Qcmult_le_compat_r _ _ _ Hle (Qclt_le_weak _ _ Hz))).
  exact H.
Qed.

Lemma Qcplus_lt_compat_l (x y z : Qc) : (x < y -> z + x < z + y)%Qc.
Proof.
  intros H. rewrite (Qcplus_comm z x), (Qcplus_comm z y).
  apply Qcplus_lt_le_compat; [exact H|apply Qcle_refl].
Qed.

Lemma Qcplus_lt_reg_l (x y z : Qc) : (z + x < z + y -> x < y)%Qc.
Proof.
  intros H. apply Qcnot_le_lt. intros Hle.
  apply (Qcle_not_lt (z + y) (z + x)); [|exact H].
  apply Qcplus_le_compat; [apply Qcle_refl|exact Hle].
Qed.

Lemma Qcdiv_pos_iff (x d : Qc) : (0 < d -> (0 < x / d <-> 0 < x))%Qc.
Proof.
  intros Hd. split; [|intros Hx; apply Qcdiv_pos; assumption].
  intros H. apply (Qcmult_lt_compat_r _ _ d Hd) in H.
  replace (0 * d)%Qc with 0%Qc in H by ring.
  replace (x / d * d)%Qc with x in H by (field; apply Qclt_neq, Hd).
  exact H.
Qed.

Lemma alloc_factor_value (var_left var_right : Qc) :
  (var_left + var_right)%Qc <> 0%Qc ->
  alloc_factor var_left var_right =
  Ok (var_right / (var_left + var_right))%Qc.
Proof.
  intros Ns. unfold alloc_factor. rewrite qdiv_nonzero by exact Ns.
  cbn [bind]. f_equal. field. exact Ns.
Qed.

(** Lines 111-112: between two halves of positive cluster variance the
    factor of the left half is [var_right / (var_left + var_right)]; it
    lies strictly between 0 and 1, and it exceeds one half exactly when
    the left half is the less risky one. *)
Theorem alloc_factor_inverse_risk (var_left var_right : Qc) :
  (0 < var_left)%Qc -> (0 < var_right)%Qc ->
  exists a,
    alloc_factor var_left var_right = Ok a /\
    a = (var_right / (var_left + var_right))%Qc /\
    (1 - a)%Qc = (var_left / (var_left + var_right))%Qc /\
    (0 < a)%Qc /\ (0 < 1 - a)%Qc /\
    ((var_left < var_right)%Qc <-> (Q2Qc (1 # 2) < a)%Qc) /\
    (var_left = var_right <-> a = Q2Qc (1 # 2)).
Proof.
  intros Hl Hr.
  pose proof (Qcplus_pos _ _ Hl Hr) as Hs.
  pose proof (Qclt_neq _ Hs) as Ns.
  set (s := (var_left + var_right)%Qc) in *.
  assert (Ea : (1 - var_left / s)%Qc = (var_right / s)%Qc)
    by (unfold s; field; exact Ns).
  assert (Eb : (1 - var_right / s)%Qc = (var_left / s)%Qc)
    by (unfold s; field; exact Ns).
  assert (H2s : (0 < s + s)%Qc) by (apply Qcplus_pos; exact Hs).
  assert (Ediff : (var_right / s + - Q2Qc (1 # 2))%Qc =
                  ((var_right + - var_left) / (s + s))%Qc).
  { replace (Q2Qc (1 # 2)) with (1 / (1 + 1))%Qc
      by (apply Qc_is_canon; reflexivity).
    unfold s in *. field.
    repeat split;
      first [exact Ns | apply Qclt_neq; exact H2s | discriminate]. }
  exists (var_right / s)%Qc.
  split; [|split; [|split; [|split; [|split; [|split]]]]].
  - apply alloc_factor_value. exact Ns.
  - reflexivity.
  - exact Eb.
  - apply Qcdiv_pos; assumption.
  - rewrite Eb. apply Qcdiv_pos; assumption.
  - rewrite (Qclt_minus_iff (Q2Qc (1 # 2))), Ediff.
    rewrite (Qcdiv_pos_iff _ _ H2s). apply Qclt_minus_iff.
  - split.
    + intros E.
      assert (Hz : (var_right / s + - Q2Qc (1 # 2))%Qc = 0%Qc).
      { rewrite Ediff, E. field. apply Qclt_neq, H2s. }
      replace (var_right / s)%Qc
        with ((var_right / s + - Q2Qc (1 # 2)) + Q2Qc (1 # 2))%Qc by ring.
      rewrite Hz. ring.
    + intros E.
      assert (Hz : ((var_right + - var_left) / (s + s))%Qc = 0%Qc).
      { rewrite <- Ediff, E. ring. }
      apply (f_equal (fun x => (x * (s + s))%Qc)) in Hz.
      replace ((var_right + - var_left) / (s + s) * (s + s))%Qc
        with (var_right + - var_left)%Qc in Hz
        by (field; apply Qclt_neq, H2s).
      replace (0 * (s + s))%Qc with 0%Qc in Hz by ring.
      replace var_left with (var_left + 0)%Qc by ring.
      rewrite <- Hz. ring.
Qed.

Lemma alloc_factor_inverse_risk_witness :
  exists a,
    alloc_factor 1%Qc (Q2Qc (3 # 1)) = Ok a /\
    a = (Q2Qc (3 # 1) / (1 + Q2Qc (3 # 1)))%Qc /\
    (1 - a)%Qc = (1 / (1 + Q2Qc (3 # 1)))%Qc /\
    (0 < a)%Qc /\ (0 < 1 - a)%Qc /\
    ((1 < Q2Qc (3 # 1))%Qc <-> (Q2Qc (1 # 2) < a)%Qc) /\
    (1%Qc = Q2Qc (3 # 1) <-> a = Q2Qc (1 # 2)).
Proof.
  apply (alloc_factor_inverse_risk 1%Qc (Q2Qc (3 # 1))); reflexivity.
Defined.

(** ** Inverse-variance weights and cluster variance *)

Lemma iloc_square (n : nat) (m : matrix) (idx : list nat) :
  square n m -> (forall k, In k idx -> k < n) ->
  iloc m idx idx = Ok (map (fun i => map (entry m i) idx) idx).
Proof.
  intros [Hlen Hrows] Hb. unfold iloc. apply mapM_ok. intros i Hi.
  destruct (lookup_lt_is_Some_2 m i) as [r Hr]; [rewrite Hlen; apply Hb, Hi|].
  rewrite Hr. apply mapM_ok. intros j Hj.
  assert (Hrn : length r = n).
  { rewrite Forall_forall in Hrows. apply Hrows.
    apply list_elem_of_In. eapply list_elem_of_lookup_2. exact Hr. }
  destruct (lookup_lt_is_Some_2 r j) as [x Hx]; [rewrite Hrn; apply Hb, Hj|].
  unfold entry. rewrite Hr, Hx. reflexivity.
Qed.

Lemma np_diag_from_sub (f : nat -> nat -> Qc) (todo : list nat) :
  forall done all,
  all = done ++ todo ->
  np_diag_from (length done) (map (fun i => map (f i) all) todo) =
  map (fun i => f i i) todo.
Proof.
  induction todo as [|i todo IH]; intros done all E; [reflexivity|].
  cbn [map np_diag_from].
  assert (Hi : map (f i) all !! length done = Some (f i i)).
  { rewrite list_lookup_fmap, E, lookup_app_r by lia.
    rewrite Nat.sub_diag. reflexivity. }
  rewrite Hi. f_equal.
  specialize (IH (done ++ [i]) all).
  rewrite length_app in IH. cbn [length] in IH.
  replace (length done + 1) with (S (length done)) in IH by lia.
  apply IH. rewrite <- app_assoc. exact E.
Qed.

Lemma np_diag_sub (f : nat -> nat -> Qc) (idx : list nat) :
  np_diag (map (fun i => map (f i) idx) idx) = map (fun i => f i i) idx.
Proof. exact (np_diag_from_sub f idx [] idx eq_refl). Qed.

Lemma qsum_pos (l : list Qc) :
  l <> [] -> Forall (fun x => (0 < x)%Qc) l -> (0 < qsum l)%Qc.
Proof.
  intros Hne H. destruct l as [|x l]; [congruence|].
  inversion H as [|y m Hx Hl]; subst. rewrite qsum_cons.
  apply Qclt_le_trans with (y := x); [exact Hx|].
  replace x with (x + 0)%Qc at 1 by ring.
  apply Qcplus_le_compat; [apply Qcle_refl|].
  apply qsum_nonneg. intros y Hy. rewrite Forall_forall in Hl.
  apply Qclt_le_weak, Hl, Hy.
Qed.

Lemma getIVP_value (cov : matrix) :
  Forall (fun d => d <> 0%Qc) (np_diag cov) ->
  qsum (map (fun d => (1 / d)%Qc) (np_diag cov)) <> 0%Qc ->
  _getIVP cov =
  Ok (map (fun d => (1 / d / qsum (map (fun e => (1 / e)%Qc) (np_diag cov)))%Qc)
          (np_diag cov)).
Proof.
  intros Hd Ht. unfold _getIVP.
  rewrite (mapM_ok (qdiv 1) (fun d => (1 / d)%Qc)).
  - cbn [bind]. rewrite qdiv_nonzero by exact Ht. cbn [bind].
    rewrite map_map. f_equal. apply map_ext_in. intros d Hin.
    rewrite Forall_forall in Hd. field. split; [apply Hd, Hin|exact Ht].
  - intros d Hin. rewrite Forall_forall in Hd. apply qdiv_nonzero, Hd, Hin.
Qed.

(** Lines 85-88: on a risk matrix whose diagonal is positive, [_getIVP]
    returns one weight per asset, each the inverse of the asset's
    variance over the sum of the inverses; the weights are positive and
    sum to one. *)
Theorem getIVP_weights (cov : matrix) :
  np_diag cov <> [] ->
  Forall (fun d => (0 < d)%Qc) (np_diag cov) ->
  exists w,
    _getIVP cov = Ok w /\
    w = map (fun d => (1 / d / qsum (map (fun e => (1 / e)%Qc) (np_diag cov)))%Qc)
            (np_diag cov) /\
    length w = length (np_diag cov) /\
    Forall (fun x => (0 < x)%Qc) w /\
    qsum w = 1%Qc.
Proof.
  intros Hne Hpos.
  assert (Hinv : Forall (fun x => (0 < x)%Qc)
                        (map (fun d => (1 / d)%Qc) (np_diag cov))).
  { apply Forall_forall. intros x Hx. apply in_map_iff in Hx.
    destruct Hx as (d & <- & Hd). rewrite Forall_forall in Hpos.
    apply Qcdiv_pos; [reflexivity|apply Hpos, Hd]. }
  assert (Ht : (0 < qsum (map (fun d => (1 / d)%Qc) (np_diag cov)))%Qc).
  { apply qsum_pos; [|exact Hinv]. intros E. apply Hne.
    apply map_eq_nil in E. exact E. }
  eexists. split; [|split; [reflexivity|split; [|split]]].
  - apply getIVP_value; [|apply Qclt_neq, Ht].
    apply Forall_forall. intros d Hd. rewrite Forall_forall in Hpos.
    apply Qclt_neq, Hpos, Hd.
  - apply length_map.
  - apply Forall_forall. intros x Hx. apply in_map_iff in Hx.
    destruct Hx as (d & <- & Hd). rewrite Forall_forall in Hpos.
    apply Qcdiv_pos; [|exact Ht]. apply Qcdiv_pos; [reflexivity|apply Hpos, Hd].
  - rewrite (qsum_ext_in _
      (fun d => (1 / d * / qsum (map (fun e => (1 / e)%Qc) (np_diag cov)))%Qc))
      by (intros d _; reflexivity).
    rewrite qsum_scale.
    apply Qcmult_inv_r. apply Qclt_neq, Ht.
Qed.

Lemma getIVP_weights_witness :
  exists w,
    _getIVP [[1%Qc; 0%Qc]; [0%Qc; Q2Qc (3 # 1)]] = Ok w /\
    w = map (fun d =>
               (1 / d /
                qsum (map (fun e => (1 / e)%Qc)
                          (np_diag [[1%Qc; 0%Qc]; [0%Qc; Q2Qc (3 # 1)]])))%Qc)
            (np_diag [[1%Qc; 0%Qc]; [0%Qc; Q2Qc (3 # 1)]]) /\
    length w = length (np_diag [[1%Qc; 0%Qc]; [0%Qc; Q2Qc (3 # 1)]]) /\
    Forall (fun x => (0 < x)%Qc) w /\
    qsum w = 1%Qc.
Proof.
  apply (getIVP_weights [[1%Qc; 0%Qc]; [0%Qc; Q2Qc (3 # 1)]]).
  - discriminate.
  - repeat constructor.
Defined.

Lemma mapM_non_finite {A B : Type} (f : A -> outcome B) (l : list A) :
  (forall a, In a l -> (exists b, f a = Ok b) \/ f a = NonFinite) ->
  (exists a, In a l /\ f a = NonFinite) ->
  mapM f l = NonFinite.
Proof.
  induction l as [|x l IH]; intros Hall (a & Ha & Hf); [destruct Ha|].
  cbn [mapM].
  destruct (Hall x (or_introl eq_refl)) as [[b Hb]|Hx];
    [|rewrite Hx; reflexivity].
  rewrite Hb. cbn [bind]. rewrite IH; [reflexivity| |].
  - intros y Hy. apply Hall. right. exact Hy.
  - destruct Ha as [->|Ha]; [congruence|]. exists a. split; assumption.
Qed.

Lemma mapM_raises {A B : Type} (f : A -> outcome B) (l : list A) (e : exn) :
  (forall a, In a l -> (exists b, f a = Ok b) \/ f a = Raise e) ->
  (exists a, In a l /\ f a = Raise e) ->
  mapM f l = Raise e.
Proof.
  induction l as [|x l IH]; intros Hall (a & Ha & Hf); [destruct Ha|].
  cbn [mapM].
  destruct (Hall x (or_introl eq_refl)) as [[b Hb]|Hx];
    [|rewrite Hx; reflexivity].
  rewrite Hb. cbn [bind]. rewrite IH; [reflexivity| |].
  - intros y Hy. apply Hall. right. exact Hy.
  - destruct Ha as [->|Ha]; [congruence|]. exists a. split; assumption.
Qed.

(** Lines 77-88: on a square risk matrix, for a cluster that holds an
    asset of variance zero, [_getIVP] has no finite weights to return
    (the inverse of that variance is infinite, and the normalisation
    turns it into nan); with [ExpectedVariance] the quadratic form,
    which carries a nan weight into its result, the cluster variance is
    not finite either. *)
Theorem getClusterVar_zero_variance (ext : collaborators) (n : nat) (cov : matrix)
    (cluster_indices : list nat) (k : nat) :
  uses_quadratic_form ext ->
  square n cov ->
  (forall i, In i cluster_indices -> i < n) ->
  In k cluster_indices ->
  entry cov k k = 0%Qc ->
  (exists cluster_covariance,
     iloc cov cluster_indices cluster_indices = Ok cluster_covariance /\
     np_diag cluster_covariance =
       map (fun i => entry cov i i) cluster_indices /\
     _getIVP cluster_covariance = NonFinite) /\
  _getClusterVar ext cov cluster_indices = NonFinite.
Proof.
  intros _ Hsq Hb Hk Hzero.
  assert (Hivp : _getIVP (map (fun i => map (entry cov i) cluster_indices)
                              cluster_indices) = NonFinite).
  { unfold _getIVP. rewrite np_diag_sub.
    rewrite mapM_non_finite; [reflexivity| |].
    - intros d _. unfold qdiv. destruct (Qc_eq_bool d 0); eauto.
    - exists 0%Qc. split; [|apply qdiv_zero; reflexivity].
      apply in_map_iff. exists k. split; assumption. }
  split.
  - eexists. split; [apply (iloc_square n); assumption|].
    split; [apply np_diag_sub|exact Hivp].
  - unfold _getClusterVar.
    rewrite (iloc_square n) by assumption. cbn [bind].
    rewrite Hivp. reflexivity.
Qed.

Lemma getClusterVar_zero_variance_witness :
  (exists cluster_covariance,
     iloc [[1%Qc; 0%Qc]; [0%Qc; 0%Qc]] [0; 1] [0; 1] = Ok cluster_covariance /\
     np_diag cluster_covariance =
       map (fun i => entry [[1%Qc; 0%Qc]; [0%Qc; 0%Qc]] i i) [0; 1] /\
     _getIVP cluster_covariance = NonFinite) /\
  _getClusterVar (stub (Ok [])) [[1%Qc; 0%Qc]; [0%Qc; 0%Qc]] [0; 1] = NonFinite.
Proof.
  apply (getClusterVar_zero_variance (stub (Ok [])) 2
           [[1%Qc; 0%Qc]; [0%Qc; 0%Qc]] [0; 1] 1).
  - apply stub_uses_quadratic_form.
  - split; [reflexivity|repeat constructor].
  - intros i [<-|[<-|[]]]; lia.
  - simpl. tauto.
  - reflexivity.
Defined.

(** Lines 77-79: on a square risk matrix, a cluster that names an asset
    the matrix does not have makes the positional selection raise
    [IndexError]. *)
Theorem getClusterVar_out_of_range (ext : collaborators) (n : nat) (cov : matrix)
    (cluster_indices : list nat) (k : nat) :
  square n cov ->
  In k cluster_indices ->
  n <= k ->
  _getClusterVar ext cov cluster_indices = Raise IndexError.
Proof.
  intros [Hlen Hrows] Hk Hout. unfold _getClusterVar.
  assert (Hcols : forall r : list Qc, length r = n ->
            mapM (fun j => match r !! j with
                           | None => Raise IndexError
                           | Some x => Ok x
                           end) cluster_indices = Raise IndexError).
  { intros r Hr. apply mapM_raises.
    - intros j _. destruct (r !! j); eauto.
    - exists k. split; [exact Hk|].
      rewrite (lookup_ge_None_2 r k) by lia. reflexivity. }
  unfold iloc. rewrite mapM_raises with (e := IndexError); [reflexivity| |].
  - intros i _. destruct (cov !! i) as [r|] eqn:Hr; [|right; reflexivity].
    right. apply Hcols. rewrite Forall_forall in Hrows. apply Hrows.
    apply list_elem_of_In. eapply list_elem_of_lookup_2. exact Hr.
  - exists k. split; [exact Hk|].
    rewrite (lookup_ge_None_2 cov k) by lia. reflexivity.
Qed.

Lemma getClusterVar_out_of_range_witness :
  _getClusterVar (stub (Ok [])) [[1%Qc; 0%Qc]; [0%Qc; 1%Qc]] [0; 2] =
  Raise IndexError.
Proof.
  apply (getClusterVar_out_of_range (stub (Ok [])) 2
           [[1%Qc; 0%Qc]; [0%Qc; 1%Qc]] [0; 2] 2).
  - split; [reflexivity|repeat constructor].
  - simpl. tauto.
  - lia.
Defined.

(** ** Two assets *)

Lemma cluster_variance_single (ext : collaborators) (n : nat) (cov : matrix)
    (i : nat) :
  uses_quadratic_form ext -> square n cov -> i < n ->
  entry cov i i <> 0%Qc ->
  _getClusterVar ext cov [i] = Ok (entry cov i i).
Proof.
  intros Hq Hsq Hi Hd. unfold _getClusterVar.
  rewrite (iloc_square n) by (try assumption; intros k [<-|[]]; exact Hi).
  cbn [bind map].
  assert (Hs : (1 / entry cov i i + 0)%Qc <> 0%Qc).
  { intros H. apply (f_equal (fun x => (x * entry cov i i)%Qc)) in H.
    replace ((1 / entry cov i i + 0) * entry cov i i)%Qc with 1%Qc in H
      by (field; exact Hd).
    replace (0 * entry cov i i)%Qc with 0%Qc in H by ring. discriminate. }
  rewrite getIVP_value.
  - cbn [bind]. rewrite Hq. unfold quadratic_form, np_diag. f_equal.
    cbn [np_diag_from lookup list_lookup map combine dot qsum fold_right fst snd].
    field. split; [exact Hd|discriminate].
  - unfold np_diag. cbn [np_diag_from lookup list_lookup].
    repeat constructor. exact Hd.
  - unfold np_diag. cbn [np_diag_from lookup list_lookup map qsum fold_right].
    exact Hs.
Qed.

(** Lines 90-120: for two assets the recursive bisection is the
    inverse-variance allocation, whatever their covariance: each asset
    gets the variance of the other over the sum of the two variances. *)
Theorem two_assets_inverse_variance (ext : collaborators) (fuel n : nat)
    (cov : matrix) (assets : list string) (i j : nat) (name_i name_j : string) :
  uses_quadratic_form ext ->
  square n cov ->
  i < n -> j < n -> i <> j ->
  (0 < entry cov i i)%Qc -> (0 < entry cov j j)%Qc ->
  assets !! i = Some name_i -> assets !! j = Some name_j ->
  3 <= fuel ->
  exists wi wj,
    _getRecBipart ext fuel cov assets [i; j] = Ok [(name_i, wi); (name_j, wj)] /\
    wi = (entry cov j j / (entry cov i i + entry cov j j))%Qc /\
    wj = (entry cov i i / (entry cov i i + entry cov j j))%Qc.
Proof.
  intros Hq Hsq Hi Hj Hij Pi Pj Ni Nj Hfuel.
  pose proof (Qclt_neq _ (Qcplus_pos _ _ Pi Pj)) as Ns.
  destruct fuel as [|[|[|fuel]]]; try lia.
  unfold _getRecBipart. cbn [map bipart_loop].
  change (bisect [[i; j]]) with [[i]; [j]].
  change (bisect [[i]; [j]]) with (@nil (list nat)).
  unfold pair_loop.
  change (range_step2 (length [[i]; [j]])) with [0].
  change (range_step2 (length (@nil (list nat)))) with (@nil nat).
  cbn [foldM]. unfold pair_body. cbn [lookup list_lookup Nat.add].
  rewrite (cluster_variance_single ext n cov i Hq Hsq Hi (Qclt_neq _ Pi)).
  rewrite (cluster_variance_single ext n cov j Hq Hsq Hj (Qclt_neq _ Pj)).
  cbn [bind]. rewrite alloc_factor_value by exact Ns. cbn [bind].
  pose proof (proj2 (Nat.eqb_neq i j) Hij) as Eij.
  pose proof (proj2 (Nat.eqb_neq j i) (not_eq_sym Hij)) as Eji.
  unfold scale.
  repeat (cbn [map existsb fst snd orb];
          rewrite ?Nat.eqb_refl, ?Eij, ?Eji).
  cbn [orb mapM bind fst snd combine map]. rewrite Ni, Nj. cbn [bind combine].
  eexists. eexists. split; [reflexivity|]. split; [ring|].
  field. exact Ns.
Qed.

Lemma two_assets_inverse_variance_witness :
  exists wi wj,
    _getRecBipart (stub (Ok [])) 3
      [[1%Qc; Q2Qc (1 # 2)]; [Q2Qc (1 # 2); Q2Qc (3 # 1)]] ["A"; "B"] [1; 0] =
      Ok [("B", wi); ("A", wj)] /\
    wi = (entry [[1%Qc; Q2Qc (1 # 2)]; [Q2Qc (1 # 2); Q2Qc (3 # 1)]] 0 0 /
          (entry [[1%Qc; Q2Qc (1 # 2)]; [Q2Qc (1 # 2); Q2Qc (3 # 1)]] 1 1 +
           entry [[1%Qc; Q2Qc (1 # 2)]; [Q2Qc (1 # 2); Q2Qc (3 # 1)]] 0 0))%Qc /\
    wj = (entry [[1%Qc; Q2Qc (1 # 2)]; [Q2Qc (1 # 2); Q2Qc (3 # 1)]] 1 1 /
          (entry [[1%Qc; Q2Qc (1 # 2)]; [Q2Qc (1 # 2); Q2Qc (3 # 1)]] 1 1 +
           entry [[1%Qc; Q2Qc (1 # 2)]; [Q2Qc (1 # 2); Q2Qc (3 # 1)]] 0 0))%Qc.
Proof.
  apply (two_assets_inverse_variance (stub (Ok [])) 3 2
           [[1%Qc; Q2Qc (1 # 2)]; [Q2Qc (1 # 2); Q2Qc (3 # 1)]] ["A"; "B"]
           1 0 "B" "A").
  - apply stub_uses_quadratic_form.
  - split; [reflexivity|repeat constructor].
  - lia.
  - lia.
  - lia.
  - reflexivity.
  - reflexivity.
  - reflexivity.
  - reflexivity.
  - lia.
Defined.

(** ** The allocation does not depend on the unit of risk *)

Lemma mapM_ext {A B : Type} (f g : A -> outcome B) (l : list A) :
  (forall a, f a = g a) -> mapM f l = mapM g l.
Proof.
  intros H. induction l as [|a l IH]; [reflexivity|].
  cbn [mapM]. rewrite H, IH. reflexivity.
Qed.

Lemma mapM_omap {A B C : Type} (h : B -> C) (f : A -> outcome B) (l : list A) :
  mapM (fun a => omap h (f a)) l = omap (map h) (mapM f l).
Proof.
  induction l as [|a l IH]; [reflexivity|].
  cbn [mapM]. rewrite IH.
  destruct (f a); try reflexivity. cbn [omap bind].
  destruct (mapM f l); reflexivity.
Qed.

Lemma mapM_scale_matrix_row (c : Qc) (r : list Qc) (cols : list nat) :
  mapM (fun j => match map (fun x => (c * x)%Qc) r !! j with
                 | None => Raise IndexError
                 | Some x => Ok x
                 end) cols =
  omap (map (fun x => (c * x)%Qc))
       (mapM (fun j => match r !! j with
                       | None => Raise IndexError
                       | Some x => Ok x
                       end) cols).
Proof.
  rewrite <- mapM_omap. apply mapM_ext. intros j.
  rewrite list_lookup_fmap. destruct (r !! j); reflexivity.
Qed.

Lemma iloc_scale_matrix (c : Qc) (m : matrix) (rows cols : list nat) :
  iloc (scale_matrix c m) rows cols = omap (scale_matrix c) (iloc m rows cols).
Proof.
  unfold iloc, scale_matrix. rewrite <- mapM_omap. apply mapM_ext. intros i.
  rewrite list_lookup_fmap. destruct (m !! i) as [r|]; [|reflexivity].
  cbn [fmap option_fmap option_map]. apply mapM_scale_matrix_row.
Qed.

Lemma np_diag_from_scale (c : Qc) (m : matrix) (i : nat) :
  np_diag_from i (scale_matrix c m) =
  map (fun x => (c * x)%Qc) (np_diag_from i m).
Proof.
  unfold scale_matrix. revert i. induction m as [|r m IH]; intros i;
    [reflexivity|].
  cbn [map np_diag_from]. rewrite list_lookup_fmap.
  destruct (r !! i); [|reflexivity].
  cbn [fmap option_fmap option_map map]. rewrite IH. reflexivity.
Qed.

Lemma mapM_inverse_scale (c : Qc) (l : list Qc) :
  c <> 0%Qc ->
  mapM (qdiv 1) (map (fun x => (c * x)%Qc) l) =
  omap (map (fun x => (x / c)%Qc)) (mapM (qdiv 1) l).
Proof.
  intros Hc. rewrite <- mapM_omap.
  induction l as [|d l IH]; [reflexivity|].
  cbn [map mapM]. rewrite IH. f_equal.
  destruct (Qc_eq_dec d 0) as [->|Hd].
  - replace (c * 0)%Qc with 0%Qc by ring.
    rewrite !(qdiv_zero 1 0) by reflexivity. reflexivity.
  - assert (Hcd : (c * d)%Qc <> 0%Qc).
    { intros H. apply Qcmult_integral in H. tauto. }
    rewrite !qdiv_nonzero by assumption. cbn [omap].
    f_equal. field. split; assumption.
Qed.

Lemma qsum_div (c : Qc) (l : list Qc) :
  qsum (map (fun x => (x / c)%Qc) l) = (qsum l / c)%Qc.
Proof.
  unfold Qcdiv. rewrite qsum_scale. rewrite map_id. reflexivity.
Qed.

Lemma getIVP_scale_matrix (c : Qc) (m : matrix) :
  c <> 0%Qc -> _getIVP (scale_matrix c m) = _getIVP m.
Proof.
  intros Hc. unfold _getIVP, np_diag.
  rewrite np_diag_from_scale, mapM_inverse_scale by exact Hc.
  destruct (mapM (qdiv 1) (np_diag_from 0 m)) as [ivp| | |]; try reflexivity.
  cbn [omap bind]. rewrite qsum_div.
  destruct (Qc_eq_dec (qsum ivp) 0) as [E|Hs].
  - rewrite E. replace (0 / c)%Qc with 0%Qc by (field; exact Hc).
    rewrite (qdiv_zero 1 0) by reflexivity. reflexivity.
  - assert (Hsc : (qsum ivp / c)%Qc <> 0%Qc).
    { intros H. apply Hs.
      replace (qsum ivp) with (qsum ivp / c * c)%Qc by (field; exact Hc).
      rewrite H. ring. }
    rewrite !qdiv_nonzero by assumption. cbn [bind]. f_equal.
    rewrite map_map. apply map_ext. intros x. field. split; assumption.
Qed.

Lemma dot_scale_l (c : Qc) (u v : list Qc) :
  dot (map (fun x => (c * x)%Qc) u) v = (c * dot u v)%Qc.
Proof.
  unfold dot. revert v. induction u as [|x u IH]; intros [|y v];
    cbn [map combine fst snd]; rewrite ?qsum_cons;
    try (cbn [qsum fold_right]; ring).
  rewrite IH. ring.
Qed.

Lemma dot_scale_r (c : Qc) (u v : list Qc) :
  dot u (map (fun x => (c * x)%Qc) v) = (c * dot u v)%Qc.
Proof.
  unfold dot. revert v. induction u as [|x u IH]; intros [|y v];
    cbn [map combine fst snd]; rewrite ?qsum_cons;
    try (cbn [qsum fold_right]; ring).
  rewrite IH. ring.
Qed.

Lemma quadratic_form_scale (c : Qc) (m : matrix) (w : list Qc) :
  quadratic_form (scale_matrix c m) w =
  omap (fun x => (c * x)%Qc) (quadratic_form m w).
Proof.
  unfold quadratic_form, scale_matrix. cbn [omap]. f_equal.
  rewrite map_map.
  rewrite (map_ext _ (fun row => (c * dot row w)%Qc))
    by (intros row; apply dot_scale_l).
  rewrite <- (map_map (fun row => dot row w) (fun x => (c * x)%Qc)).
  apply dot_scale_r.
Qed.

Section ScaleInvariance.

Context (ext : collaborators) (c : Qc).
Hypothesis quadratic : uses_quadratic_form ext.
Hypothesis c_nonzero : c <> 0%Qc.

Lemma getClusterVar_scale (cov : matrix) (idx : list nat) :
  _getClusterVar ext (scale_matrix c cov) idx =
  omap (fun x => (c * x)%Qc) (_getClusterVar ext cov idx).
Proof using quadratic c_nonzero.
  unfold _getClusterVar. rewrite iloc_scale_matrix.
  destruct (iloc cov idx idx) as [sub| | |]; try reflexivity.
  cbn [omap bind]. rewrite getIVP_scale_matrix by exact c_nonzero.
  destruct (_getIVP sub) as [w| | |]; try reflexivity.
  cbn [bind]. rewrite !quadratic. apply quadratic_form_scale.
Qed.

Lemma alloc_factor_scale (vl vr : Qc) :
  alloc_factor (c * vl) (c * vr) = alloc_factor vl vr.
Proof using c_nonzero.
  unfold alloc_factor.
  replace (c * vl + c * vr)%Qc with (c * (vl + vr))%Qc by ring.
  destruct (Qc_eq_dec (vl + vr) 0) as [E|Hs].
  - rewrite E. replace (c * 0)%Qc with 0%Qc by ring.
    rewrite (qdiv_zero (c * vl) 0), (qdiv_zero vl 0) by reflexivity.
    reflexivity.
  - assert (Hcs : (c * (vl + vr))%Qc <> 0%Qc).
    { intros H. apply Qcmult_integral in H. tauto. }
    rewrite !qdiv_nonzero by assumption. cbn [bind]. f_equal.
    field. split; assumption.
Qed.

Lemma pair_body_scale (cov : matrix) (clusters : list (list nat))
    (weights : series nat) (subcluster : nat) :
  pair_body ext (scale_matrix c cov) clusters weights subcluster =
  pair_body ext cov clusters weights subcluster.
Proof using quadratic c_nonzero.
  unfold pair_body.
  destruct (clusters !! subcluster) as [l|]; [|reflexivity].
  destruct (clusters !! (subcluster + 1)) as [r|]; [|reflexivity].
  rewrite !getClusterVar_scale.
  destruct (_getClusterVar ext cov l) as [vl| | |]; try reflexivity.
  destruct (_getClusterVar ext cov r) as [vr| | |]; try reflexivity.
  cbn [omap bind]. rewrite alloc_factor_scale. reflexivity.
Qed.

Lemma foldM_ext {A B : Type} (f g : B -> A -> outcome B) (l : list A) (b : B) :
  (forall b a, f b a = g b a) -> foldM f l b = foldM g l b.
Proof using Type.
  intros H. revert b. induction l as [|a l IH]; intros b; [reflexivity|].
  cbn [foldM]. rewrite H. destruct (g b a); try reflexivity. cbn [bind].
  apply IH.
Qed.

Lemma bipart_loop_scale (fuel : nat) (cov : matrix)
    (clusters : list (list nat)) (weights : series nat) :
  bipart_loop ext fuel (scale_matrix c cov) clusters weights =
  bipart_loop ext fuel cov clusters weights.
Proof using quadratic c_nonzero.
  revert clusters weights. induction fuel as [|fuel IH];
    intros clusters weights; [reflexivity|].
  cbn [bipart_loop]. destruct clusters as [|cl cls]; [reflexivity|].
  unfold pair_loop.
  rewrite (foldM_ext _ (pair_body ext cov (bisect (cl :: cls))))
    by (intros b a; apply pair_body_scale).
  destruct (foldM _ _ weights); try reflexivity. cbn [bind]. apply IH.
Qed.

End ScaleInvariance.

(** Lines 77-120: multiplying the whole risk matrix by a constant other
    than zero (another unit of risk, daily against yearly variance) does
    not change what [_getRecBipart] returns, weights and failures alike. *)
Theorem getRecBipart_scale_invariant (ext : collaborators) (c : Qc)
    (fuel : nat) (cov : matrix) (assets : list string) (ordered : list nat) :
  uses_quadratic_form ext ->
  c <> 0%Qc ->
  _getRecBipart ext fuel (scale_matrix c cov) assets ordered =
  _getRecBipart ext fuel cov assets ordered.
Proof.
  intros Hq Hc. unfold _getRecBipart.
  rewrite (bipart_loop_scale ext c Hq Hc). reflexivity.
Qed.

Lemma getRecBipart_scale_invariant_witness :
  _getRecBipart (stub (Ok [])) 4
    (scale_matrix (Q2Qc (252 # 1))
       [[1%Qc; Q2Qc (1 # 2)]; [Q2Qc (1 # 2); Q2Qc (3 # 1)]])
    ["A"; "B"] [1; 0] =
  _getRecBipart (stub (Ok [])) 4
    [[1%Qc; Q2Qc (1 # 2)]; [Q2Qc (1 # 2); Q2Qc (3 # 1)]] ["A"; "B"] [1; 0].
Proof.
  apply (getRecBipart_scale_invariant (stub (Ok [])) (Q2Qc (252 # 1)) 4
           [[1%Qc; Q2Qc (1 # 2)]; [Q2Qc (1 # 2); Q2Qc (3 # 1)]]
           ["A"; "B"] [1; 0]).
  - apply stub_uses_quadratic_form.
  - discriminate.
Defined.

(** ** The weights of the recursive bisection *)

(** Lines 90-120: when every cluster drawn from the order has a positive
    cluster variance, [_getRecBipart] returns one weight per asset of the
    order, labelled in that order; the weights are non-negative and sum
    to exactly one, before any rounding. *)
Theorem getRecBipart_nonnegative_sum_one (ext : collaborators) (fuel : nat)
    (cov : matrix) (assets : list string) (ordered : list nat) :
  ordered <> [] -> NoDup ordered ->
  (forall k, In k ordered -> k < length assets) ->
  positive_cluster_variances ext cov ordered ->
  S (length ordered) < fuel ->
  exists weights,
    _getRecBipart ext fuel cov assets ordered = Ok weights /\
    map fst weights = map (fun i => nth i assets "") ordered /\
    Forall (fun kv => (0 <= snd kv)%Qc) weights /\
    qsum (map snd weights) = 1%Qc.
Proof. apply getRecBipart_weights. Qed.

Lemma getRecBipart_nonnegative_sum_one_witness :
  exists weights,
    _getRecBipart (stub (Ok [])) 5 (equal_variance_matrix 3 1%Qc)
                  ["A"; "B"; "C"] (seq 0 3) = Ok weights /\
    map fst weights = map (fun i => nth i ["A"; "B"; "C"] "") (seq 0 3) /\
    Forall (fun kv => (0 <= snd kv)%Qc) weights /\
    qsum (map snd weights) = 1%Qc.
Proof.
  apply (getRecBipart_nonnegative_sum_one (stub (Ok [])) 5
           (equal_variance_matrix 3 1%Qc) ["A"; "B"; "C"] (seq 0 3)).
  - discriminate.
  - apply seq_NoDup.
  - intros k Hk. apply in_seq in Hk. simpl. lia.
  - apply (stub_positive_variances (Ok []) 3).
  - simpl. lia.
Defined.

(** ** The quasi-diagonal order on any linkage matrix *)

(** Lines 69-75: whatever the linkage matrix holds, a list that
    [_getQuasiDiag] returns is not empty and names leaves only: every
    entry is below [num_assets]. *)
Theorem getQuasiDiag_lists_leaves (fuel : nat) (cluster : list merge)
    (num_assets curr_index : nat) (order : list nat) :
  _getQuasiDiag fuel cluster num_assets curr_index = Ok order ->
  order <> [] /\ Forall (fun i => i < num_assets) order.
Proof.
  revert curr_index order.
  induction fuel as [|fuel IH]; intros k order H; [discriminate|].
  cbn [_getQuasiDiag] in H.
  destruct (k <? num_assets) eqn:E.
  - apply ok_inj in H. subst order. apply Nat.ltb_lt in E.
    split; [discriminate|]. repeat constructor. exact E.
  - destruct (cluster !! (k - num_assets)) as [row|]; [|discriminate].
    destruct (_getQuasiDiag fuel cluster num_assets (left_child row))
      as [l| | |] eqn:El; try discriminate.
    destruct (_getQuasiDiag fuel cluster num_assets (right_child row))
      as [r| | |] eqn:Er; try discriminate.
    cbn [bind] in H. apply ok_inj in H. subst order.
    destruct (IH _ _ El) as [Nl Fl]. destruct (IH _ _ Er) as [Nr Fr].
    split.
    + intros E'. apply app_eq_nil in E'. tauto.
    + apply Forall_app. split; assumption.
Qed.

Lemma getQuasiDiag_lists_leaves_witness :
  [0; 0] <> [] /\ Forall (fun i => i < 2) [0; 0].
Proof.
  apply (getQuasiDiag_lists_leaves 3 [Merge 0 0 1%Qc] 2 2 [0; 0]).
  reflexivity.
Defined.

Lemma below_le (num_assets : nat) (cluster : list merge) (k j : nat) :
  well_formed_tree num_assets cluster ->
  below cluster num_assets k j -> j <= k.
Proof.
  intros Hwf H. induction H as [k|k row j Hk Hrow _ IH|k row j Hk Hrow _ IH].
  - lia.
  - destruct (row_children_below num_assets cluster Hwf k row Hk Hrow). lia.
  - destruct (row_children_below num_assets cluster Hwf k row Hk Hrow). lia.
Qed.

Lemma below_contiguous (num_assets : nat) (cluster : list merge) (k j : nat) :
  well_formed_tree num_assets cluster ->
  k < num_assets + length cluster ->
  below cluster num_assets k j ->
  exists pre suf,
    expand cluster num_assets k =
    pre ++ expand cluster num_assets j ++ suf.
Proof.
  intros Hwf Hk H.
  induction H as [k|k row j Hge Hrow _ IH|k row j Hge Hrow _ IH].
  - exists [], []. rewrite app_nil_r. reflexivity.
  - destruct (row_children_below num_assets cluster Hwf k row Hge Hrow)
      as [Hl Hr].
    destruct IH as (pre & suf & E); [lia|].
    pose proof (expand_node num_assets cluster Hwf (k - num_assets) row Hrow)
      as En.
    replace (num_assets + (k - num_assets)) with k in En by lia.
    exists pre, (suf ++ expand cluster num_assets (right_child row)).
    rewrite En, E. rewrite <- !app_assoc. reflexivity.
  - destruct (row_children_below num_assets cluster Hwf k row Hge Hrow)
      as [Hl Hr].
    destruct IH as (pre & suf & E); [lia|].
    pose proof (expand_node num_assets cluster Hwf (k - num_assets) row Hrow)
      as En.
    replace (num_assets + (k - num_assets)) with k in En by lia.
    exists (expand cluster num_assets (left_child row) ++ pre), suf.
    rewrite En, E. rewrite <- !app_assoc. reflexivity.
Qed.

(** Lines 69-75: on a well-formed merge tree the leaves of every
    cluster stand side by side in the order: the list returned for a
    node holds, as one unbroken run, the list returned for any node of
    its subtree. *)
Theorem getQuasiDiag_clusters_contiguous (num_assets : nat)
    (cluster : list merge) (fuel k j : nat) :
  well_formed_tree num_assets cluster ->
  k < num_assets + length cluster ->
  below cluster num_assets k j ->
  k < fuel ->
  exists order sub pre suf,
    _getQuasiDiag fuel cluster num_assets k = Ok order /\
    _getQuasiDiag fuel cluster num_assets j = Ok sub /\
    order = pre ++ sub ++ suf.
Proof.
  intros Hwf Hk Hbelow Hfuel.
  pose proof (below_le num_assets cluster k j Hwf Hbelow) as Hjk.
  destruct (expands_total num_assets cluster Hwf k Hk) as [order Ho].
  destruct (expands_total num_assets cluster Hwf j) as [sub Hs]; [lia|].
  destruct (below_contiguous num_assets cluster k j Hwf Hk Hbelow)
    as (pre & suf & E).
  rewrite (expands_expand _ _ _ _ Ho), (expands_expand _ _ _ _ Hs) in E.
  exists order, sub, pre, suf.
  split; [apply Ho; exact Hfuel|]. split; [apply Hs; lia|exact E].
Qed.

Lemma getQuasiDiag_clusters_contiguous_witness :
  exists order sub pre suf,
    _getQuasiDiag 7 [Merge 0 2 1%Qc; Merge 1 3 1%Qc; Merge 4 5 1%Qc] 4 6 =
      Ok order /\
    _getQuasiDiag 7 [Merge 0 2 1%Qc; Merge 1 3 1%Qc; Merge 4 5 1%Qc] 4 5 =
      Ok sub /\
    order = pre ++ sub ++ suf.
Proof.
  assert (Hwf : well_formed_tree 4
                  [Merge 0 2 1%Qc; Merge 1 3 1%Qc; Merge 4 5 1%Qc]).
  { split; [reflexivity|]. split.
    - intros i row H. destruct i as [|[|[|i]]]; simpl in H;
        try discriminate; injection H as <-; simpl; lia.
    - simpl. repeat constructor; simpl; intuition lia. }
  apply (getQuasiDiag_clusters_contiguous 4
           [Merge 0 2 1%Qc; Merge 1 3 1%Qc; Merge 4 5 1%Qc] 7 6 5 Hwf).
  - simpl. lia.
  - apply (below_right _ _ 6 (Merge 4 5 1%Qc) 5); [lia|reflexivity|].
    apply below_self.
  - lia.
Defined.

(** ** What a bisection keeps *)

Lemma concat_bisect (clusters : list (list nat)) :
  concat (bisect clusters) = concat (splittable clusters).
Proof.
  rewrite bisect_halves. induction (splittable clusters) as [|c cs IH];
    [reflexivity|].
  cbn [flat_map concat app]. rewrite IH, app_assoc, halves_join. reflexivity.
Qed.

(** Lines 99-102: a bisection replaces, in order, every cluster of
    more than one member by its two halves, the members before the
    midpoint [len // 2] and the members from the midpoint on, and drops
    the clusters of fewer than two members.  So it keeps the members of
    the clusters it splits, in their order; it produces two lists for
    each of them; and each list it produces is the first or the second
    half of a cluster of more than one member, is not empty, and has at
    most half the size of that cluster, rounded up. *)
Theorem bisect_keeps_members (clusters : list (list nat)) :
  bisect clusters =
    flat_map (fun parent =>
                [firstn (length parent / 2) parent;
                 skipn (length parent / 2) parent])
             (filter (fun c => 1 <? length c) clusters) /\
  concat (bisect clusters) =
    concat (filter (fun c => 1 <? length c) clusters) /\
  length (bisect clusters) =
    2 * length (filter (fun c => 1 <? length c) clusters) /\
  Forall (fun half =>
            exists parent,
              In parent clusters /\ 1 < length parent /\
              (half = firstn (length parent / 2) parent /\
               length half = length parent / 2 \/
               half = skipn (length parent / 2) parent /\
               length half = length parent - length parent / 2) /\
              1 <= length half /\ 2 * length half <= length parent + 1)
         (bisect clusters).
Proof.
  split; [apply bisect_halves|].
  split; [apply concat_bisect|]. split.
  - rewrite bisect_halves. apply pairs_length.
  - apply Forall_forall. intros h Hh. apply in_bisect in Hh.
    destruct Hh as (p & Hp & Hlen & E). exists p.
    split; [exact Hp|]. split; [exact Hlen|].
    destruct (halves_sizes p) as [Sl Sr].
    pose proof (half_bounds (length p)) as [_ Hb]. specialize (Hb Hlen).
    pose proof (Nat.div_mod_eq (length p) 2) as Hdm.
    pose proof (Nat.mod_upper_bound (length p) 2 ltac:(lia)) as Hm.
    destruct E as [-> | ->].
    + split; [left; split; [reflexivity|exact Sl]|]. lia.
    + split; [right; split; [reflexivity|exact Sr]|]. lia.
Qed.

(** ** The number of passes of the bisection loop *)

Lemma bisect_small (clusters : list (list nat)) :
  (forall c, In c clusters -> length c <= 1) -> bisect clusters = [].
Proof.
  intros H. destruct (bisect clusters) as [|h hs] eqn:E; [reflexivity|].
  assert (Hh : In h (bisect clusters)) by (rewrite E; left; reflexivity).
  apply in_bisect in Hh. destruct Hh as (p & Hp & Hlen & _).
  specialize (H p Hp). lia.
Qed.

Lemma half_of_bounded (n m : nat) :
  n <= 2 * m -> n / 2 <= m /\ n - n / 2 <= m.
Proof.
  intros H. pose proof (Nat.div_mod_eq n 2) as Hd.
  pose proof (Nat.mod_upper_bound n 2 ltac:(lia)) as Hm. lia.
Qed.

Lemma bipart_loop_levels (ext : collaborators) (cov : matrix)
    (ordered : list nat) :
  NoDup ordered ->
  positive_cluster_variances ext cov ordered ->
  forall (t : nat) (clusters : list (list nat)) (g u : nat -> Qc),
  NoDup (concat clusters) ->
  incl (concat clusters) ordered ->
  mass_inv ordered [] clusters g u ->
  (forall c, In c clusters -> length c <= 2 ^ t) ->
  exists g',
    bipart_loop ext (t + 2) cov clusters (series_of ordered g) =
      Ok (series_of ordered g').
Proof.
  intros Hndo Hpos.
  induction t as [|t IH]; intros clusters g u Hnd Hincl Hinv Hsize.
  - destruct clusters as [|c cs]; [exists g; reflexivity|].
    cbn [Nat.add bipart_loop].
    destruct (level_mass ext cov ordered Hndo Hpos (c :: cs) g u Hnd Hincl Hinv)
      as (g1 & u1 & Hloop & _).
    rewrite Hloop. cbn [bind].
    rewrite (bisect_small (c :: cs)) by exact Hsize.
    exists g1. reflexivity.
  - destruct clusters as [|c cs]; [exists g; reflexivity|].
    cbn [Nat.add bipart_loop].
    destruct (level_mass ext cov ordered Hndo Hpos (c :: cs) g u Hnd Hincl Hinv)
      as (g1 & u1 & Hloop & Hinv1).
    rewrite Hloop. cbn [bind].
    apply (IH _ g1 u1).
    + apply concat_bisect_nodup, Hnd.
    + intros k Hk. apply Hincl. apply in_concat in Hk.
      destruct Hk as (h & Hh & Hk). eapply in_bisect_concat; eauto.
    + exact Hinv1.
    + intros h Hh. apply in_bisect in Hh. destruct Hh as (p & Hp & Hlen & E).
      specialize (Hsize p Hp). rewrite Nat.pow_succ_r' in Hsize.
      destruct (half_of_bounded _ _ Hsize) as [Bl Br].
      destruct (halves_sizes p) as [Sl Sr].
      destruct E as [-> | ->]; lia.
Qed.

(** Lines 97-116: the [while] loop of [_getRecBipart] is logarithmic in
    the number of assets.  On an order of at most [2 ^ t] distinct assets
    whose clusters have positive variances, the loop condition is
    evaluated at most [t + 2] times: [t + 1] passes through the body and
    the final test on the empty list. *)
Theorem getRecBipart_logarithmic_passes (ext : collaborators) (t : nat)
    (cov : matrix) (assets : list string) (ordered : list nat) :
  ordered <> [] -> NoDup ordered ->
  (forall k, In k ordered -> k < length assets) ->
  positive_cluster_variances ext cov ordered ->
  length ordered <= 2 ^ t ->
  is_ok (_getRecBipart ext (t + 2) cov assets ordered).
Proof.
  intros Hne Hnd Hb Hpos Hsize.
  pose proof (Qc_of_nat_nonzero _ (nonempty_length _ Hne)) as NN.
  unfold _getRecBipart.
  change (map (fun i => (i, 1%Qc)) ordered)
    with (series_of ordered (fun _ => 1%Qc)).
  destruct (bipart_loop_levels ext cov ordered Hnd Hpos t [ordered]
              (fun _ => 1%Qc)
              (fun _ => (1 / Qc_of_nat (length ordered))%Qc))
    as (g & Hloop).
  - cbn [concat]. rewrite app_nil_r. exact Hnd.
  - cbn [concat]. rewrite app_nil_r. apply incl_refl.
  - split; [intros _; discriminate|]. split; [reflexivity|].
    split; [|split].
    + intros c k [<-|[]] _. reflexivity.
    + intros k Hk Hnot. exfalso. apply Hnot.
      change (bisect []) with (@nil (list nat)). cbn [app concat].
      rewrite app_nil_r. exact Hk.
    + rewrite qsum_const. field. exact NN.
  - intros c [<-|[]]. exact Hsize.
  - rewrite Hloop. cbn [bind]. rewrite labels_of_assets by exact Hb.
    cbn [bind]. eexists. reflexivity.
Qed.

Lemma getRecBipart_logarithmic_passes_witness :
  is_ok (_getRecBipart (stub (Ok [])) (3 + 2) (equal_variance_matrix 8 1%Qc)
           ["A"; "B"; "C"; "D"; "E"; "F"; "G"; "H"] (seq 0 8)).
Proof.
  apply (getRecBipart_logarithmic_passes (stub (Ok [])) 3
           (equal_variance_matrix 8 1%Qc)
           ["A"; "B"; "C"; "D"; "E"; "F"; "G"; "H"] (seq 0 8)).
  - discriminate.
  - apply seq_NoDup.
  - intros k Hk. apply in_seq in Hk. simpl. lia.
  - apply (stub_positive_variances (Ok []) 8).
  - simpl. lia.
Defined.

(** ** The instance across calls *)

Lemma calls_keep_attribute (ext : collaborators) (self self' : instance)
    (name : string) :
  calls ext self self' -> name <> "clusters" -> self' !! name = self !! name.
Proof.
  induction 1 as [|s mid s' _ IH Hc]; intros Hne; [reflexivity|].
  destruct Hc as [fuel0 s4 a0|s4].
  - rewrite optimize_writes_clusters_only by exact Hne. auto.
  - auto.
Qed.

Lemma estimate_and_cluster_reads (ext : collaborators) (self self' : instance)
    (asset_returns : frame ext) :
  self' !! "_RiskMetrics" = self !! "_RiskMetrics" ->
  self' !! "_Method" = self !! "_Method" ->
  estimate_and_cluster ext self' asset_returns =
  estimate_and_cluster ext self asset_returns.
Proof.
  intros Hr Hm. unfold estimate_and_cluster, getattr. rewrite Hr, Hm.
  reflexivity.
Qed.

(** Lines 122-195: [optimize] keeps no memory of earlier calls.  On an
    instance that went through any number of [optimize] and [plot]
    calls it ends as it would have on the instance before them, with the
    same table or the same error; and when it returns a table it stores
    the same linkage matrix. *)
Theorem optimize_forgets_earlier_calls (ext : collaborators) (fuel : nat)
    (self self' : instance) (AssetPrices : pyarg (frame ext)) :
  calls ext self self' ->
  snd (optimize ext fuel self' AssetPrices) =
    snd (optimize ext fuel self AssetPrices) /\
  (is_ok (snd (optimize ext fuel self AssetPrices)) ->
   fst (optimize ext fuel self' AssetPrices) !! "clusters" =
     fst (optimize ext fuel self AssetPrices) !! "clusters").
Proof.
  intros Hcalls.
  pose proof (calls_keep_attribute ext self self' "_RiskMetrics" Hcalls
                ltac:(discriminate)) as Hr.
  pose proof (calls_keep_attribute ext self self' "_Method" Hcalls
                ltac:(discriminate)) as Hm.
  unfold optimize.
  destruct (check_asset_prices AssetPrices);
    try (split; [reflexivity|intros [t Ht]; discriminate]).
  destruct AssetPrices as [| |b prices];
    try (split; [reflexivity|intros [t Ht]; discriminate]).
  rewrite (estimate_and_cluster_reads ext self self' _ Hr Hm).
  destruct (estimate_and_cluster ext self _) as [[rm cl]| | |];
    try (split; [reflexivity|intros [t Ht]; discriminate]).
  split; [reflexivity|]. intros _. cbn [fst].
  rewrite !lookup_insert_eq. reflexivity.
Qed.

Lemma optimize_forgets_earlier_calls_witness :
  snd (optimize (stub (Ok [])) 2
         (fst (optimize (stub (Ok [])) 2 default_instance
                 (ArgDataFrame true single_frame)))
         (ArgDataFrame true single_frame)) =
    snd (optimize (stub (Ok [])) 2 default_instance
           (ArgDataFrame true single_frame)) /\
  (is_ok (snd (optimize (stub (Ok [])) 2 default_instance
                 (ArgDataFrame true single_frame))) ->
   fst (optimize (stub (Ok [])) 2
          (fst (optimize (stub (Ok [])) 2 default_instance
                  (ArgDataFrame true single_frame)))
          (ArgDataFrame true single_frame)) !! "clusters" =
     fst (optimize (stub (Ok [])) 2 default_instance
            (ArgDataFrame true single_frame)) !! "clusters").
Proof.
  apply (optimize_forgets_earlier_calls (stub (Ok [])) 2 default_instance
           (fst (optimize (stub (Ok [])) 2 default_instance
                   (ArgDataFrame true single_frame)))
           (ArgDataFrame true single_frame)).
  apply (calls_step (stub (Ok [])) default_instance default_instance).
  - apply calls_nil.
  - apply (call_optimize (stub (Ok [])) 2 default_instance
             (ArgDataFrame true single_frame)).
Defined.

(** Lines 51-67 and 150-177: the names given at construction select the
    estimator and the linkage method of every later [optimize], whatever
    their letter case and whatever calls were made in between.  The risk
    matrix comes from the estimator the lower-cased risk-metric name
    stands for, the branch that leaves [risk_matrix] unbound is never
    taken, and the clustering receives the lower-cased method name. *)
Theorem optimize_uses_named_estimator (ext : collaborators)
    (rm m : string) (self self' : instance) (asset_returns : frame ext) :
  __init__ rm m = Ok self ->
  calls ext self self' ->
  exists estimator,
    In (lower rm, estimator)
       [("variance", CovMatrix_Sample ext);
        ("semivariance", CovMatrix_SampleSemi ext);
        ("shrinkage", CovMatrix_BasicShrinkage ext);
        ("letoidwolf", CovMatrix_LedoitWolf ext);
        ("oas", CovMatrix_Oracle ext)] /\
    estimate_and_cluster ext self' asset_returns =
      do risk_matrix <- estimator asset_returns;
      do correlation_matrix <- Resampler_Cov2Corr ext risk_matrix;
      do distance_matrix <- distance_of ext correlation_matrix;
      do clusters <- scipy_linkage ext distance_matrix (lower m);
      Ok (risk_matrix, clusters).
Proof.
  intros Hinit Hcalls.
  rewrite (estimate_and_cluster_reads ext self self' asset_returns
             (calls_keep_attribute ext self self' "_RiskMetrics" Hcalls
                ltac:(discriminate))
             (calls_keep_attribute ext self self' "_Method" Hcalls
                ltac:(discriminate))).
  destruct (init_cases rm m) as [[_ E]|[[_ [_ E]]|[Hr [_ E]]]];
    rewrite E in Hinit; try discriminate.
  injection Hinit as <-.
  unfold estimate_and_cluster, getattr.
  rewrite lookup_insert_ne by discriminate.
  rewrite !lookup_insert_eq. cbn [bind].
  apply str_in_In in Hr. unfold risk_metric_names in Hr.
  destruct Hr as [Hr|[Hr|[Hr|[Hr|[Hr|[]]]]]]; rewrite <- Hr.
  - exists (CovMatrix_Sample ext). split; [simpl; tauto|reflexivity].
  - exists (CovMatrix_SampleSemi ext). split; [simpl; tauto|reflexivity].
  - exists (CovMatrix_BasicShrinkage ext). split; [simpl; tauto|reflexivity].
  - exists (CovMatrix_LedoitWolf ext). split; [simpl; tauto|reflexivity].
  - exists (CovMatrix_Oracle ext). split; [simpl; tauto|reflexivity].
Qed.

Lemma optimize_uses_named_estimator_witness :
  exists estimator,
    In (lower "LetoidWolf", estimator)
       [("variance", CovMatrix_Sample (stub (Ok one_merge)));
        ("semivariance", CovMatrix_SampleSemi (stub (Ok one_merge)));
        ("shrinkage", CovMatrix_BasicShrinkage (stub (Ok one_merge)));
        ("letoidwolf", CovMatrix_LedoitWolf (stub (Ok one_merge)));
        ("oas", CovMatrix_Oracle (stub (Ok one_merge)))] /\
    estimate_and_cluster (stub (Ok one_merge))
      (<["_Method" := PyStr "ward"]>
         (<["_RiskMetrics" := PyStr "letoidwolf"]>
            (<["clusters" := PyNone]> ∅)))
      lopsided_frame =
      do risk_matrix <- estimator lopsided_frame;
      do correlation_matrix <-
         Resampler_Cov2Corr (stub (Ok one_merge)) risk_matrix;
      do distance_matrix <- distance_of (stub (Ok one_merge)) correlation_matrix;
      do clusters <-
         scipy_linkage (stub (Ok one_merge)) distance_matrix (lower "WARD");
      Ok (risk_matrix, clusters).
Proof.
  apply (optimize_uses_named_estimator (stub (Ok one_merge))
           "LetoidWolf" "WARD"
           (<["_Method" := PyStr "ward"]>
              (<["_RiskMetrics" := PyStr "letoidwolf"]>
                 (<["clusters" := PyNone]> ∅)))
           (<["_Method" := PyStr "ward"]>
              (<["_RiskMetrics" := PyStr "letoidwolf"]>
                 (<["clusters" := PyNone]> ∅)))
           lopsided_frame).
  - reflexivity.
  - apply calls_nil.
Defined.

Lemma calls_clusters_none_or_linkage (ext : collaborators)
    (self self' : instance) :
  calls ext self self' ->
  self !! "clusters" = Some PyNone ->
  self' !! "clusters" = Some PyNone \/
  exists rows, self' !! "clusters" = Some (PyLinkage rows).
Proof.
  induction 1 as [|s mid s' _ IH Hc]; intros H0; [left; exact H0|].
  destruct Hc as [fuel0 s4 a0|s4]; [|auto].
  specialize (IH H0). unfold optimize.
  destruct (check_asset_prices a0); try exact IH.
  destruct a0; try exact IH.
  destruct (estimate_and_cluster _ _ _) as [[rm cl]| | |]; try exact IH.
  right. exists cl. apply lookup_insert_eq.
Qed.

(** Lines 197-219: [plot] never draws.  On an instance built by
    [__init__] and used through [optimize] and [plot] only, every call
    of [plot] ends in an error: either the [ValueError] that asks for
    [optimize] first, with nothing created, or, once a linkage matrix
    is stored, the [AttributeError] on [asset_names], with the figure
    created and titled and neither [dendrogram] nor [show] reached. *)
Theorem plot_never_draws (ext : collaborators) (rm m : string)
    (self self' : instance) :
  __init__ rm m = Ok self ->
  calls ext self self' ->
  plot self' = ([], Raise (ValueError not_optimized_msg)) \/
  plot self' = ([EvFigure; EvAddSubplot; EvSetTitle],
                Raise (AttributeError "asset_names")).
Proof.
  intros Hinit Hcalls.
  destruct (init_attributes rm m self Hinit) as [Hn Hc].
  destruct (calls_clusters_none_or_linkage ext self self' Hcalls Hc)
    as [Hnone|Hrows].
  - left. unfold plot, getattr. rewrite Hnone. reflexivity.
  - right. apply plot_without_asset_names; [exact Hrows|].
    apply (calls_keep_no_asset_names ext self self' Hcalls Hn).
Qed.

Lemma plot_never_draws_witness :
  plot default_instance = ([], Raise (ValueError not_optimized_msg)) \/
  plot default_instance = ([EvFigure; EvAddSubplot; EvSetTitle],
                           Raise (AttributeError "asset_names")).
Proof.
  apply (plot_never_draws (stub (Ok [])) "Variance" "Single"
           default_instance default_instance).
  - reflexivity.
  - apply calls_nil.
Defined.

(** ** A linkage matrix that is no tree *)

(** Lines 69-75: [_getQuasiDiag] trusts the child ids of the linkage
    matrix.  On a row that names its own node as its left child the
    recursion never reaches a leaf: no amount of fuel yields a list. *)
Theorem getQuasiDiag_self_reference (cluster : list merge)
    (num_assets i : nat) (row : merge) (fuel : nat) :
  cluster !! i = Some row ->
  left_child row = num_assets + i ->
  _getQuasiDiag fuel cluster num_assets (num_assets + i) = OutOfFuel.
Proof.
  intros Hrow Hself. induction fuel as [|fuel IH]; [reflexivity|].
  cbn [_getQuasiDiag].
  replace (num_assets + i <? num_assets) with false
    by (symmetry; apply Nat.ltb_ge; lia).
  replace (num_assets + i - num_assets) with i by lia.
  rewrite Hrow, Hself, IH. reflexivity.
Qed.

Lemma getQuasiDiag_self_reference_witness :
  _getQuasiDiag 50 [Merge 2 1 1%Qc] 2 (2 + 0) = OutOfFuel.
Proof.
  apply (getQuasiDiag_self_reference [Merge 2 1 1%Qc] 2 0 (Merge 2 1 1%Qc) 50).
  - reflexivity.
  - reflexivity.
Defined.

(** ** The arguments of the square root *)

Lemma mapM_ext_in {A B : Type} (f g : A -> outcome B) (l : list A) :
  (forall a, In a l -> f a = g a) -> mapM f l = mapM g l.
Proof.
  intros H. induction l as [|a l IH]; [reflexivity|].
  cbn [mapM]. rewrite (H a) by (left; reflexivity).
  rewrite IH by (intros b Hb; apply H; right; exact Hb). reflexivity.
Qed.

Lemma rint_upper (z : Z) (q : Qc) : (q <= inject_Z z)%Q -> (rint q <= z)%Z.
Proof.
  intros H. unfold rint.
  assert (Hf : (Qfloor q <= z)%Z).
  { rewrite <- (Qfloor_Z z). apply Qfloor_resp_le. exact H. }
  destruct (Z_le_lt_eq_dec _ _ Hf) as [Hlt|Heq].
  - destruct (Qccompare _ _); [destruct (Z.even _)| |]; lia.
  - assert (Hq : q = Q2Qc (inject_Z (Qfloor q))).
    { apply Qc_is_canon. cbn [this Q2Qc]. rewrite Qred_correct.
      apply Qle_antisym; [rewrite Heq; exact H|apply Qfloor_le]. }
    replace (q - Q2Qc (inject_Z (Qfloor q)))%Qc with 0%Qc
      by (rewrite <- Hq; ring).
    change (0 ?= Q2Qc (1 # 2))%Qc with Lt. cbv iota. lia.
Qed.

Lemma Qcle_div_l (x y p : Qc) : (0 < p -> x <= y * p -> x / p <= y)%Qc.
Proof.
  intros Hp H.
  replace y with (y * p * / p)%Qc by (field; apply Qclt_neq, Hp).
  unfold Qcdiv. apply Qcmult_le_compat_r; [exact H|].
  replace (/ p)%Qc with (1 / p)%Qc by (field; apply Qclt_neq, Hp).
  apply Qclt_le_weak, Qcdiv_pos; [reflexivity|exact Hp].
Qed.

Lemma round_dec_upper (n : nat) (q : Qc) (z : Z) :
  (q <= Q2Qc (inject_Z z))%Qc -> (round_dec n q <= Q2Qc (inject_Z z))%Qc.
Proof.
  intros H. unfold round_dec. apply Qcle_div_l; [apply pow10_pos|].
  replace (Q2Qc (inject_Z z) * pow10 n)%Qc
    with (Q2Qc (inject_Z (z * 10 ^ Z.of_nat n))).
  - apply Q2Qc_inject_Z_le, rint_upper.
    rewrite Qcmult_this, inject_Z_mult.
    unfold pow10. cbn [this Q2Qc]. rewrite Qred_correct.
    apply Qmult_le_compat_r.
    + unfold Qcle in H. cbn [this Q2Qc] in H. rewrite Qred_correct in H.
      exact H.
    + change 0%Q with (inject_Z 0). rewrite <- Zle_Qle.
      apply Z.pow_nonneg. lia.
  - apply Qc_is_canon. unfold pow10. rewrite Qcmult_this.
    cbn [this Q2Qc]. rewrite !Qred_correct, inject_Z_mult. reflexivity.
Qed.

(** The number under the square root lies between 0 and 1 when the
    correlation lies between -1 and 1. *)
Lemma distance_argument_bounds (c : Qc) :
  (- (1) <= c)%Qc -> (c <= 1)%Qc ->
  (0 <= round_dec 10 (1 - c) / Q2Qc (inject_Z 2))%Qc /\
  (round_dec 10 (1 - c) / Q2Qc (inject_Z 2) <= 1)%Qc.
Proof.
  intros Hlo Hhi.
  assert (H0 : (0 <= 1 - c)%Qc).
  { apply Qcle_minus_iff in Hhi. exact Hhi. }
  assert (H2 : (1 - c <= Q2Qc (inject_Z 2))%Qc).
  { apply Qcopp_le_compat in Hlo.
    replace (Q2Qc (inject_Z 2)) with (1 + - - (1))%Qc
      by (apply Qc_is_canon; reflexivity).
    unfold Qcminus. apply Qcplus_le_compat; [apply Qcle_refl|exact Hlo]. }
  assert (Hp : (0 < Q2Qc (inject_Z 2))%Qc) by reflexivity.
  split.
  - apply Qcdiv_nonneg; [apply round_dec_nonneg, H0|exact Hp].
  - apply Qcle_div_l; [exact Hp|].
    replace (1 * Q2Qc (inject_Z 2))%Qc with (Q2Qc (inject_Z 2)) by ring.
    apply round_dec_upper, H2.
Qed.

(** Line 173: [optimize] never takes the square root of a number
    outside the interval from 0 to 1.  When every entry of the
    correlation matrix lies between -1 and 1, the distance matrix does
    not depend on what [np.sqrt] does outside that interval: two
    square-root functions that agree on it give the same distances. *)
Theorem distance_of_sqrt_within_unit (ext ext' : collaborators)
    (correlation_matrix : matrix) :
  (forall q, (0 <= q)%Qc -> (q <= 1)%Qc -> np_sqrt ext q = np_sqrt ext' q) ->
  Forall (Forall (fun c => (- (1) <= c)%Qc /\ (c <= 1)%Qc)) correlation_matrix ->
  distance_of ext correlation_matrix = distance_of ext' correlation_matrix.
Proof.
  intros Hsqrt Hcorr. unfold distance_of.
  apply mapM_ext_in. intros row Hrow.
  apply mapM_ext_in. intros c Hc.
  rewrite Forall_forall in Hcorr. specialize (Hcorr row Hrow).
  rewrite Forall_forall in Hcorr. destruct (Hcorr c Hc) as [Hlo Hhi].
  destruct (distance_argument_bounds c Hlo Hhi) as [B0 B1].
  apply Hsqrt; assumption.
Qed.

Lemma distance_of_sqrt_within_unit_witness :
  distance_of (stub (Ok [])) [[1%Qc; 0%Qc]; [0%Qc; 1%Qc]] =
  distance_of (stub (Ok one_merge)) [[1%Qc; 0%Qc]; [0%Qc; 1%Qc]].
Proof.
  apply (distance_of_sqrt_within_unit (stub (Ok [])) (stub (Ok one_merge))
           [[1%Qc; 0%Qc]; [0%Qc; 1%Qc]]).
  - intros q _ _. reflexivity.
  - repeat constructor; discriminate.
Defined.
